(** * Memtable skiplist (package memtable): a shallow embedding and its properties

    The embedding follows the Go source of the arena-backed skiplist: nodes
    live in an arena and refer to each other by 32-bit offsets, offset 0 being
    the nil pointer.  A single caller is modelled, so every atomic load is a
    read, every atomic store a write, and a compare-and-swap succeeds exactly
    when the cell holds the expected value. *)

From Stdlib Require Import ZArith List Lia Strings.Byte Bool Sorted.
From stdpp Require Import base option list gmap.

Set Warnings "-clear-no-such-hyp".
Local Open Scope Z_scope.

(** ** Results of fallible code *)

Inductive error : Type :=
| NilDeref      (* a field of a nil (or never allocated) node or arena is accessed *)
| OutOfArena    (* the arena budget is exceeded *)
| OutOfRange    (* an array is indexed outside its bounds *)
| OutOfFuel.    (* a loop of the model ran longer than the fuel it was given *)

Inductive res (A : Type) : Type :=
| Ok (a : A)
| Err (e : error).
Arguments Ok {A} a.
Arguments Err {A} e.

Definition bind {A B : Type} (m : res A) (k : A -> res B) : res B :=
  match m with
  | Ok a => k a
  | Err e => Err e
  end.

Notation "'let*' x ':=' m 'in' k" := (bind m (fun x => k))
  (at level 10, x pattern, m at level 100, k at level 200).

(** ** Package y: keys and values *)

(** Modelled from the spec: the Key type of package y, which is not part of
    the sources at hand.  A key is a user key (bytes) with a 64-bit Version. *)
Record Key : Type := mkKey { UserKey : list byte; Version : Z }.

(** Modelled from the spec: lexicographic comparison of byte strings, the
    result being negative, zero or positive. *)
Fixpoint bytesCompare (a b : list byte) : Z :=
  match a, b with
  | [], [] => 0
  | [], _ :: _ => -1
  | _ :: _, [] => 1
  | x :: a', y :: b' =>
      match N.compare (Byte.to_N x) (Byte.to_N y) with
      | Lt => -1
      | Gt => 1
      | Eq => bytesCompare a' b'
      end
  end.

(** Modelled from the spec: Compare orders by user key ascending and, among
    equal user keys, by Version descending. *)
Definition Compare (k k2 : Key) : Z :=
  let cmp := bytesCompare (UserKey k) (UserKey k2) in
  if cmp =? 0 then
    if Version k >? Version k2 then -1
    else if Version k <? Version k2 then 1
    else 0
  else cmp.

(** Modelled from the spec: SameUserKey ignores the Version. *)
Definition SameUserKey (k k2 : Key) : bool :=
  bytesCompare (UserKey k) (UserKey k2) =? 0.

(** Modelled from the spec: the ValueStruct type of package y: a payload and a
    fixed-width header (metadata byte, user-meta byte, expiration timestamp,
    Version). *)
Record ValueStruct : Type := mkValue {
  Meta : byte;
  UserMeta : byte;
  ExpiresAt : Z;
  Value : list byte;
  VsVersion : Z
}.

(** The zero values [y.Key{}] and [y.ValueStruct{}]. *)
Definition emptyKey : Key := mkKey [] 0.
Definition emptyValue : ValueStruct := mkValue x00 x00 0 [] 0.

Definition valueHeaderSize : Z := 1 + 1 + 8 + 8.

(** Modelled from the spec: the encoded size of a value, header and payload. *)
Definition EncodedSize (v : ValueStruct) : Z :=
  valueHeaderSize + Z.of_nat (length (Value v)).

Definition setVersion (v : ValueStruct) (ver : Z) : ValueStruct :=
  mkValue (Meta v) (UserMeta v) (ExpiresAt v) (Value v) ver.

(** ** Constants *)

Definition maxHeight : Z := 20.
Definition MaxUint32 : Z := 4294967295.
Definition heightIncrease : Z := MaxUint32 / 3.

(** [unsafe.Sizeof(node{})]: an 8-byte value word, a 4-byte key offset, two
    2-byte fields and [maxHeight] 4-byte tower slots. *)
Definition MaxNodeSize : Z := 8 + 4 + 2 + 2 + maxHeight * 4.

(** Modelled from the spec: nodes are aligned to the 8 bytes of the node
    record; [nodeAlign] is the alignment mask. *)
Definition nodeAlign : Z := 7.
Definition EstimateNodeSize : Z := MaxNodeSize + nodeAlign.

(** ** Nodes, arena, skiplist *)

Record node : Type := mkNode {
  n_value : Z;        (* value offset in bits 0-31, value size above *)
  n_keyOffset : Z;
  n_keySize : Z;
  n_height : Z;
  n_tower : list Z    (* truncated to the height the node was allocated with *)
}.

(** Modelled from the spec: the arena, a bump allocator over a byte buffer of
    [a_cap] bytes with cursor [a_n].  The buffer is kept as typed cells: the
    nodes, keys and values written at each offset. *)
Record arena : Type := mkArena {
  a_n : Z;
  a_cap : Z;
  a_nodes : gmap Z node;
  a_keys : gmap Z Key;
  a_vals : gmap Z ValueStruct
}.

Record skiplist : Type := mkSkiplist {
  s_height : Z;
  s_head : Z;                 (* *node, as an arena offset; 0 is nil *)
  s_arena : option arena      (* *arena; None is nil *)
}.

Definition set_nodes (a : arena) (m : gmap Z node) : arena :=
  mkArena (a_n a) (a_cap a) m (a_keys a) (a_vals a).

Definition set_arena (s : skiplist) (a : arena) : skiplist :=
  mkSkiplist (s_height s) (s_head s) (Some a).

(** *** Arena operations *)

(** Modelled from the spec: a new arena; offset 0 is reserved for nil, so the
    cursor starts past it. *)
Definition newArena (n : Z) : arena := mkArena 1 n ∅ ∅ ∅.

(** Modelled from the spec: the bump; it fails when the budget is exceeded. *)
Definition bump (a : arena) (l : Z) : res Z :=
  let n := a_n a + l in
  if n <=? a_cap a then Ok n else Err OutOfArena.

Definition zeroNode (height : Z) : node :=
  mkNode 0 0 0 0 (replicate (Z.to_nat height) 0).

(** Modelled from the spec: putNode reserves a node whose tower is truncated
    to [height] slots, zero-initialised, at an aligned offset. *)
Definition putNode (a : arena) (height : Z) : res (Z * arena) :=
  let unusedSize := (maxHeight - height) * 4 in
  let l := MaxNodeSize - unusedSize + nodeAlign in
  let* n := bump a l in
  let m := (n - l + nodeAlign) / (nodeAlign + 1) * (nodeAlign + 1) in
  Ok (m, mkArena n (a_cap a) (<[m := zeroNode height]> (a_nodes a)) (a_keys a) (a_vals a)).

(** Modelled from the spec: putKey copies the user key and the 8 bytes of the
    Version. *)
Definition putKey (a : arena) (key : Key) : res (Z * arena) :=
  let l := Z.of_nat (length (UserKey key)) + 8 in
  let* n := bump a l in
  let m := n - l in
  Ok (m, mkArena n (a_cap a) (a_nodes a) (<[m := key]> (a_keys a)) (a_vals a)).

(** Modelled from the spec: putVal copies the encoded value. *)
Definition putVal (a : arena) (v : ValueStruct) : res (Z * arena) :=
  let l := EncodedSize v in
  let* n := bump a l in
  let m := n - l in
  Ok (m, mkArena n (a_cap a) (a_nodes a) (a_keys a) (<[m := v]> (a_vals a))).

(** Modelled from the spec: node pointers are arena offsets, nil being 0. *)
Definition getNode (a : arena) (offset : Z) : Z := offset.
Definition getNodeOffset (a : arena) (nd : Z) : Z := nd.

(** The 8 bytes of a Version, read as an unsigned 64-bit number. *)
Definition uint64_of_bytes (bs : list byte) : Z :=
  fold_right (fun b acc => Z.of_N (Byte.to_N b) + 256 * acc) 0 bs.

(** Modelled from the spec: a key lies in the arena as its user-key bytes
    followed by the 8 bytes of its Version, and getKey reads [size] bytes
    at the offset: all but the last 8 of them are the user key, the last 8
    the Version.  With the size the key was written with, this is the key.
    The size a node carries has 16 bits only: for a user key of 65528 bytes
    or more it is less than the size written by 65536 or more, and the
    bytes read are then the first [size] bytes of the user key (the byte
    order in which the Version is read is not given by the sources at
    hand; the lowest byte is taken first). *)
Definition getKey (a : arena) (offset size : Z) : Key :=
  match a_keys a !! offset with
  | Some k =>
      if size =? Z.of_nat (length (UserKey k)) + 8 then k
      else
        let bs := take (Z.to_nat size) (UserKey k) in
        let n := Z.to_nat (size - 8) in
        mkKey (take n bs) (uint64_of_bytes (drop n bs))
  | None => emptyKey
  end.

(** Modelled from the spec: getVal reads back the value written at the
    offset; elsewhere it yields the zero value. *)
Definition getVal (a : arena) (offset size : Z) : ValueStruct :=
  default emptyValue (a_vals a !! offset).

(** Modelled from the spec: reset rewinds the cursor of the arena it is
    called on to its initial value and so drops the contents.  The body of
    reset is not among the sources at hand, and neither they nor the
    specification say what it does on a nil arena; here the store to the
    cursor dereferences the receiver, as a store to a field does in Go.
    Every statement below about Delete is about a skiplist whose arena is
    not nil. *)
Definition reset (p : option arena) : res (option arena) :=
  match p with
  | Some a => Ok (Some (mkArena 1 (a_cap a) ∅ ∅ ∅))
  | None => Err NilDeref
  end.

(** Dereferencing a node pointer. *)
Definition deref (a : arena) (p : Z) : res node :=
  match a_nodes a !! p with
  | Some nd => Ok nd
  | None => Err NilDeref
  end.

Definition the_arena (s : skiplist) : res arena :=
  match s_arena s with
  | Some a => Ok a
  | None => Err NilDeref
  end.

(** Go arrays and their bounds checks. *)
Definition arr_get (l : list Z) (i : Z) : res Z :=
  if i <? 0 then Err OutOfRange
  else match l !! Z.to_nat i with
       | Some v => Ok v
       | None => Err OutOfRange
       end.

Definition arr_set (l : list Z) (i : Z) (v : Z) : res (list Z) :=
  if (0 <=? i) && (i <? Z.of_nat (length l)) then Ok (<[Z.to_nat i := v]> l)
  else Err OutOfRange.

(** *** Node operations *)

Definition encodeValue (valOffset valSize : Z) : Z :=
  Z.lor (Z.shiftl valSize 32) valOffset.

Definition decodeValue (value : Z) : Z * Z :=
  (value mod 2 ^ 32, Z.shiftr value 32 mod 2 ^ 32).

Definition newNode (a : arena) (key : Key) (v : ValueStruct) (height : Z)
  : res (Z * arena) :=
  let* (offset, a1) := putNode a height in
  let nd := getNode a1 offset in
  let* n0 := deref a1 nd in
  let* (koff, a2) := putKey a1 key in
  let* (voff, a3) := putVal a2 v in
  let n1 := mkNode (encodeValue voff (EncodedSize v))
                   koff
                   ((Z.of_nat (length (UserKey key)) + 8) mod 2 ^ 16)
                   (height mod 2 ^ 16)
                   (n_tower n0) in
  Ok (nd, set_nodes a3 (<[nd := n1]> (a_nodes a3))).

Definition newSkiplist (arenaSize : Z) : res skiplist :=
  let a := newArena arenaSize in
  let* (hd, a1) := newNode a emptyKey emptyValue maxHeight in
  Ok (mkSkiplist 1 hd (Some a1)).

Definition Delete (s : skiplist) : res skiplist :=
  let* _ := reset (s_arena s) in
  Ok (mkSkiplist (s_height s) 0 None).

Definition valid (s : skiplist) : bool :=
  match s_arena s with Some _ => true | None => false end.

Definition getValueOffset (nd : node) : Z * Z := decodeValue (n_value nd).

(** [n.key(a)] for a node pointer [n]. *)
Definition key (a : arena) (n : Z) : res Key :=
  let* nd := deref a n in
  Ok (getKey a (n_keyOffset nd) (n_keySize nd)).

Definition setValue (a : arena) (n : Z) (v : ValueStruct) : res arena :=
  let* (valOffset, a1) := putVal a v in
  let value := encodeValue valOffset (EncodedSize v) in
  let* nd := deref a1 n in
  Ok (set_nodes a1 (<[n := mkNode value (n_keyOffset nd) (n_keySize nd)
                                   (n_height nd) (n_tower nd)]> (a_nodes a1))).

Definition getNextOffset (nd : node) (h : Z) : res Z := arr_get (n_tower nd) h.

Definition setTower (a : arena) (n : Z) (h : Z) (val : Z) : res arena :=
  let* nd := deref a n in
  let* t := arr_set (n_tower nd) h val in
  Ok (set_nodes a (<[n := mkNode (n_value nd) (n_keyOffset nd) (n_keySize nd)
                                  (n_height nd) t]> (a_nodes a))).

(** Compare-and-swap of a tower slot, for a single caller. *)
Definition casNextOffset (a : arena) (n : Z) (h : Z) (old val : Z)
  : res (bool * arena) :=
  let* nd := deref a n in
  let* cur := getNextOffset nd h in
  if cur =? old then
    let* a' := setTower a n h val in Ok (true, a')
  else Ok (false, a).

(** The draws of the pseudo-random generator are given as a sequence. *)
Fixpoint randomHeight_loop (fuel : nat) (rnd : nat -> Z) (i : nat) (h : Z) : Z :=
  match fuel with
  | O => h
  | S fuel' =>
      if (h <? maxHeight) && (rnd i <=? heightIncrease)
      then randomHeight_loop fuel' rnd (S i) (h + 1)
      else h
  end.

Definition randomHeight (rnd : nat -> Z) : Z :=
  randomHeight_loop (Z.to_nat maxHeight) rnd 0%nat 1.

Definition getNext (s : skiplist) (nd : Z) (height : Z) : res Z :=
  let* a := the_arena s in
  let* n := deref a nd in
  let* off := getNextOffset n height in
  Ok (getNode a off).

Definition getHeight (s : skiplist) : Z := s_height s.

(** The fuel given to the unbounded loops: more than any walk over a list of
    distinct nodes of the arena needs. *)
Definition fuel_of (s : skiplist) : nat :=
  match s_arena s with
  | Some a => size (a_nodes a) + Z.to_nat maxHeight + 1
  | None => 1
  end.

(** ** The search primitives *)

(** The body of the loop of [findNear]; [x], [level] and [afterNode] are its
    variables. *)
Fixpoint findNear_loop (fuel : nat) (s : skiplist) (k : Key) (less allowEqual : bool)
    (x : Z) (level : Z) (afterNode : Z) : res (Z * bool) :=
  match fuel with
  | O => Err OutOfFuel
  | S fuel' =>
      let* next := getNext s x level in
      if next =? 0 then
        if level >? 0 then
          findNear_loop fuel' s k less allowEqual x (level - 1) afterNode
        else if negb less then Ok (0, false)
        else if x =? s_head s then Ok (0, false)
        else Ok (x, false)
      else
        let* cmp :=
          if next =? afterNode then Ok (-1)
          else
            let* a := the_arena s in
            let* nextKey := key a next in
            Ok (Compare k nextKey) in
        if cmp >? 0 then
          findNear_loop fuel' s k less allowEqual next level afterNode
        else if cmp =? 0 then
          if allowEqual then Ok (next, true)
          else if negb less then
            let* r := getNext s next 0 in Ok (r, false)
          else if level >? 0 then
            findNear_loop fuel' s k less allowEqual x (level - 1) afterNode
          else if x =? s_head s then Ok (0, false)
          else Ok (x, false)
        else
          if level >? 0 then
            findNear_loop fuel' s k less allowEqual x (level - 1) next
          else if negb less then Ok (next, false)
          else if x =? s_head s then Ok (0, false)
          else Ok (x, false)
  end.

Definition findNear (s : skiplist) (k : Key) (less allowEqual : bool) : res (Z * bool) :=
  findNear_loop (fuel_of s) s k less allowEqual (s_head s) (getHeight s - 1) 0.

Fixpoint findSpliceForLevel_loop (fuel : nat) (s : skiplist) (k : Key)
    (before : Z) (level : Z) : res (Z * Z * bool) :=
  match fuel with
  | O => Err OutOfFuel
  | S fuel' =>
      let* next := getNext s before level in
      if next =? 0 then Ok (before, next, false)
      else
        let* a := the_arena s in
        let* nextKey := key a next in
        let cmp := Compare k nextKey in
        if cmp <=? 0 then Ok (before, next, cmp =? 0)
        else findSpliceForLevel_loop fuel' s k next level
  end.

Definition findSpliceForLevel (s : skiplist) (k : Key) (before : Z) (level : Z)
  : res (Z * Z * bool) :=
  findSpliceForLevel_loop (fuel_of s) s k before level.

Fixpoint findLast_loop (fuel : nat) (s : skiplist) (n : Z) (level : Z) : res Z :=
  match fuel with
  | O => Err OutOfFuel
  | S fuel' =>
      let* next := getNext s n level in
      if negb (next =? 0) then findLast_loop fuel' s next level
      else if level =? 0 then
        if n =? s_head s then Ok 0 else Ok n
      else findLast_loop fuel' s n (level - 1)
  end.

Definition findLast (s : skiplist) : res Z :=
  findLast_loop (fuel_of s) s (s_head s) (getHeight s - 1).

Definition Empty (s : skiplist) : res bool :=
  let* n := findLast s in Ok (n =? 0).

(** The part shared by [Get] and [GetWithHint]: the value of node [n] when
    its user key is that of [k]. *)
Definition valueOf (s : skiplist) (k : Key) (n : Z) : res ValueStruct :=
  if n =? 0 then Ok emptyValue
  else
    let* a := the_arena s in
    let* nd := deref a n in
    let nextKey := getKey a (n_keyOffset nd) (n_keySize nd) in
    if negb (SameUserKey k nextKey) then Ok emptyValue
    else
      let '(valOffset, valSize) := getValueOffset nd in
      let vs := getVal a valOffset valSize in
      Ok (setVersion vs (Version nextKey)).

Definition Get (s : skiplist) (k : Key) : res ValueStruct :=
  let* (n, _) := findNear s k false true in
  valueOf s k n.

(** ** The hint *)

Record hint : Type := mkHint {
  h_height : Z;
  h_hitHeight : Z;
  h_prev : list Z;
  h_next : list Z
}.

(** [new(hint)] *)
Definition newHint : hint :=
  mkHint 0 0 (replicate (Z.to_nat (maxHeight + 1)) 0) (replicate (Z.to_nat (maxHeight + 1)) 0).

(** [for node == arr[recomputeHeight] { recomputeHeight++ }] *)
Fixpoint skipSame (fuel : nat) (arr : list Z) (nd : Z) (recomputeHeight : Z) : res Z :=
  match fuel with
  | O => Err OutOfFuel
  | S fuel' =>
      let* cur := arr_get arr recomputeHeight in
      if nd =? cur then skipSame fuel' arr nd (recomputeHeight + 1)
      else Ok recomputeHeight
  end.

Fixpoint recompute_loop (fuel : nat) (s : skiplist) (k : Key) (h : hint)
    (listHeight recomputeHeight : Z) : res Z :=
  match fuel with
  | O => Err OutOfFuel
  | S fuel' =>
      if recomputeHeight <? listHeight then
        let* prevNode := arr_get (h_prev h) recomputeHeight in
        let* nextNode := arr_get (h_next h) recomputeHeight in
        let* prevNext := getNext s prevNode recomputeHeight in
        if negb (prevNext =? nextNode) then
          recompute_loop fuel' s k h listHeight (recomputeHeight + 1)
        else
          let* a := the_arena s in
          let* before :=
            if negb (prevNode =? s_head s) && negb (prevNode =? 0) then
              let* pk := key a prevNode in Ok (Compare k pk <=? 0)
            else Ok false in
          if before then
            let* r := skipSame (Z.to_nat (maxHeight + 2)) (h_prev h) prevNode recomputeHeight in
            recompute_loop fuel' s k h listHeight r
          else
            let* after :=
              if negb (nextNode =? 0) then
                let* nk := key a nextNode in Ok (Compare k nk >? 0)
              else Ok false in
            if after then
              let* r := skipSame (Z.to_nat (maxHeight + 2)) (h_next h) nextNode recomputeHeight in
              recompute_loop fuel' s k h listHeight r
            else Ok recomputeHeight
      else Ok recomputeHeight
  end.

Definition calculateRecomputeHeight (s : skiplist) (k : Key) (h : hint) (listHeight : Z)
  : res (Z * hint) :=
  if h_height h <? listHeight then
    let* prev := arr_set (h_prev h) listHeight (s_head s) in
    let* next := arr_set (h_next h) listHeight 0 in
    Ok (listHeight, mkHint listHeight listHeight prev next)
  else
    let recomputeHeight := h_hitHeight h - 2 in
    let recomputeHeight := if recomputeHeight <? 0 then 0 else recomputeHeight in
    let* r := recompute_loop (S (Z.to_nat listHeight)) s k h listHeight recomputeHeight in
    Ok (r, mkHint (h_height h) r (h_prev h) (h_next h)).

Definition set_prev_next (h : hint) (prev next : list Z) : hint :=
  mkHint (h_height h) (h_hitHeight h) prev next.

(** ** Put *)

(** [for i > 0 { h.prev[i-1] = h.prev[i]; h.next[i-1] = h.next[i]; i-- }] *)
Fixpoint copyDown (i : nat) (h : hint) : res hint :=
  match i with
  | O => Ok h
  | S i' =>
      let* p := arr_get (h_prev h) (Z.of_nat i) in
      let* prev := arr_set (h_prev h) (Z.of_nat i') p in
      let* n := arr_get (h_next h) (Z.of_nat i) in
      let* next := arr_set (h_next h) (Z.of_nat i') n in
      copyDown i' (set_prev_next h prev next)
  end.

(** The loop [for i := recomputeHeight - 1; i >= 0; i--] of [PutWithHint],
    entered with [cnt = i + 1].  The boolean tells whether the put returned
    from inside the loop, after an update in place. *)
Fixpoint putSearch (cnt : nat) (s : skiplist) (k : Key) (v : ValueStruct) (h : hint)
  : res (skiplist * hint * bool) :=
  match cnt with
  | O => Ok (s, h, false)
  | S i =>
      let* before := arr_get (h_prev h) (Z.of_nat i + 1) in
      let* (p, n, match_) := findSpliceForLevel s k before (Z.of_nat i) in
      let* prev := arr_set (h_prev h) (Z.of_nat i) p in
      let* next := arr_set (h_next h) (Z.of_nat i) n in
      let h := set_prev_next h prev next in
      if match_ : bool then
        let* a := the_arena s in
        let* nd := arr_get (h_next h) (Z.of_nat i) in
        let* a' := setValue a nd v in
        let* h := copyDown i h in
        Ok (set_arena s a', h, true)
      else putSearch i s k v h
  end.

(** The inner loop of the insertion, at level [i]: link [x] between
    [h.prev[i]] and [h.next[i]], searching again when the swap fails. *)
Fixpoint insertAt (fuel : nat) (s : skiplist) (k : Key) (x : Z) (i : Z)
    (h : hint) (spliceIsValid : bool) : res (skiplist * hint * bool) :=
  match fuel with
  | O => Err OutOfFuel
  | S fuel' =>
      let* a := the_arena s in
      let* nx := arr_get (h_next h) i in
      let nextOffset := getNodeOffset a nx in
      let* a := setTower a x i nextOffset in
      let* p := arr_get (h_prev h) i in
      let* (swapped, a) := casNextOffset a p i nextOffset (getNodeOffset a x) in
      let s := set_arena s a in
      if swapped : bool then Ok (s, h, spliceIsValid)
      else
        let* (p', n', _) := findSpliceForLevel s k p i in
        let* prev := arr_set (h_prev h) i p' in
        let* next := arr_set (h_next h) i n' in
        insertAt fuel' s k x i (set_prev_next h prev next)
                 (if i >? 0 then false else spliceIsValid)
  end.

(** [for i := 0; i < height; i++], entered at level [i] with [cnt] levels to go. *)
Fixpoint insertLevels (cnt : nat) (s : skiplist) (k : Key) (x : Z) (i : Z)
    (h : hint) (spliceIsValid : bool) : res (skiplist * hint * bool) :=
  match cnt with
  | O => Ok (s, h, spliceIsValid)
  | S cnt' =>
      let* (s, h, spliceIsValid) := insertAt (fuel_of s) s k x i h spliceIsValid in
      insertLevels cnt' s k x (i + 1) h spliceIsValid
  end.

(** [for i := 0; i < height; i++ { h.prev[i] = x; h.next[i] = s.getNext(x, i) }] *)
Fixpoint refreshHint (cnt : nat) (s : skiplist) (x : Z) (i : Z) (h : hint) : res hint :=
  match cnt with
  | O => Ok h
  | S cnt' =>
      let* prev := arr_set (h_prev h) i x in
      let* n := getNext s x i in
      let* next := arr_set (h_next h) i n in
      refreshHint cnt' s x (i + 1) (set_prev_next h prev next)
  end.

(** [PutWithHint]; [rnd] gives the draws of the random generator.  The hint
    is the caller's object, returned as the put leaves it. *)
Definition PutWithHint (s : skiplist) (k : Key) (v : ValueStruct) (h : option hint)
    (rnd : nat -> Z) : res (skiplist * option hint) :=
  let listHeight := getHeight s in
  let height := randomHeight rnd in
  (* the swap of s.height succeeds at once for a single caller *)
  let s := if height >? listHeight
           then mkSkiplist height (s_head s) (s_arena s) else s in
  let listHeight := if height >? listHeight then height else listHeight in
  let spliceIsValid := match h with Some _ => true | None => false end in
  let caller := h in
  let h := match h with Some h => h | None => newHint end in
  let give (h : hint) := match caller with Some _ => Some h | None => None end in
  let* (recomputeHeight, h) := calculateRecomputeHeight s k h listHeight in
  let* (s, h, returned) :=
    if recomputeHeight >? 0
    then putSearch (Z.to_nat recomputeHeight) s k v h
    else Ok (s, h, false) in
  if returned : bool then Ok (s, give h)
  else
    let* a := the_arena s in
    let* (x, a) := newNode a k v height in
    let s := set_arena s a in
    let* (s, h, spliceIsValid) :=
      insertLevels (Z.to_nat height) s k x 0 h spliceIsValid in
    if spliceIsValid : bool then
      let* h := refreshHint (Z.to_nat height) s x 0 h in
      Ok (s, give h)
    else
      Ok (s, give (mkHint 0 (h_hitHeight h) (h_prev h) (h_next h))).

Definition Put (s : skiplist) (k : Key) (v : ValueStruct) (rnd : nat -> Z) : res skiplist :=
  let* (s', _) := PutWithHint s k v None rnd in Ok s'.

(** ** GetWithHint *)

(** [for j := i; j >= 0; j-- { h.prev[j] = n; h.next[j] = s.getNext(n, j) }],
    entered with [cnt = j + 1]. *)
Fixpoint fillDown (cnt : nat) (s : skiplist) (n : Z) (h : hint) : res hint :=
  match cnt with
  | O => Ok h
  | S j =>
      let* prev := arr_set (h_prev h) (Z.of_nat j) n in
      let* nx := getNext s n (Z.of_nat j) in
      let* next := arr_set (h_next h) (Z.of_nat j) nx in
      fillDown j s n (set_prev_next h prev next)
  end.

(** The loop [for i := recomputeHeight - 1; i >= 0; i--] of [GetWithHint],
    entered with [cnt = i + 1]; it yields the node [n], nil when no level
    matched. *)
Fixpoint getSearch (cnt : nat) (s : skiplist) (k : Key) (h : hint) : res (Z * hint) :=
  match cnt with
  | O => Ok (0, h)
  | S i =>
      let* before := arr_get (h_prev h) (Z.of_nat i + 1) in
      let* (p, nx, match_) := findSpliceForLevel s k before (Z.of_nat i) in
      let* prev := arr_set (h_prev h) (Z.of_nat i) p in
      let* next := arr_set (h_next h) (Z.of_nat i) nx in
      let h := set_prev_next h prev next in
      if match_ : bool then
        let* n := arr_get (h_next h) (Z.of_nat i) in
        let* h := fillDown (S i) s n h in
        Ok (n, h)
      else getSearch i s k h
  end.

Definition GetWithHint (s : skiplist) (k : Key) (h : option hint)
  : res (ValueStruct * option hint) :=
  let caller := h in
  let h := match h with Some h => h | None => newHint end in
  let give (h : hint) := match caller with Some _ => Some h | None => None end in
  let listHeight := getHeight s in
  let* (recomputeHeight, h) := calculateRecomputeHeight s k h listHeight in
  let* (n, h) :=
    if recomputeHeight >? 0
    then getSearch (Z.to_nat recomputeHeight) s k h
    else let* n := arr_get (h_next h) 0 in Ok (n, h) in
  let* vs := valueOf s k n in
  Ok (vs, give h).

(** ** Iterators *)

(** An iterator refers to its skiplist and holds the current node; the
    skiplist it refers to is passed to each operation. *)
Record Iterator : Type := mkIterator { it_n : Z }.

Definition NewIterator (s : skiplist) : Iterator := mkIterator 0.

Definition Valid (it : Iterator) : bool := negb (it_n it =? 0).

Definition it_Key (s : skiplist) (it : Iterator) : res Key :=
  let* a := the_arena s in key a (it_n it).

Definition it_Value (s : skiplist) (it : Iterator) : res ValueStruct :=
  let* a := the_arena s in
  let* nd := deref a (it_n it) in
  let '(valOffset, valSize) := getValueOffset nd in
  Ok (getVal a valOffset valSize).

Definition Next (s : skiplist) (it : Iterator) : res Iterator :=
  let* n := getNext s (it_n it) 0 in Ok (mkIterator n).

Definition Prev (s : skiplist) (it : Iterator) : res Iterator :=
  let* k := it_Key s it in
  let* (n, _) := findNear s k true false in Ok (mkIterator n).

Definition Seek (s : skiplist) (target : Key) : res Iterator :=
  let* (n, _) := findNear s target false true in Ok (mkIterator n).

Definition SeekForPrev (s : skiplist) (target : Key) : res Iterator :=
  let* (n, _) := findNear s target true true in Ok (mkIterator n).

Definition SeekToFirst (s : skiplist) : res Iterator :=
  let* n := getNext s (s_head s) 0 in Ok (mkIterator n).

Definition SeekToLast (s : skiplist) : res Iterator :=
  let* n := findLast s in Ok (mkIterator n).

(** Forward iteration: the keys seen by [SeekToFirst] followed by [Next]
    until the iterator is no longer valid. *)
Fixpoint forward_loop (fuel : nat) (s : skiplist) (it : Iterator) : res (list Key) :=
  match fuel with
  | O => Err OutOfFuel
  | S fuel' =>
      if Valid it then
        let* k := it_Key s it in
        let* it' := Next s it in
        let* ks := forward_loop fuel' s it' in
        Ok (k :: ks)
      else Ok []
  end.

Definition forward (s : skiplist) : res (list Key) :=
  let* it := SeekToFirst s in forward_loop (fuel_of s) s it.

(** * Vocabulary of the properties *)

(** [klt a b]: key [a] sorts strictly before key [b]. *)
Definition klt (a b : Key) : Prop := Compare a b < 0.

#[global] Instance klt_dec a b : Decision (klt a b) := decide (Compare a b < 0).

(** ** What the arena holds for a node *)

(** The successor of node [x] at level [l], when [x] is a node with a slot
    at that level. *)
Definition next (a : arena) (l : nat) (x : Z) : option Z :=
  match a_nodes a !! x with
  | Some nd => n_tower nd !! l
  | None => None
  end.

(** Node [x] has a tower slot at level [l]. *)
Definition tall (a : arena) (l : nat) (x : Z) : Prop := is_Some (next a l x).

#[global] Instance tall_dec a l x : Decision (tall a l x) :=
  is_Some_dec (next a l x).

(** The key and the value of node [x]. *)
Definition nkey (a : arena) (x : Z) : Key :=
  match a_nodes a !! x with
  | Some nd => getKey a (n_keyOffset nd) (n_keySize nd)
  | None => emptyKey
  end.

Definition nval (a : arena) (x : Z) : ValueStruct :=
  match a_nodes a !! x with
  | Some nd => getVal a (fst (getValueOffset nd)) (snd (getValueOffset nd))
  | None => emptyValue
  end.

(** The size of a key, its 8 Version bytes included, fits the 16 bits of
    the keySize field of a node. *)
Definition keySizeFits (k : Key) : Prop :=
  Z.of_nat (length (UserKey k)) + 8 < 2 ^ 16.

(** The size reserved for a node of the given height, padding included. *)
Definition nodeSize (height : Z) : Z :=
  MaxNodeSize - (maxHeight - height) * 4 + nodeAlign.

(** Two nodes that differ in the contents of their towers only. *)
Definition same_fields (n n' : node) : Prop :=
  n_value n = n_value n' /\ n_keyOffset n = n_keyOffset n' /\
  n_keySize n = n_keySize n' /\ n_height n = n_height n' /\
  length (n_tower n) = length (n_tower n').

(** Two arenas that differ in the contents of towers only. *)
Definition relinked (a a' : arena) : Prop :=
  a_n a = a_n a' /\ a_cap a = a_cap a' /\ a_keys a = a_keys a' /\ a_vals a = a_vals a' /\
  forall y, option_Forall2 same_fields (a_nodes a !! y) (a_nodes a' !! y).

(** The cursor is past everything the nodes refer to. *)
Definition allocated (a : arena) : Prop :=
  1 <= a_n a /\ a_cap a <= MaxUint32 /\
  forall y nd, a_nodes a !! y = Some nd ->
    0 < y < a_n a /\ n_keyOffset nd < a_n a /\ 0 <= fst (getValueOffset nd) < a_n a.

(** [linked a l x xs e]: following the level-[l] slots from [x] visits the
    nodes [xs] in turn, and the last of them (or [x]) points to [e]. *)
Fixpoint linked (a : arena) (l : nat) (x : Z) (xs : list Z) (e : Z) : Prop :=
  match xs with
  | [] => next a l x = Some e
  | y :: ys => next a l x = Some y /\ linked a l y ys e
  end.

(** Nodes in strictly ascending key order. *)
Definition ascending (a : arena) (xs : list Z) : Prop :=
  StronglySorted (fun x y => klt (nkey a x) (nkey a y)) xs.

(** ** Well-formed skiplists *)

(** [wf s a Ls]: the skiplist [s] over arena [a] has, at every level [l] in
    use, the chain [Ls l] from the head to nil; every chain is strictly
    ascending and every node of a level is on the level below. *)
Record wf (s : skiplist) (a : arena) (Ls : nat -> list Z) : Prop := mkWf {
  wf_arena : s_arena s = Some a;
  wf_height : 1 <= s_height s <= maxHeight;
  wf_head : s_head s <> 0;
  wf_chain : forall l, (l < Z.to_nat (s_height s))%nat -> linked a l (s_head s) (Ls l) 0;
  wf_nodes : forall l x, (l < Z.to_nat (s_height s))%nat -> x ∈ Ls l -> x <> 0 /\ x <> s_head s;
  wf_sorted : forall l, (l < Z.to_nat (s_height s))%nat -> ascending a (Ls l);
  wf_nested : forall l x, (S l < Z.to_nat (s_height s))%nat -> x ∈ Ls (S l) -> x ∈ Ls l
}.

(** [Inv s a L]: the skiplist [s] over arena [a] holds the nodes [L], in
    strictly ascending key order; the chain of each level is made of the
    nodes of [L] that have a slot at that level; the arena cursor is past
    everything the nodes refer to. *)
Record Inv (s : skiplist) (a : arena) (L : list Z) : Prop := mkInv {
  inv_arena : s_arena s = Some a;
  inv_height : 1 <= s_height s <= maxHeight;
  inv_head : tall a (Z.to_nat maxHeight - 1) (s_head s) /\ s_head s ∉ L;
  inv_chain : forall l, (l < Z.to_nat maxHeight)%nat ->
              linked a l (s_head s) (filter (tall a l) L) 0;
  inv_sorted : ascending a L;
  inv_tall : forall x, x ∈ L -> tall a 0 x /\ ~ tall a (Z.to_nat (s_height s)) x;
  inv_alloc : allocated a
}.

(** The nodes of the base chain [L] that lie after [x], the head lying
    before all. *)
Definition nodes_after (s : skiplist) (a : arena) (L : list Z) (x : Z) : list Z :=
  filter (fun y => x = s_head s \/ klt (nkey a x) (nkey a y)) L.

(** The splice of key position [A | B] at level [l]: the last node of [A]
    and the first node of [B] that have a slot at that level. *)
Definition splice_prev (s : skiplist) (a : arena) (A : list Z) (l : nat) : Z :=
  List.last (filter (tall a l) A) (s_head s).

Definition splice_next (a : arena) (B : list Z) (l : nat) : Z :=
  List.hd 0 (filter (tall a l) B).

(** The hint holds the splice at the levels [lo] to [hi]. *)
Definition hint_ok (s : skiplist) (a : arena) (A B : list Z) (h : hint) (lo hi : nat) : Prop :=
  length (h_prev h) = 21%nat /\ length (h_next h) = 21%nat /\
  forall j, (lo <= j <= hi)%nat ->
    h_prev h !! j = Some (splice_prev s a A j) /\
    h_next h !! j = Some (splice_next a B j).

(** [PInv s a A x B i]: the skiplist holds the nodes [A ++ B], and the new
    node [x], which belongs between them, is linked at the levels below [i]. *)
Record PInv (s : skiplist) (a : arena) (A : list Z) (x : Z) (B : list Z) (i : nat)
  : Prop := mkPInv {
  pinv_arena : s_arena s = Some a;
  pinv_height : 1 <= s_height s <= maxHeight;
  pinv_head : tall a (Z.to_nat maxHeight - 1) (s_head s) /\ s_head s ∉ A ++ x :: B;
  pinv_chain : forall l, (l < Z.to_nat maxHeight)%nat ->
               linked a l (s_head s)
                 (filter (tall a l) A ++ (if decide (l < i)%nat then [x] else [])
                    ++ filter (tall a l) B) 0;
  pinv_sorted : ascending a (A ++ x :: B);
  pinv_tall : forall y, y ∈ A ++ x :: B ->
              tall a 0 y /\ ~ tall a (Z.to_nat (s_height s)) y;
  pinv_alloc : allocated a
}.

(** What a put of [k], [v] does to a skiplist that holds the nodes [L]: it
    overwrites the value of the node that holds [k], or links a new node. *)
Definition put_effect (a : arena) (L : list Z) (k : Key) (v : ValueStruct)
    (a' : arena) (L' : list Z) : Prop :=
  (exists e, e ∈ L /\ nkey a e = k /\ L' = L /\
     nval a' e = v /\
     (forall y, y <> e -> nval a' y = nval a y) /\
     (forall y, nkey a' y = nkey a y) /\
     (forall l y, next a' l y = next a l y) /\
     (forall y, is_Some (a_nodes a' !! y) <-> is_Some (a_nodes a !! y)))
  \/
  ((forall y, y ∈ L -> nkey a y <> k) /\
   exists A B x, L = A ++ B /\ L' = A ++ x :: B /\ (x ∉ L) /\
     nkey a' x = k /\ nval a' x = v /\
     (forall y, y ∈ L -> nkey a' y = nkey a y /\ nval a' y = nval a y)).

(** The chains of a skiplist that holds the nodes [L]. *)
Definition levels (a : arena) (L : list Z) (l : nat) : list Z := filter (tall a l) L.

(** A skiplist built by a sequence of puts, each with the draws of its
    random height. *)
Fixpoint puts (ops : list (Key * ValueStruct * (nat -> Z))) (s : skiplist) : res skiplist :=
  match ops with
  | [] => Ok s
  | (k, v, rnd) :: ops' => let* s' := Put s k v rnd in puts ops' s'
  end.

Definition build (arenaSize : Z) (ops : list (Key * ValueStruct * (nat -> Z))) : res skiplist :=
  let* s := newSkiplist arenaSize in puts ops s.

(** The same with hints: each put is given the hint object of the caller in
    some state. *)
Fixpoint putsWithHint (ops : list (Key * ValueStruct * option hint * (nat -> Z)))
    (s : skiplist) : res skiplist :=
  match ops with
  | [] => Ok s
  | (k, v, h, rnd) :: ops' =>
      let* (s', _) := PutWithHint s k v h rnd in putsWithHint ops' s'
  end.

(** The value [Get] is to give, read off the base chain split at the key. *)
Definition get_result (a : arena) (k : Key) (Q : list Z) : ValueStruct :=
  match Q with
  | q :: _ =>
      if SameUserKey k (nkey a q) then setVersion (nval a q) (Version (nkey a q))
      else emptyValue
  | [] => emptyValue
  end.

(** The result [findNear] is to give, read off the base chain [L] split as
    [P ++ Q] with the keys of [P] before [k] and those of [Q] not before [k]. *)
Definition near_result (a : arena) (k : Key) (less allowEqual : bool)
    (P Q : list Z) : Z * bool :=
  match Q with
  | q :: Q' =>
      if Compare k (nkey a q) =? 0 then
        if allowEqual then (q, true)
        else if less then (List.last P 0, false)
        else (List.hd 0 Q', false)
      else
        if less then (List.last P 0, false) else (q, false)
  | [] => (if less then List.last P 0 else 0, false)
  end.

Definition near_split (a : arena) (k : Key) (L P Q : list Z) : Prop :=
  L = P ++ Q /\
  Forall (fun y => klt (nkey a y) k) P /\
  Forall (fun y => ~ klt (nkey a y) k) Q.

(** The predicates of the four queries of [findNear]. *)
Definition near_pred (a : arena) (k : Key) (less allowEqual : bool) (y : Z) : Prop :=
  match less, allowEqual with
  | false, false => Compare k (nkey a y) < 0     (* the node's key is after k *)
  | false, true => Compare k (nkey a y) <= 0
  | true, false => Compare k (nkey a y) > 0      (* the node's key is before k *)
  | true, true => Compare k (nkey a y) >= 0
  end.

(** [n] is the leftmost (for [less = false]) or rightmost (for [less = true])
    node of [L] that satisfies [R]; [n = 0] when no node does. *)
Definition extremal (less : bool) (R : Z -> Prop) (L : list Z) (n : Z) : Prop :=
  (n = 0 /\ Forall (fun y => ~ R y) L) \/
  (n <> 0 /\ R n /\ exists P Q, L = P ++ n :: Q /\
     Forall (fun y => ~ R y) (if less then Q else P)).

(** ** Concrete skiplists, used to exercise the statements *)

Definition ukey (b : byte) (ver : Z) : Key := mkKey [b] ver.
Definition payload (b : byte) : ValueStruct := mkValue x00 x00 0 [b] 0.

(** Draws that give a node the height 1, and the height 2. *)
Definition draws1 : nat -> Z := fun _ => MaxUint32.
Definition draws2 : nat -> Z := fun i => if (i <? 1)%nat then 0 else MaxUint32.

Definition state_of (r : res skiplist) : skiplist :=
  match r with Ok s => s | Err _ => mkSkiplist 0 0 None end.

Definition arena_of (s : skiplist) : arena :=
  match s_arena s with Some a => a | None => newArena 0 end.

(** Three keys, the middle one on two levels. *)
Definition ex_ops : list (Key * ValueStruct * (nat -> Z)) :=
  [(ukey "a" 1, payload "1", draws1);
   (ukey "c" 1, payload "2", draws2);
   (ukey "e" 1, payload "3", draws1)].

Definition ex_s : skiplist := state_of (build 4096 ex_ops).
Definition ex_a : arena := arena_of ex_s.
Definition ex_Ls (l : nat) : list Z :=
  match l with
  | O => [136; 192; 248]
  | S O => [192]
  | _ => []
  end.

(** Two versions of one user key. *)
Definition ex_versions : list (Key * ValueStruct * (nat -> Z)) :=
  [(ukey "k" 3, payload "o", draws1); (ukey "k" 7, payload "n", draws1)].

Definition ex_v : skiplist := state_of (build 4096 ex_versions).
Definition ex_va : arena := arena_of ex_v.
Definition ex_vLs (l : nat) : list Z :=
  match l with
  | O => [192; 136]
  | _ => []
  end.

(** A put, then two puts through one hint: the first before the stored key,
    the second on the stored key. *)
Definition hinted_run : res (skiplist * option hint) :=
  let* s := newSkiplist 4096 in
  let* s := Put s (ukey "c" 1) (payload "1") draws1 in
  let* (s, h) := PutWithHint s (ukey "a" 1) (payload "2") (Some newHint) draws1 in
  PutWithHint s (ukey "c" 1) (payload "3") h draws1.

Definition hinted_s : skiplist :=
  state_of (let* (s, _) := hinted_run in Ok s).

(** A skiplist with "a"@1 and "k"@3, and the hint a lookup of "b"@1 leaves. *)
Definition lookup_s : skiplist :=
  state_of (build 4096 [(ukey "a" 1, payload "1", draws1); (ukey "k" 3, payload "o", draws1)]).

Definition lookup_hint : option hint :=
  match GetWithHint lookup_s (ukey "b" 1) (Some newHint) with
  | Ok (_, h) => h
  | Err _ => None
  end.

(** A put through a new hint on the three-key skiplist. *)
Definition hput : res (skiplist * option hint) :=
  PutWithHint ex_s (ukey "b" 1) (payload "4") (Some newHint) draws2.
Definition hput_s : skiplist := state_of (let* (s, _) := hput in Ok s).
Definition hput_h : option hint :=
  match hput with Ok (_, h) => h | Err _ => None end.

(** * The unidirectional iterator *)

(** A UniIterator wraps an Iterator and a direction. *)
Record UniIterator : Type := mkUniIterator { u_iter : Iterator; u_reversed : bool }.

Definition NewUniIterator (s : skiplist) (reversed : bool) : UniIterator :=
  mkUniIterator (NewIterator s) reversed.

Module Uni.

Definition Next (s : skiplist) (u : UniIterator) : res UniIterator :=
  if negb (u_reversed u)
  then let* it := Next s (u_iter u) in Ok (mkUniIterator it (u_reversed u))
  else let* it := Prev s (u_iter u) in Ok (mkUniIterator it (u_reversed u)).

Definition Rewind (s : skiplist) (u : UniIterator) : res UniIterator :=
  if negb (u_reversed u)
  then let* it := SeekToFirst s in Ok (mkUniIterator it (u_reversed u))
  else let* it := SeekToLast s in Ok (mkUniIterator it (u_reversed u)).

Definition Seek (s : skiplist) (u : UniIterator) (k : Key) : res UniIterator :=
  if negb (u_reversed u)
  then let* it := Seek s k in Ok (mkUniIterator it (u_reversed u))
  else let* it := SeekForPrev s k in Ok (mkUniIterator it (u_reversed u)).

Definition Key (s : skiplist) (u : UniIterator) : res Key := it_Key s (u_iter u).

Definition Value (s : skiplist) (u : UniIterator) : res ValueStruct :=
  it_Value s (u_iter u).

Definition Valid (u : UniIterator) : bool := Valid (u_iter u).

End Uni.

(** The loop [for it.Rewind(); it.Valid(); it.Next()] of a caller of the
    UniIterator, with the entries it reads through Key and Value. *)
Fixpoint scan_loop (fuel : nat) (s : skiplist) (u : UniIterator)
  : res (list (Key * ValueStruct)) :=
  match fuel with
  | O => Err OutOfFuel
  | S fuel' =>
      if Uni.Valid u then
        let* k := Uni.Key s u in
        let* v := Uni.Value s u in
        let* u' := Uni.Next s u in
        let* es := scan_loop fuel' s u' in
        Ok ((k, v) :: es)
      else Ok []
  end.

Definition scan (s : skiplist) (reversed : bool) : res (list (Key * ValueStruct)) :=
  let* u := Uni.Rewind s (NewUniIterator s reversed) in
  scan_loop (fuel_of s) s u.

(** The entry a node holds. *)
Definition entry (a : arena) (x : Z) : Key * ValueStruct := (nkey a x, nval a x).

(** The keys of a sequence of puts. *)
Definition keys_of (ops : list (Key * ValueStruct * (nat -> Z))) : list Key :=
  map (fun op => fst (fst op)) ops.

(** The loop of a caller that starts from [Seek] instead of [Rewind]. *)
Definition scan_from (s : skiplist) (reversed : bool) (k : Key)
  : res (list (Key * ValueStruct)) :=
  let* u := Uni.Seek s (NewUniIterator s reversed) k in
  scan_loop (fuel_of s) s u.

(** ** More concrete skiplists *)

(** The keys of [ex_ops] put in another order, with other values and
    heights, one of them twice. *)
Definition ex_ops2 : list (Key * ValueStruct * (nat -> Z)) :=
  [(ukey "e" 1, payload "7", draws2);
   (ukey "a" 1, payload "8", draws2);
   (ukey "c" 1, payload "9", draws1);
   (ukey "a" 1, payload "0", draws1)].

Definition ex_s2 : skiplist := state_of (build 8192 ex_ops2).

(** The three-key skiplist after one more put. *)
Definition ex_put (k : Key) (v : ValueStruct) (rnd : nat -> Z) : skiplist :=
  state_of (Put ex_s k v rnd).

(** A skiplist in an arena with room for one entry only. *)
Definition small_s : skiplist :=
  state_of (build 200 [(ukey "a" 1, payload "1", draws1)]).


(** * The structure of a skiplist, whatever its keys *)

(** [SInv s a Ls]: the skiplist [s] over arena [a] has, at every level [l],
    the chain [Ls l] from the head to nil; the nodes of a chain are
    distinct, and every node of a level is on the level below.  Nothing is
    said of the keys. *)
Record SInv (s : skiplist) (a : arena) (Ls : nat -> list Z) : Prop := mkSInv {
  sinv_arena : s_arena s = Some a;
  sinv_height : 1 <= s_height s <= maxHeight;
  sinv_head : tall a (Z.to_nat maxHeight - 1) (s_head s);
  sinv_chain : forall l, (l < Z.to_nat maxHeight)%nat -> linked a l (s_head s) (Ls l) 0;
  sinv_nodes : forall l x, (l < Z.to_nat maxHeight)%nat -> x ∈ Ls l -> x <> 0 /\ x <> s_head s;
  sinv_nodup : forall l, (l < Z.to_nat maxHeight)%nat -> NoDup (Ls l);
  sinv_nested : forall l x, (S l < Z.to_nat maxHeight)%nat -> x ∈ Ls (S l) -> x ∈ Ls l;
  sinv_alloc : allocated a
}.

(** At level [j] the hint holds the last node of [Pre] (the head when
    [Pre] is empty) and the first node of [Suf] (nil when it is empty),
    the chain of the level being [Pre ++ Suf]. *)
Definition hint_at (s : skiplist) (Ls : nat -> list Z) (h : hint) (j : nat)
    (Pre Suf : list Z) : Prop :=
  Ls j = Pre ++ Suf /\
  h_prev h !! j = Some (List.last Pre (s_head s)) /\
  h_next h !! j = Some (List.hd 0 Suf).

(** The chains [Ls] with the chain of level [i] replaced. *)
Definition set_level (Ls : nat -> list Z) (i : nat) (xs : list Z) : nat -> list Z :=
  fun l => if decide (l = i) then xs else Ls l.

(** * Properties *)

(** ** The order on keys *)


Lemma byte_to_N_inj (x y : byte) : Byte.to_N x = Byte.to_N y -> x = y.
Proof.
  intros E. pose proof (Byte.of_to_N x) as Hx. rewrite E, Byte.of_to_N in Hx.
  congruence.
Qed.

Lemma bytesCompare_range a b :
  bytesCompare a b = -1 \/ bytesCompare a b = 0 \/ bytesCompare a b = 1.
Proof.
  revert b; induction a as [|x a IH]; intros [|y b]; simpl; auto.
  destruct (N.compare_spec (Byte.to_N x) (Byte.to_N y)); auto.
Qed.

Lemma bytesCompare_refl a : bytesCompare a a = 0.
Proof. induction a as [|x a IH]; simpl; [done|]. by rewrite N.compare_refl. Qed.

Lemma bytesCompare_eq a b : bytesCompare a b = 0 -> a = b.
Proof.
  revert b; induction a as [|x a IH]; intros [|y b]; simpl; try done.
  destruct (N.compare_spec (Byte.to_N x) (Byte.to_N y)) as [E| |]; try done.
  intros H. f_equal; [by apply byte_to_N_inj | by apply IH].
Qed.

Lemma bytesCompare_antisym a b : bytesCompare b a = - bytesCompare a b.
Proof.
  revert b; induction a as [|x a IH]; intros [|y b]; simpl; try done.
  rewrite (N.compare_antisym (Byte.to_N x) (Byte.to_N y)).
  destruct (Byte.to_N x ?= Byte.to_N y)%N; simpl; auto.
Qed.

Lemma bytesCompare_trans a b c :
  bytesCompare a b < 0 -> bytesCompare b c <= 0 -> bytesCompare a c < 0.
Proof.
  revert b c; induction a as [|x a IH]; intros [|y b] [|z c]; simpl; try lia.
  destruct (N.compare_spec (Byte.to_N x) (Byte.to_N y)) as [E|L|G];
    destruct (N.compare_spec (Byte.to_N y) (Byte.to_N z)) as [E'|L'|G'];
    destruct (N.compare_spec (Byte.to_N x) (Byte.to_N z)) as [E''|L''|G''];
    try lia.
  apply IH.
Qed.

Lemma Compare_range k k2 : Compare k k2 = -1 \/ Compare k k2 = 0 \/ Compare k k2 = 1.
Proof.
  unfold Compare. pose proof (bytesCompare_range (UserKey k) (UserKey k2)).
  repeat case_match; lia.
Qed.

Lemma Compare_refl k : Compare k k = 0.
Proof.
  unfold Compare. rewrite bytesCompare_refl. simpl.
  repeat case_match; lia.
Qed.

Lemma Compare_eq k k2 : Compare k k2 = 0 -> k = k2.
Proof.
  unfold Compare. destruct k as [u v], k2 as [u2 v2]; simpl.
  destruct (Z.eqb_spec (bytesCompare u u2) 0) as [E|]; [|done].
  apply bytesCompare_eq in E. repeat case_match; try lia. intros _. f_equal; [done | lia].
Qed.

Lemma Compare_antisym k k2 : Compare k2 k = - Compare k k2.
Proof.
  unfold Compare. rewrite (bytesCompare_antisym (UserKey k) (UserKey k2)).
  repeat case_match; lia.
Qed.

Lemma Compare_trans k1 k2 k3 :
  Compare k1 k2 < 0 -> Compare k2 k3 <= 0 -> Compare k1 k3 < 0.
Proof.
  unfold Compare.
  pose proof (bytesCompare_trans (UserKey k1) (UserKey k2) (UserKey k3)) as T.
  pose proof (bytesCompare_antisym (UserKey k1) (UserKey k2)) as A12.
  pose proof (bytesCompare_antisym (UserKey k2) (UserKey k3)) as A23.
  pose proof (bytesCompare_antisym (UserKey k1) (UserKey k3)) as A13.
  pose proof (bytesCompare_trans (UserKey k3) (UserKey k1) (UserKey k2)) as T2.
  pose proof (bytesCompare_trans (UserKey k2) (UserKey k3) (UserKey k1)) as T3.
  pose proof (bytesCompare_range (UserKey k1) (UserKey k2)).
  pose proof (bytesCompare_range (UserKey k2) (UserKey k3)).
  pose proof (bytesCompare_range (UserKey k1) (UserKey k3)).
  repeat case_match; lia.
Qed.



Lemma klt_irrefl k : ~ klt k k.
Proof. unfold klt. rewrite Compare_refl. lia. Qed.

Lemma klt_trans a b c : klt a b -> klt b c -> klt a c.
Proof. unfold klt. intros. eapply Compare_trans; [done | lia]. Qed.

Lemma klt_gt a b : klt a b <-> Compare b a > 0.
Proof. unfold klt. rewrite (Compare_antisym a b). lia. Qed.

Lemma Compare_cases a b : klt a b \/ a = b \/ klt b a.
Proof.
  unfold klt. pose proof (Compare_range a b). rewrite (Compare_antisym a b).
  destruct (Z.eq_dec (Compare a b) 0) as [E|]; [apply Compare_eq in E; auto | lia].
Qed.

(** ** Reading nodes *)

Lemma bind_Ok {A B} (m : res A) (f : A -> res B) (b : B) :
  bind m f = Ok b -> exists x, m = Ok x /\ f x = Ok b.
Proof. destruct m; simpl; [eauto | done]. Qed.

Lemma next_node a l x y : next a l x = Some y -> exists nd, a_nodes a !! x = Some nd.
Proof. unfold next. destruct (a_nodes a !! x); [eauto | done]. Qed.

Lemma tall_node a l x : tall a l x -> exists nd, a_nodes a !! x = Some nd.
Proof. intros [y H]. by eapply next_node. Qed.

Lemma tall_le a l l' x : tall a l x -> (l' <= l)%nat -> tall a l' x.
Proof.
  unfold tall, next. destruct (a_nodes a !! x) as [nd|]; [|by intros []].
  intros [y H] Hl. apply lookup_lt_Some in H. apply lookup_lt_is_Some. lia.
Qed.

Lemma getNext_next s a l x y :
  s_arena s = Some a -> next a l x = Some y -> getNext s x (Z.of_nat l) = Ok y.
Proof.
  intros Ha Hn. unfold getNext, the_arena, deref, next in *. rewrite Ha. simpl.
  destruct (a_nodes a !! x) as [nd|]; [simpl | done].
  unfold getNextOffset, arr_get.
  destruct (Z.ltb_spec (Z.of_nat l) 0); [lia|].
  by rewrite Nat2Z.id, Hn.
Qed.

Lemma getNext_next0 s a x y :
  s_arena s = Some a -> next a 0 x = Some y -> getNext s x 0 = Ok y.
Proof. apply (getNext_next s a 0%nat). Qed.

Lemma key_nkey a x nd : a_nodes a !! x = Some nd -> key a x = Ok (nkey a x).
Proof. intros H. unfold key, deref, nkey. by rewrite H. Qed.

Lemma key_next a l x y : next a l x = Some y -> key a x = Ok (nkey a x).
Proof. intros H. apply next_node in H as [nd H]. by eapply key_nkey. Qed.

(** ** Chains *)

Lemma linked_first a l x xs e : linked a l x xs e -> next a l x = Some (List.hd e xs).
Proof. destruct xs; simpl; tauto. Qed.

Lemma linked_app a l x P q Q e :
  linked a l x (P ++ q :: Q) e <-> linked a l x P q /\ linked a l q Q e.
Proof.
  revert x. induction P as [|p P IH]; intros x; simpl; [tauto|].
  rewrite IH. tauto.
Qed.

Lemma linked_tall a l x xs e : linked a l x xs e -> Forall (tall a l) (x :: xs).
Proof.
  revert x. induction xs as [|y ys IH]; intros x; simpl.
  - intros H. repeat constructor. by exists e.
  - intros [H1 H2]. constructor; [by exists y | by apply IH].
Qed.

(** The successor of a node of a chain is the next node of the chain. *)
Lemma linked_in a l x xs e y :
  linked a l x xs e -> y ∈ xs ->
  exists P S, xs = P ++ y :: S /\ linked a l y S e.
Proof.
  intros Hl Hy. apply list_elem_of_split in Hy as (P & S & ->).
  exists P, S. split; [done|]. by apply linked_app in Hl as [_ ?].
Qed.

(** Chains are kept by changes that leave the slots of their nodes alone. *)
Lemma linked_frame a a' l x xs e :
  (forall y, y ∈ x :: xs -> next a' l y = next a l y) ->
  linked a l x xs e -> linked a' l x xs e.
Proof.
  revert x. induction xs as [|z zs IH]; intros x Hf; simpl.
  - intros H. rewrite Hf; [done | set_solver].
  - intros [H1 H2]. split; [rewrite Hf; [done | set_solver]|].
    apply IH; [|done]. intros y Hy. apply Hf. set_solver.
Qed.

(** ** Ascending lists *)

Lemma ascending_app a P Q :
  ascending a (P ++ Q) <->
  ascending a P /\ ascending a Q /\
  forall x y, x ∈ P -> y ∈ Q -> klt (nkey a x) (nkey a y).
Proof.
  unfold ascending. induction P as [|p P IH]; simpl.
  - split; [intros H; split_and!; [constructor | done | set_solver] | tauto].
  - split.
    + intros H. apply StronglySorted_inv in H as [H1 H2].
      apply IH in H1 as (HP & HQ & HPQ). apply Forall_app in H2 as [H2 H3].
      split_and!; [by constructor | done |].
      intros x y Hx Hy. apply elem_of_cons in Hx as [-> | Hx]; [|by apply HPQ].
      rewrite Forall_forall in H3. by apply H3.
    + intros (HP & HQ & HPQ). apply StronglySorted_inv in HP as [HP1 HP2].
      constructor.
      * apply IH. split_and!; [done | done |]. intros x y Hx Hy. apply HPQ; set_solver.
      * apply Forall_app. split; [done|]. apply Forall_forall. intros y Hy.
        apply HPQ; set_solver.
Qed.

Lemma ascending_cons a x xs :
  ascending a (x :: xs) <->
  ascending a xs /\ forall y, y ∈ xs -> klt (nkey a x) (nkey a y).
Proof.
  unfold ascending. split.
  - intros H. apply StronglySorted_inv in H as [H1 H2].
    split; [done|]. by rewrite Forall_forall in H2.
  - intros [H1 H2]. constructor; [done|]. by apply Forall_forall.
Qed.

Lemma ascending_NoDup a xs : ascending a xs -> NoDup xs.
Proof.
  induction xs as [|x xs IH]; [constructor|].
  rewrite ascending_cons. intros [H1 H2]. constructor; [|by apply IH].
  intros Hx. apply H2 in Hx. by apply klt_irrefl in Hx.
Qed.

Lemma ascending_filter a (R : Z -> Prop) `{!forall x, Decision (R x)} xs :
  ascending a xs -> ascending a (filter R xs).
Proof.
  induction xs as [|x xs IH]; [done|].
  rewrite ascending_cons. intros [H1 H2]. rewrite filter_cons.
  destruct (decide (R x)); [|by apply IH].
  apply ascending_cons. split; [by apply IH|].
  intros y Hy. apply list_elem_of_filter in Hy as [_ Hy]. by apply H2.
Qed.

(** Every ascending list splits at a key. *)
Lemma ascending_split a k L :
  ascending a L -> exists P Q, near_split a k L P Q.
Proof.
  induction L as [|x L IH]; intros HL.
  - exists [], []. by repeat split.
  - pose proof HL as HL'. apply ascending_cons in HL' as [HL1 HL2].
    destruct (decide (klt (nkey a x) k)) as [Hx|Hx].
    + destruct (IH HL1) as (P & Q & -> & HP & HQ).
      exists (x :: P), Q. repeat split; [by constructor | done].
    + exists [], (x :: L). repeat split; [constructor|].
      constructor; [done|]. apply Forall_forall. intros y Hy Hlt.
      apply Hx. eapply klt_trans; [|done]. by apply HL2.
Qed.

(** ** findSpliceForLevel *)

Lemma last_cons_shift {A} (x : A) (xs : list A) (d : A) :
  List.last (x :: xs) d = List.last xs x.
Proof.
  revert x d. induction xs as [|y ys IH]; intros x d; [done|].
  change (List.last (x :: y :: ys) d) with (List.last (y :: ys) d).
  rewrite (IH y d). by rewrite (IH y x).
Qed.

Lemma last_app_shift {A} (xs ys : list A) (d : A) :
  List.last (xs ++ ys) d = List.last ys (List.last xs d).
Proof.
  revert d. induction xs as [|x xs IH]; intros d; [done|].
  rewrite <- app_comm_cons, !last_cons_shift. apply IH.
Qed.

(** What the comparison of the source decides. *)
Lemma Compare_gt_klt k k' : (Compare k k' >? 0) = bool_decide (klt k' k).
Proof.
  pose proof (klt_gt k' k). destruct (Z.gtb_spec (Compare k k') 0);
    [rewrite bool_decide_eq_true_2 | rewrite bool_decide_eq_false_2]; try done;
    unfold klt in *; lia.
Qed.

Lemma Compare_le_nklt k k' : (Compare k k' <=? 0) = bool_decide (~ klt k' k).
Proof.
  pose proof (klt_gt k' k). destruct (Z.leb_spec (Compare k k') 0);
    [rewrite bool_decide_eq_true_2 | rewrite bool_decide_eq_false_2]; try done;
    unfold klt in *; lia.
Qed.

(** The walk of [findSpliceForLevel] along a chain [X ++ Y] whose nodes [X]
    have keys before [k] and whose node after them, if any, has not. *)
Lemma findSplice_loop_app s a k l X : forall fuel before Y,
  s_arena s = Some a ->
  linked a l before (X ++ Y) 0 ->
  Forall (fun y => y <> 0 /\ klt (nkey a y) k) X ->
  match Y with [] => True | q :: _ => q <> 0 /\ ~ klt (nkey a q) k end ->
  (length X < fuel)%nat ->
  findSpliceForLevel_loop fuel s k before (Z.of_nat l) =
    Ok (List.last X before, List.hd 0 Y,
        match Y with q :: _ => Compare k (nkey a q) =? 0 | [] => false end).
Proof.
  induction X as [|x X IH]; intros fuel before Y Ha Hl HX HY Hf.
  - destruct fuel as [|fuel]; [simpl in Hf; lia|]. simpl in Hl |- *.
    rewrite (getNext_next s a l before _ Ha (linked_first _ _ _ _ _ Hl)). simpl.
    destruct Y as [|q Y]; simpl; [done|].
    destruct HY as [Hq0 Hq]. destruct (Z.eqb_spec q 0); [done|].
    unfold the_arena. rewrite Ha. simpl.
    destruct Hl as [_ Hl]. apply linked_first in Hl.
    rewrite (key_next _ _ _ _ Hl). simpl.
    rewrite Compare_le_nklt, bool_decide_eq_true_2; done.
  - destruct fuel as [|fuel]; [simpl in Hf; lia|].
    apply Forall_cons in HX as [[Hx0 Hx] HX].
    simpl in Hl. destruct Hl as [Hn Hl]. rewrite last_cons_shift. simpl.
    rewrite (getNext_next s a l before _ Ha Hn). simpl.
    destruct (Z.eqb_spec x 0); [done|].
    unfold the_arena. rewrite Ha. simpl.
    rewrite (key_next _ _ _ _ (linked_first _ _ _ _ _ Hl)). simpl.
    rewrite Compare_le_nklt, bool_decide_eq_false_2; [|tauto].
    apply IH; try done. simpl in Hf. lia.
Qed.

(** ** Counting the nodes of a chain *)

Lemma length_le_size a (xs : list Z) :
  NoDup xs -> (forall x, x ∈ xs -> is_Some (a_nodes a !! x)) ->
  (length xs <= size (a_nodes a))%nat.
Proof.
  intros Hnd Hin. rewrite <- size_dom.
  rewrite <- (size_list_to_set (C := gset Z) xs Hnd).
  apply subseteq_size. intros x Hx. apply elem_of_list_to_set in Hx.
  apply elem_of_dom. by apply Hin.
Qed.

Lemma chain_length_le a l x xs e :
  linked a l x xs e -> ascending a xs -> (length xs <= size (a_nodes a))%nat.
Proof.
  intros Hl Ha. apply length_le_size; [by eapply ascending_NoDup|].
  intros y Hy. apply linked_tall in Hl. apply Forall_cons in Hl as [_ Hl].
  rewrite Forall_forall in Hl. destruct (tall_node _ _ _ (Hl y Hy)) as [nd ->]. by eexists.
Qed.

Lemma filter_length_lt {A} (R1 R2 : A -> Prop)
    `{!forall x, Decision (R1 x)} `{!forall x, Decision (R2 x)} (L : list A) (y : A) :
  (forall x, R2 x -> R1 x) -> y ∈ L -> R1 y -> ~ R2 y ->
  (length (filter R2 L) < length (filter R1 L))%nat.
Proof.
  intros Himp Hy H1 H2.
  assert (Hle : forall L', (length (filter R2 L') <= length (filter R1 L'))%nat).
  { induction L' as [|x L' IH]; [done|]. rewrite !filter_cons.
    destruct (decide (R2 x)) as [Hx|Hx].
    - rewrite decide_True by auto. simpl. lia.
    - destruct (decide (R1 x)); simpl; lia. }
  induction L as [|x L IH]; [by apply elem_of_nil in Hy|].
  rewrite !filter_cons. apply elem_of_cons in Hy as [<- | Hy].
  - rewrite decide_False, decide_True by done. simpl. specialize (Hle L). lia.
  - specialize (IH Hy). destruct (decide (R2 x)) as [Hx|Hx].
    + rewrite decide_True by auto. simpl. lia.
    + destruct (decide (R1 x)); simpl; lia.
Qed.

(** ** findNear on a well-formed skiplist *)

Section Search.

Context (s : skiplist) (a : arena) (Ls : nat -> list Z).
Hypothesis WF : wf s a Ls.

Local Abbreviation hd := (s_head s).
Local Abbreviation hgt := (Z.to_nat (s_height s)).
Local Abbreviation nodes_after := (nodes_after s a (Ls 0%nat)).

Lemma wf_hgt_pos : (0 < hgt)%nat.
Proof. pose proof (wf_height _ _ _ WF). lia. Qed.

Lemma wf_base l x : (l < hgt)%nat -> x ∈ Ls l -> x ∈ Ls 0.
Proof.
  induction l as [|l IH]; [done|]. intros Hl Hx.
  apply IH; [lia|]. by apply (wf_nested _ _ _ WF).
Qed.

Lemma wf_is_node l x : (l < hgt)%nat -> x ∈ Ls l -> exists nd, a_nodes a !! x = Some nd.
Proof.
  intros Hl Hx. pose proof (linked_tall _ _ _ _ _ (wf_chain _ _ _ WF l Hl)) as Ht.
  apply Forall_cons in Ht as [_ Ht]. rewrite Forall_forall in Ht.
  eapply tall_node, Ht, Hx.
Qed.

(** Where a search stands: at the head, or at a node of the level. *)
Lemma position l x :
  (l < hgt)%nat -> x = hd \/ x ∈ Ls l ->
  exists Pre S, Ls l = Pre ++ S /\ linked a l x S 0 /\
    (x = hd /\ Pre = [] \/ x <> hd /\ exists Pre', Pre = Pre' ++ [x]).
Proof.
  intros Hl [->|Hx].
  - exists [], (Ls l). split_and!; [done | by apply (wf_chain _ _ _ WF) | by left].
  - destruct (linked_in _ _ _ _ _ _ (wf_chain _ _ _ WF l Hl) Hx) as (P & S & E & HS).
    exists (P ++ [x]), S. split_and!; [by rewrite <- app_assoc | done |].
    right. split; [by apply (wf_nodes _ _ _ WF l x Hl) | by exists P].
Qed.

Lemma lower_all k Pre x :
  ascending a (Pre ++ [x]) -> klt (nkey a x) k ->
  Forall (fun y => klt (nkey a y) k) (Pre ++ [x]).
Proof.
  intros Hs Hx. apply ascending_app in Hs as (_ & _ & Hs).
  apply Forall_app. split; [|by repeat constructor].
  apply Forall_forall. intros y Hy. eapply klt_trans; [|done]. apply Hs; set_solver.
Qed.

Lemma upper_all k y S :
  ascending a (y :: S) -> ~ klt (nkey a y) k ->
  Forall (fun z => ~ klt (nkey a z) k) (y :: S).
Proof.
  intros Hs Hy. apply ascending_cons in Hs as [_ Hs].
  constructor; [done|]. apply Forall_forall. intros z Hz Hlt.
  apply Hy. eapply klt_trans; [|done]. by apply Hs.
Qed.

(** The split of the base chain seen from a position on it. *)
Lemma base_split k Pre S x :
  Ls 0 = Pre ++ S ->
  (x = hd /\ Pre = [] \/ x <> hd /\ exists Pre', Pre = Pre' ++ [x]) ->
  x = hd \/ klt (nkey a x) k ->
  match S with [] => True | y :: _ => ~ klt (nkey a y) k end ->
  near_split a k (Ls 0) Pre S /\ List.last Pre 0 = (if decide (x = hd) then 0 else x).
Proof.
  intros E Hpos Hx HS.
  pose proof (wf_sorted _ _ _ WF 0%nat wf_hgt_pos) as Hs. rewrite E in Hs.
  apply ascending_app in Hs as (HsP & HsS & _).
  assert (Forall (fun z => ~ klt (nkey a z) k) S) as HU.
  { destruct S as [|y S]; [constructor | by apply upper_all]. }
  destruct Hpos as [[-> ->] | [Hne [Pre' ->]]].
  - rewrite decide_True by done. by repeat split.
  - rewrite decide_False by done. destruct Hx as [?|Hx]; [done|].
    split; [|by rewrite last_app_shift].
    split_and!; [done | by apply lower_all | done].
Qed.

(** The split of the base chain at a node whose key is [k]. *)
Lemma exact_split k y :
  y ∈ Ls 0 -> Compare k (nkey a y) = 0 ->
  exists P Q, near_split a k (Ls 0) P (y :: Q) /\ linked a 0 y Q 0.
Proof.
  intros Hy Hk. apply Compare_eq in Hk.
  destruct (linked_in _ _ _ _ _ _ (wf_chain _ _ _ WF 0%nat wf_hgt_pos) Hy) as (P & Q & E & HQ).
  exists P, Q. split; [|done].
  pose proof (wf_sorted _ _ _ WF 0%nat wf_hgt_pos) as Hs. rewrite E in Hs.
  apply ascending_app in Hs as (_ & HsQ & HPQ).
  split_and!; [done | |].
  - apply Forall_forall. intros p Hp. rewrite Hk. apply HPQ; set_solver.
  - apply upper_all; [done|]. rewrite Hk. apply klt_irrefl.
Qed.

Lemma nodes_after_step x y l :
  (l < hgt)%nat -> x = hd \/ x ∈ Ls l -> y ∈ Ls l ->
  x = hd \/ klt (nkey a x) (nkey a y) ->
  (length (nodes_after y) < length (nodes_after x))%nat.
Proof.
  intros Hl Hx Hy Hxy. unfold nodes_after.
  apply (filter_length_lt _ _ _ y).
  - intros z [Hz|Hz]; [by destruct (wf_nodes _ _ _ WF l y Hl Hy)|].
    destruct Hxy as [?|Hxy]; [by left | right; by eapply klt_trans].
  - by eapply wf_base.
  - done.
  - intros [Hz|Hz]; [by destruct (wf_nodes _ _ _ WF l y Hl Hy) | by apply klt_irrefl in Hz].
Qed.


(** One lemma for all the ways the loop of [findNear] can go: from any
    position it reaches, with fuel for the nodes still ahead and the levels
    still below, it returns what the split of the base chain prescribes. *)
Lemma findNear_loop_spec k less allowEqual : forall fuel x l afterNode,
  (l < hgt)%nat ->
  x = hd \/ (x ∈ Ls l /\ klt (nkey a x) k) ->
  afterNode = 0 \/ klt k (nkey a afterNode) ->
  (length (nodes_after x) + l < fuel)%nat ->
  exists P Q, near_split a k (Ls 0%nat) P Q /\
    findNear_loop fuel s k less allowEqual x (Z.of_nat l) afterNode =
      Ok (near_result a k less allowEqual P Q).
Proof.
  pose proof (wf_arena _ _ _ WF) as Ha.
  induction fuel as [|fuel IH]; intros x l afterNode Hl Hx Haft Hf; [lia|].
  assert (Hx' : x = hd \/ x ∈ Ls l) by tauto.
  assert (Hxk : x = hd \/ klt (nkey a x) k) by tauto.
  destruct (position l x Hl Hx') as (Pre & S & E & HS & Hpos).
  assert (Hdown : forall l' aft, l = Datatypes.S l' -> aft = 0 \/ klt k (nkey a aft) ->
    exists P Q, near_split a k (Ls 0%nat) P Q /\
      findNear_loop fuel s k less allowEqual x (Z.of_nat l - 1) aft =
        Ok (near_result a k less allowEqual P Q)).
  { intros l' aft -> Haft'. replace (Z.of_nat (Datatypes.S l') - 1) with (Z.of_nat l') by lia.
    apply IH; [lia | | done | lia].
    destruct Hx as [?|[Hx ?]]; [by left | right]. split; [|done].
    by apply (wf_nested _ _ _ WF). }
  assert (Hstay : (x =? hd) = bool_decide (x = hd)).
  { destruct (Z.eqb_spec x hd); [by rewrite bool_decide_eq_true_2 | by rewrite bool_decide_eq_false_2]. }
  cbn [findNear_loop].
  rewrite (getNext_next s a l x _ Ha (linked_first _ _ _ _ _ HS)). cbn [bind].
  destruct S as [|y S]; cbn [List.hd].
  - (* the end of the level *)
    rewrite Z.eqb_refl.
    destruct l as [|l'].
    + destruct (base_split k Pre [] x E Hpos Hxk I) as [Hsp Hlast].
      exists Pre, []. split; [done|]. cbn. unfold near_result. rewrite Hlast, Hstay.
      destruct less; cbn; [|done]. case_decide; [by rewrite bool_decide_eq_true_2 | by rewrite bool_decide_eq_false_2].
    + replace (Z.of_nat (Datatypes.S l') >? 0) with true by (symmetry; apply Z.gtb_lt; lia).
      by eapply Hdown.
  - assert (Hy : y ∈ Ls l) by (rewrite E; set_solver).
    destruct (wf_nodes _ _ _ WF l y Hl Hy) as [Hy0 Hyh].
    destruct (wf_is_node l y Hl Hy) as [ynd Hynd].
    destruct (Z.eqb_spec y 0) as [?|_]; [done|].
    (* the comparison, skipped when the node was seen on the level above *)
    assert (Hcmp : exists c,
      (if y =? afterNode then Ok (-1)
       else (let* a0 := the_arena s in let* nextKey := key a0 y in Ok (Compare k nextKey))) = Ok c /\
      (c >? 0) = (Compare k (nkey a y) >? 0) /\ (c =? 0) = (Compare k (nkey a y) =? 0)).
    { destruct (Z.eqb_spec y afterNode) as [->|_].
      - exists (-1). destruct Haft as [?|Haft]; [done|]. unfold klt in Haft.
        split; [done|].
        split; [destruct (Z.gtb_spec (Compare k (nkey a afterNode)) 0); [lia | done]
               | destruct (Z.eqb_spec (Compare k (nkey a afterNode)) 0); [lia | done]].
      - exists (Compare k (nkey a y)). unfold the_arena. rewrite Ha. cbn.
        by rewrite (key_nkey _ _ _ Hynd). }
    destruct Hcmp as (c & Hc1 & Hc2 & Hc3). rewrite Hc1. cbn [bind]. rewrite Hc2, Hc3.
    clear c Hc1 Hc2 Hc3.
    assert (Hxy : x = hd \/ klt (nkey a x) (nkey a y)).
    { destruct Hpos as [[? _]|[_ [Pre' ->]]]; [by left | right].
      pose proof (wf_sorted _ _ _ WF l Hl) as Hs. rewrite E in Hs.
      apply ascending_app in Hs as (_ & _ & Hs). apply Hs; set_solver. }
    rewrite Compare_gt_klt. destruct (bool_decide_reflect (klt (nkey a y) k)) as [Hyk|Hyk].
    + (* move right *)
      apply IH; [done | by right | done |].
      pose proof (nodes_after_step x y l Hl Hx' Hy Hxy). lia.
    + destruct (Z.eqb_spec (Compare k (nkey a y)) 0) as [Hk0|Hk0].
      * (* the key is found *)
        destruct (exact_split k y (wf_base l y Hl Hy) Hk0) as (P & Q & Hsp & HQ).
        destruct allowEqual.
        { exists P, (y :: Q). split; [done|]. unfold near_result.
          by rewrite Hk0. }
        destruct less; cbn [negb].
        -- destruct l as [|l'].
           ++ destruct (base_split k Pre (y :: S) x E Hpos Hxk Hyk) as [Hsp' Hlast].
              exists Pre, (y :: S). split; [done|]. cbn. unfold near_result.
              rewrite Hk0, Hlast, Hstay. cbn.
              case_decide; [by rewrite bool_decide_eq_true_2 | by rewrite bool_decide_eq_false_2].
           ++ replace (Z.of_nat (Datatypes.S l') >? 0) with true by (symmetry; apply Z.gtb_lt; lia).
              by eapply Hdown.
        -- exists P, (y :: Q). split; [done|].
           rewrite (getNext_next0 s a y _ Ha (linked_first _ _ _ _ _ HQ)). cbn.
           unfold near_result. by rewrite Hk0.
      * (* the key lies before the next node *)
        assert (Hky : klt k (nkey a y)).
        { destruct (Compare_cases k (nkey a y)) as [?|[Heq|?]]; [done | | done].
          rewrite <- Heq, Compare_refl in Hk0. done. }
        destruct l as [|l'].
        -- destruct (base_split k Pre (y :: S) x E Hpos Hxk Hyk) as [Hsp' Hlast].
           exists Pre, (y :: S). split; [done|]. cbn. unfold near_result.
           apply Z.eqb_neq in Hk0. rewrite Hk0, Hlast, Hstay.
           destruct less; cbn; [|done].
           case_decide; [by rewrite bool_decide_eq_true_2 | by rewrite bool_decide_eq_false_2].
        -- replace (Z.of_nat (Datatypes.S l') >? 0) with true by (symmetry; apply Z.gtb_lt; lia).
           eapply Hdown; [done | by right].
Qed.

End Search.

(** ** The four queries of findNear *)

Lemma Compare_trans' k1 k2 k3 :
  Compare k1 k2 <= 0 -> Compare k2 k3 < 0 -> Compare k1 k3 < 0.
Proof.
  intros H1 H2. destruct (Z.eq_dec (Compare k1 k2) 0) as [E|E].
  - apply Compare_eq in E. by subst.
  - eapply Compare_trans; [|apply Z.lt_le_incl, H2]. lia.
Qed.

(** The signs of the comparisons with [k] along a split base chain. *)
Lemma near_split_signs a k L P Q :
  near_split a k L P Q -> ascending a L ->
  (forall p, p ∈ P -> Compare k (nkey a p) > 0) /\
  (forall y, y ∈ Q -> Compare k (nkey a y) <= 0) /\
  (forall q Q', Q = q :: Q' -> forall y, y ∈ Q' -> Compare k (nkey a y) < 0).
Proof.
  intros (-> & HP & HQ) Hs. rewrite Forall_forall in HP. rewrite Forall_forall in HQ.
  assert (HQ' : forall y, y ∈ Q -> Compare k (nkey a y) <= 0).
  { intros y Hy. specialize (HQ y Hy). rewrite klt_gt in HQ. lia. }
  split_and!; [| done |].
  - intros p Hp. apply klt_gt. by apply HP.
  - intros q Q' -> y Hy. apply ascending_app in Hs as (_ & Hs & _).
    apply ascending_cons in Hs as [_ Hs]. specialize (Hs y Hy).
    eapply Compare_trans'; [|exact Hs]. apply HQ'. set_solver.
Qed.

Lemma near_result_extremal a k less allowEqual L P Q :
  near_split a k L P Q -> ascending a L -> (forall y, y ∈ L -> y <> 0) ->
  extremal less (near_pred a k less allowEqual) L (near_result a k less allowEqual P Q).1 /\
  ((near_result a k less allowEqual P Q).2 = true <->
     (near_result a k less allowEqual P Q).1 <> 0 /\
     Compare k (nkey a (near_result a k less allowEqual P Q).1) = 0).
Proof.
  intros Hsp Hs Hnz. destruct (near_split_signs a k L P Q Hsp Hs) as (HP & HQ & HQ').
  destruct Hsp as (-> & _ & _).
  assert (HlastP : P = [] /\ List.last P 0 = 0 \/
                   exists P' p, P = P' ++ [p] /\ List.last P 0 = p /\ p <> 0 /\ Compare k (nkey a p) > 0).
  { destruct (decide (P = [])) as [->|Hne]; [by left | right].
    destruct (exists_last Hne) as (P' & p & ->).
    exists P', p. split_and!; [done | by rewrite last_app_shift | apply Hnz; set_solver
                              | apply HP; set_solver]. }
  assert (Hleft_none : forall R : Z -> Prop,
     (forall y, y ∈ P -> ~ R y) -> (forall y, y ∈ Q -> ~ R y) -> Forall (fun y => ~ R y) (P ++ Q)).
  { intros R H1 H2. apply Forall_app. split; by apply Forall_forall. }
  unfold near_result.
  destruct Q as [|q Q'].
  - (* no node at or after k *)
    rewrite app_nil_r in *.
    destruct less; cbn [fst snd].
    + destruct HlastP as [[-> ->] | (P' & p & -> & -> & Hp0 & Hp)].
      * split; [left; split; [done | constructor] | split; [done | tauto]].
      * split.
        -- right. split; [done|]. split; [destruct allowEqual; simpl; lia|].
           exists P', []. split; [done | constructor].
        -- split; [done|]. intros [_ ?]. lia.
    + split; [|split; [done | tauto]]. left. split; [done|].
      apply Forall_forall. intros y Hy. specialize (HP y Hy).
      destruct allowEqual; simpl; lia.
  - assert (Hq0 : q <> 0) by (apply Hnz; set_solver).
    assert (Hq : Compare k (nkey a q) <= 0) by (apply HQ; set_solver).
    specialize (HQ' q Q' eq_refl).
    destruct (Z.eqb_spec (Compare k (nkey a q)) 0) as [Hk0|Hk0].
    + (* the first node not before k holds k itself *)
      destruct allowEqual; cbn [fst snd].
      * split; [|tauto]. right. split; [done|]. split; [destruct less; simpl; lia|].
        exists P, Q'. split; [done|]. destruct less; apply Forall_forall; intros y Hy.
        -- specialize (HQ' y Hy). simpl. lia.
        -- specialize (HP y Hy). simpl. lia.
      * destruct less; cbn [fst snd].
        -- destruct HlastP as [[-> ->] | (P' & p & -> & -> & Hp0 & Hp)].
           ++ split; [|split; [done | tauto]]. left. split; [done|].
              apply Forall_forall. intros y Hy. simpl.
              specialize (HQ y). set_solver by lia.
           ++ split; [|split; [done | intros [_ ?]; lia]].
              right. split; [done|]. split; [simpl; lia|].
              exists P', (q :: Q'). split; [by rewrite <- app_assoc|].
              apply Forall_forall. intros y Hy. simpl. specialize (HQ y Hy). lia.
        -- destruct Q' as [|q' Q'']; cbn [List.hd].
           ++ split; [|split; [done | tauto]]. left. split; [done|].
              apply Hleft_none; intros y Hy; simpl.
              ** specialize (HP y Hy). lia.
              ** specialize (HQ y Hy). apply list_elem_of_singleton in Hy as ->. lia.
           ++ assert (Hq' : Compare k (nkey a q') < 0) by (apply HQ'; set_solver).
              split; [|split; [done | intros [_ ?]; lia]].
              right. split; [apply Hnz; set_solver|]. split; [done|].
              exists (P ++ [q]), Q''. split; [by rewrite <- app_assoc|].
              apply Forall_app. split; apply Forall_forall; intros y Hy; simpl.
              ** specialize (HP y Hy). lia.
              ** apply list_elem_of_singleton in Hy as ->. lia.
    + (* the first node not before k is after k *)
      assert (Hq' : Compare k (nkey a q) < 0) by lia.
      destruct less; cbn [fst snd].
      * destruct HlastP as [[-> ->] | (P' & p & -> & -> & Hp0 & Hp)].
        -- split; [|split; [done | tauto]]. left. split; [done|].
           apply Forall_forall. intros y Hy. cbn [app] in Hy.
           apply elem_of_cons in Hy as [-> | Hy]; [|specialize (HQ' y Hy)];
             destruct allowEqual; simpl; lia.
        -- split; [|split; [done | intros [_ ?]; lia]].
           right. split; [done|]. split; [destruct allowEqual; simpl; lia|].
           exists P', (q :: Q'). split; [by rewrite <- app_assoc|].
           apply Forall_forall. intros y Hy.
           apply elem_of_cons in Hy as [-> | Hy]; [|specialize (HQ' y Hy)];
             destruct allowEqual; simpl; lia.
      * split; [|split; [done | intros [_ ?]; lia]].
        right. split; [done|]. split; [destruct allowEqual; simpl; lia|].
        exists P, Q'. split; [done|]. apply Forall_forall. intros y Hy.
        specialize (HP y Hy). destruct allowEqual; simpl; lia.
Qed.

(** ** The searches from the head *)

Section SearchTop.

Context (s : skiplist) (a : arena) (Ls : nat -> list Z).
Hypothesis WF : wf s a Ls.

Local Abbreviation hd := (s_head s).
Local Abbreviation hgt := (Z.to_nat (s_height s)).

Lemma wf_fuel x : (length (nodes_after s a (Ls 0%nat) x) + (hgt - 1) < fuel_of s)%nat.
Proof.
  pose proof (wf_height _ _ _ WF) as Hh. unfold maxHeight in Hh.
  assert (0 < hgt)%nat as H0 by lia.
  pose proof (chain_length_le _ _ _ _ _ (wf_chain _ _ _ WF 0%nat H0) (wf_sorted _ _ _ WF 0%nat H0)).
  pose proof (length_filter (fun y => x = hd \/ klt (nkey a x) (nkey a y)) (Ls 0%nat)).
  unfold fuel_of, nodes_after. rewrite (wf_arena _ _ _ WF). unfold maxHeight. lia.
Qed.

Lemma top_level : getHeight s - 1 = Z.of_nat (hgt - 1).
Proof. pose proof (wf_height _ _ _ WF). unfold getHeight. lia. Qed.

Lemma findNear_split k less allowEqual :
  exists P Q, near_split a k (Ls 0%nat) P Q /\
    findNear s k less allowEqual = Ok (near_result a k less allowEqual P Q).
Proof.
  pose proof (wf_height _ _ _ WF).
  unfold findNear. rewrite top_level.
  apply (findNear_loop_spec s a Ls WF); [lia | by left | by left | apply wf_fuel].
Qed.

Lemma findLast_loop_spec : forall fuel n l,
  (l < hgt)%nat -> n = hd \/ n ∈ Ls l ->
  (length (nodes_after s a (Ls 0%nat) n) + l < fuel)%nat ->
  findLast_loop fuel s n (Z.of_nat l) = Ok (List.last (Ls 0%nat) 0).
Proof.
  pose proof (wf_arena _ _ _ WF) as Ha.
  induction fuel as [|fuel IH]; intros n l Hl Hn Hf; [lia|].
  destruct (position s a Ls WF l n Hl Hn) as (Pre & S & E & HS & Hpos).
  cbn [findLast_loop].
  rewrite (getNext_next s a l n _ Ha (linked_first _ _ _ _ _ HS)). cbn [bind].
  destruct S as [|y S]; cbn [List.hd].
  - rewrite Z.eqb_refl. cbn [negb].
    destruct l as [|l'].
    + change (Z.of_nat 0 =? 0) with true. cbv iota.
      rewrite app_nil_r in E. rewrite E.
      destruct Hpos as [[-> ->] | [Hne [Pre' ->]]].
      * by rewrite Z.eqb_refl.
      * apply Z.eqb_neq in Hne. by rewrite Hne, last_app_shift.
    + replace (Z.of_nat (Datatypes.S l') =? 0) with false by (symmetry; apply Z.eqb_neq; lia).
      replace (Z.of_nat (Datatypes.S l') - 1) with (Z.of_nat l') by lia.
      apply IH; [lia | | lia].
      destruct Hn as [?|Hn]; [by left | right]. by apply (wf_nested _ _ _ WF).
  - assert (Hy : y ∈ Ls l) by (rewrite E; set_solver).
    destruct (wf_nodes _ _ _ WF l y Hl Hy) as [Hy0 Hyh].
    apply Z.eqb_neq in Hy0. rewrite Hy0. cbn [negb].
    apply IH; [done | by right |].
    assert (Hxy : n = hd \/ klt (nkey a n) (nkey a y)).
    { destruct Hpos as [[? _]|[_ [Pre' ->]]]; [by left | right].
      pose proof (wf_sorted _ _ _ WF l Hl) as Hs. rewrite E in Hs.
      apply ascending_app in Hs as (_ & _ & Hs). apply Hs; set_solver. }
    pose proof (nodes_after_step s a Ls WF n y l Hl Hn Hy Hxy). lia.
Qed.

Lemma findLast_last : findLast s = Ok (List.last (Ls 0%nat) 0).
Proof.
  pose proof (wf_height _ _ _ WF).
  unfold findLast. rewrite top_level.
  apply findLast_loop_spec; [lia | by left | apply wf_fuel].
Qed.

Lemma wf_base_nonzero y : y ∈ Ls 0%nat -> y <> 0 /\ y <> hd.
Proof. pose proof (wf_height _ _ _ WF). apply (wf_nodes _ _ _ WF). lia. Qed.

Lemma wf_base_sorted : ascending a (Ls 0%nat).
Proof. pose proof (wf_height _ _ _ WF). apply (wf_sorted _ _ _ WF). lia. Qed.

End SearchTop.

(** ** The arena operations *)

Lemma bump_Ok a l n : bump a l = Ok n <-> n = a_n a + l /\ a_n a + l <= a_cap a.
Proof.
  unfold bump. destruct (Z.leb_spec (a_n a + l) (a_cap a)); split;
    try (intros [= <-]; split; [done | lia]); try done; intros [-> ?]; [done | lia].
Qed.

Lemma putVal_Ok a v m a' :
  putVal a v = Ok (m, a') <->
  a_n a + EncodedSize v <= a_cap a /\ m = a_n a /\
  a' = mkArena (a_n a + EncodedSize v) (a_cap a) (a_nodes a) (a_keys a) (<[a_n a := v]> (a_vals a)).
Proof.
  unfold putVal. destruct (bump a (EncodedSize v)) as [n|e] eqn:Hb; cbn [bind].
  - apply bump_Ok in Hb as [-> Hle]. replace (a_n a + EncodedSize v - EncodedSize v) with (a_n a) by lia.
    split; [intros [= <- <-]; done | intros (_ & -> & ->); done].
  - split; [done|]. intros (Hle & _). assert (bump a (EncodedSize v) = Ok (a_n a + EncodedSize v)) as Hb'
      by (by apply bump_Ok). congruence.
Qed.

Lemma putKey_Ok a k m a' :
  putKey a k = Ok (m, a') <->
  a_n a + (Z.of_nat (length (UserKey k)) + 8) <= a_cap a /\ m = a_n a /\
  a' = mkArena (a_n a + (Z.of_nat (length (UserKey k)) + 8)) (a_cap a)
               (a_nodes a) (<[a_n a := k]> (a_keys a)) (a_vals a).
Proof.
  unfold putKey. set (l := Z.of_nat (length (UserKey k)) + 8).
  destruct (bump a l) as [n|e] eqn:Hb; cbn [bind].
  - apply bump_Ok in Hb as [-> Hle]. replace (a_n a + l - l) with (a_n a) by lia.
    split; [intros [= <- <-]; done | intros (_ & -> & ->); done].
  - split; [done|]. intros (Hle & _). assert (bump a l = Ok (a_n a + l)) as Hb'
      by (by apply bump_Ok). congruence.
Qed.

Lemma putNode_Ok a height m a' :
  putNode a height = Ok (m, a') ->
  a_n a + nodeSize height <= a_cap a /\
  a_n a <= m /\ m + (nodeSize height - nodeAlign) <= a_n a' /\
  a' = mkArena (a_n a + nodeSize height) (a_cap a)
               (<[m := zeroNode height]> (a_nodes a)) (a_keys a) (a_vals a).
Proof.
  unfold putNode. fold (nodeSize height).
  destruct (bump a (nodeSize height)) as [n|e] eqn:Hb; cbn [bind]; [|done].
  apply bump_Ok in Hb as [-> Hle]. intros [= <- <-]. cbn [a_n].
  replace (a_n a + nodeSize height - nodeSize height + nodeAlign) with (a_n a + 7)
    by (unfold nodeAlign; lia).
  unfold nodeAlign. change (7 + 1) with 8.
  pose proof (Z.div_mod (a_n a + 7) 8 ltac:(lia)).
  pose proof (Z.mod_pos_bound (a_n a + 7) 8 ltac:(lia)).
  split_and!; [done | lia | lia | done].
Qed.

(** The value word keeps the offset it was made of. *)
Lemma decode_encode off size :
  0 <= off < 2 ^ 32 -> 0 <= size -> fst (decodeValue (encodeValue off size)) = off.
Proof.
  intros Hoff Hsize. unfold decodeValue, encodeValue. cbn [fst].
  change (2 ^ 32) with (2 ^ 32) in *.
  rewrite <- (Z.land_ones _ 32) by lia.
  rewrite Z.land_lor_distr_l.
  rewrite (Z.land_ones (Z.shiftl size 32)) by lia.
  rewrite Z.shiftl_mul_pow2 by lia. rewrite Z.mod_mul by lia.
  rewrite Z.lor_0_l. rewrite Z.land_ones by lia. apply Z.mod_small. lia.
Qed.

(** ** Changes that keep what a node holds *)

Lemma same_fields_refl n : same_fields n n.
Proof. by repeat split. Qed.

Lemma relinked_refl a : relinked a a.
Proof.
  repeat split. intros y. destruct (a_nodes a !! y); constructor. apply same_fields_refl.
Qed.

Lemma relinked_trans a1 a2 a3 : relinked a1 a2 -> relinked a2 a3 -> relinked a1 a3.
Proof.
  intros (E1 & E2 & E3 & E4 & H) (E1' & E2' & E3' & E4' & H').
  split_and!; try congruence. intros y. specialize (H y). specialize (H' y).
  destruct H as [n1 n2 H|]; inversion H' as [n2' n3 H'' Hx Hy|]; subst; constructor.
  destruct H as (?&?&?&?&?), H'' as (?&?&?&?&?). repeat split; congruence.
Qed.

Lemma relinked_nkey a a' y : relinked a a' -> nkey a' y = nkey a y.
Proof.
  intros (_ & _ & Ek & _ & H). unfold nkey, getKey. specialize (H y).
  destruct H as [n n' (_&E&E2&_)|]; [|done]. by rewrite Ek, E, E2.
Qed.

Lemma relinked_nval a a' y : relinked a a' -> nval a' y = nval a y.
Proof.
  intros (_ & _ & _ & Ev & H). unfold nval, getVal, getValueOffset. specialize (H y).
  destruct H as [n n' (E&_)|]; [|done]. by rewrite Ev, E.
Qed.

Lemma relinked_tall a a' l y : relinked a a' -> tall a' l y <-> tall a l y.
Proof.
  intros (_ & _ & _ & _ & H). unfold tall, next. specialize (H y).
  destruct H as [n n' (_&_&_&_&E)|]; [|done].
  rewrite !lookup_lt_is_Some. by rewrite E.
Qed.

Lemma relinked_allocated a a' : relinked a a' -> allocated a -> allocated a'.
Proof.
  intros (En & Ec & _ & _ & H) (H1 & H2 & H3). split_and!; [lia | lia |].
  intros y nd' Hy. specialize (H y). rewrite Hy in H.
  inversion H as [n n' (Ev&Ek&_) Hn|]; subst. symmetry in Hn.
  destruct (H3 y n Hn) as (?&?&?). unfold getValueOffset in *. rewrite <- En, <- Ek, <- Ev. done.
Qed.

Lemma relinked_filter a a' l (xs : list Z) :
  relinked a a' -> filter (tall a' l) xs = filter (tall a l) xs.
Proof. intros H. apply list_filter_iff. intros y. by apply relinked_tall. Qed.

(** *** Writing a tower slot *)

Lemma setTower_Ok a x l v :
  tall a l x -> exists a', setTower a x (Z.of_nat l) v = Ok a'.
Proof.
  unfold tall, next, setTower, deref. destruct (a_nodes a !! x) as [nd|]; [|by intros []].
  intros Hl%lookup_lt_is_Some. cbn [bind]. unfold arr_set.
  destruct (Z.leb_spec 0 (Z.of_nat l)); [|lia].
  destruct (Z.ltb_spec (Z.of_nat l) (Z.of_nat (length (n_tower nd)))); [|lia].
  cbn. eauto.
Qed.

Lemma setTower_spec a x l v a' :
  setTower a x (Z.of_nat l) v = Ok a' ->
  relinked a a' /\ next a' l x = Some v /\
  (forall l' y, y <> x \/ l' <> l -> next a' l' y = next a l' y).
Proof.
  unfold setTower, deref. destruct (a_nodes a !! x) as [nd|] eqn:Hx; [|done]. cbn [bind].
  unfold arr_set.
  destruct (Z.leb_spec 0 (Z.of_nat l)); [|done].
  destruct (Z.ltb_spec (Z.of_nat l) (Z.of_nat (length (n_tower nd)))); [|done].
  cbn. intros [= <-]. rewrite Nat2Z.id. split_and!.
  - repeat split. intros y. cbn. destruct (decide (x = y)) as [<-|Hne].
    + rewrite lookup_insert_eq, Hx. constructor. repeat split. cbn. by rewrite length_insert.
    + rewrite lookup_insert_ne by done. destruct (a_nodes a !! y); constructor. apply same_fields_refl.
  - unfold next. cbn. rewrite lookup_insert_eq. cbn. apply list_lookup_insert_eq. lia.
  - intros l' y Hne. unfold next. cbn. destruct (decide (x = y)) as [<-|Hxy].
    + rewrite lookup_insert_eq, Hx. cbn. apply list_lookup_insert_ne. naive_solver.
    + by rewrite lookup_insert_ne.
Qed.

Lemma casNextOffset_swap a p l old val :
  next a l p = Some old ->
  exists a', casNextOffset a p (Z.of_nat l) old val = Ok (true, a') /\
             setTower a p (Z.of_nat l) val = Ok a'.
Proof.
  intros Hn. destruct (setTower_Ok a p l val) as [a' Ha']; [by eexists|].
  exists a'. split; [|done]. unfold casNextOffset, deref, next in *.
  destruct (a_nodes a !! p) as [nd|]; [|done]. cbn [bind].
  unfold getNextOffset, arr_get. destruct (Z.ltb_spec (Z.of_nat l) 0); [lia|].
  rewrite Nat2Z.id, Hn. cbn [bind]. rewrite Z.eqb_refl. unfold deref in Ha'.
  by rewrite Ha'.
Qed.

(** *** Chains under a change of slots *)

Lemma linked_app_hd a l x P Q e :
  linked a l x (P ++ Q) e ->
  linked a l x P (List.hd e Q) /\
  match Q with [] => True | q :: Q' => linked a l q Q' e end.
Proof.
  destruct Q as [|q Q]; [rewrite app_nil_r; tauto|]. by rewrite linked_app.
Qed.

Lemma linked_last a l x P e : linked a l x P e -> next a l (List.last P x) = Some e.
Proof.
  revert x. induction P as [|p P IH]; intros x; [done|].
  intros [_ H]. rewrite last_cons_shift. by apply IH.
Qed.

(** The last node of a chain takes a new successor. *)
Lemma linked_set_last a a' l x P e e' :
  linked a l x P e -> NoDup (x :: P) ->
  next a' l (List.last P x) = Some e' ->
  (forall y, y ∈ x :: P -> y <> List.last P x -> next a' l y = next a l y) ->
  linked a' l x P e'.
Proof.
  revert x. induction P as [|p P IH]; intros x Hl Hnd Hlast Hf; [done|].
  destruct Hl as [Hx Hl]. rewrite last_cons_shift in Hlast, Hf.
  apply NoDup_cons in Hnd as [Hxn Hnd].
  split.
  - rewrite Hf; [done | set_solver |]. intros ->. apply Hxn.
    clear. revert p. induction P as [|q P IH]; intros p; [set_solver|].
    rewrite last_cons_shift. specialize (IH q). set_solver.
  - apply IH; [done | done | done |]. intros y Hy. apply Hf. set_solver.
Qed.

Lemma linked_from_hd a l x Q e :
  next a l x = Some (List.hd e Q) ->
  match Q with [] => True | q :: Q' => linked a l q Q' e end ->
  linked a l x Q e.
Proof. destruct Q; simpl; tauto. Qed.

Lemma last_in {A} (P : list A) (x : A) : List.last P x = x \/ List.last P x ∈ P.
Proof.
  revert x. induction P as [|p P IH]; intros x; [by left | right].
  rewrite last_cons_shift. destruct (IH p) as [->|?]; set_solver.
Qed.

(** ** Keeping the invariant *)

Lemma filter_ext_in {A} (R1 R2 : A -> Prop)
    `{!forall x, Decision (R1 x)} `{!forall x, Decision (R2 x)} (L : list A) :
  (forall x, x ∈ L -> R1 x <-> R2 x) -> filter R1 L = filter R2 L.
Proof.
  induction L as [|x L IH]; intros Hext; [done|]. rewrite !filter_cons.
  rewrite IH by (intros; apply Hext; set_solver).
  destruct (decide (R1 x)) as [H1|H1].
  - rewrite decide_True; [done|]. apply Hext; [set_solver | done].
  - rewrite decide_False; [done|]. intros H2. apply H1, Hext; [set_solver | done].
Qed.

Lemma ascending_ext a a' L :
  (forall y, y ∈ L -> nkey a' y = nkey a y) -> ascending a L -> ascending a' L.
Proof.
  induction L as [|x L IH]; intros H; [constructor|].
  rewrite !ascending_cons. intros [H1 H2]. split.
  - apply IH; [|done]. intros; apply H; set_solver.
  - intros y Hy. rewrite !H by set_solver. by apply H2.
Qed.

(** The invariant depends on the arena through the slots and keys of the
    head and of the nodes of the list, and through the cursor. *)
Lemma Inv_transfer s a L s' a' :
  Inv s a L ->
  s_arena s' = Some a' -> s_head s' = s_head s -> s_height s' = s_height s ->
  (forall l y, y ∈ s_head s :: L -> next a' l y = next a l y) ->
  (forall y, y ∈ L -> nkey a' y = nkey a y) ->
  allocated a' ->
  Inv s' a' L.
Proof.
  intros [Ha Hh [Hhd HhdL] Hch Hs Ht Hal] Ha' Ehd Eh Hn Hk Hal'.
  assert (Htall : forall l y, y ∈ s_head s :: L -> tall a' l y <-> tall a l y).
  { intros l y Hy. unfold tall. by rewrite Hn. }
  split; rewrite ?Ehd, ?Eh; try done.
  - split; [|done]. apply Htall; [set_solver | done].
  - intros l Hl. rewrite (filter_ext_in (tall a' l) (tall a l)).
    + eapply linked_frame; [|by apply Hch]. intros y Hy. apply Hn.
      apply elem_of_cons in Hy as [->|Hy]; [set_solver|].
      apply list_elem_of_filter in Hy. set_solver.
    + intros y Hy. apply Htall. set_solver.
  - by eapply ascending_ext.
  - intros x Hx. rewrite !Htall by set_solver. by apply Ht.
Qed.

Lemma EncodedSize_pos v : 0 < EncodedSize v.
Proof. unfold EncodedSize, valueHeaderSize. lia. Qed.

(** *** Overwriting a value *)

Lemma setValue_spec a e v a' :
  setValue a e v = Ok a' -> allocated a ->
  (forall l y, next a' l y = next a l y) /\
  (forall y, nkey a' y = nkey a y) /\
  nval a' e = v /\
  (forall y, y <> e -> nval a' y = nval a y) /\
  (forall y, is_Some (a_nodes a' !! y) <-> is_Some (a_nodes a !! y)) /\
  allocated a'.
Proof.
  unfold setValue. destruct (putVal a v) as [[m a1]|] eqn:Hp; [|done]. cbn [bind].
  apply putVal_Ok in Hp as (Hroom & -> & ->).
  unfold deref. cbn [a_nodes]. destruct (a_nodes a !! e) as [nd|] eqn:He; [|done].
  cbn [bind]. intros [= <-] (Hn1 & Hcap & Hal).
  pose proof (EncodedSize_pos v) as Hsz.
  assert (Hdec : fst (decodeValue (encodeValue (a_n a) (EncodedSize v))) = a_n a).
  { apply decode_encode; [unfold MaxUint32 in Hcap|]; lia. }
  split_and!.
  - intros l y. unfold next. cbn. destruct (decide (e = y)) as [<-|Hne].
    + by rewrite lookup_insert_eq, He.
    + by rewrite lookup_insert_ne.
  - intros y. unfold nkey, getKey. cbn. destruct (decide (e = y)) as [<-|Hne].
    + by rewrite lookup_insert_eq, He.
    + by rewrite lookup_insert_ne.
  - unfold nval, set_nodes. cbn [a_nodes]. rewrite lookup_insert_eq.
    unfold getValueOffset. cbn [n_value]. rewrite Hdec.
    unfold getVal. cbn [a_vals]. by rewrite lookup_insert_eq.
  - intros y Hne. unfold nval, set_nodes. cbn [a_nodes]. rewrite lookup_insert_ne by done.
    destruct (a_nodes a !! y) as [ynd|] eqn:Hy; [|done].
    unfold getVal. cbn [a_vals].
    destruct (Hal y ynd Hy) as (_ & _ & Hv). rewrite lookup_insert_ne; [done | lia].
  - intros y. cbn. destruct (decide (e = y)) as [<-|Hne].
    + rewrite lookup_insert_eq, He. split; eauto.
    + by rewrite lookup_insert_ne.
  - unfold set_nodes. split_and!; cbn [a_n a_cap a_nodes]; [lia | lia |]. intros y nd' Hy.
    destruct (decide (e = y)) as [<-|Hne].
    + rewrite lookup_insert_eq in Hy. injection Hy as <-. cbn [n_keyOffset].
      destruct (Hal e nd He) as (? & ? & ?). unfold getValueOffset. cbn [n_value].
      rewrite Hdec. lia.
    + rewrite lookup_insert_ne in Hy by done. destruct (Hal y nd' Hy) as (? & ? & ?). lia.
Qed.

(** *** Allocating a node *)

Lemma newNode_spec a k v H x a1 :
  newNode a k v H = Ok (x, a1) -> allocated a -> 1 <= H <= maxHeight ->
  a_nodes a !! x = None /\ 0 < x /\
  (forall l y, y <> x -> next a1 l y = next a l y) /\
  (forall l, next a1 l x = if decide (l < Z.to_nat H)%nat then Some 0 else None) /\
  (forall y, y <> x -> nkey a1 y = nkey a y /\ nval a1 y = nval a y) /\
  (keySizeFits k -> nkey a1 x = k) /\ nval a1 x = v /\ allocated a1.
Proof.
  unfold newNode. destruct (putNode a H) as [[m a']|] eqn:Hp; [|done]. cbn [bind].
  apply putNode_Ok in Hp as (Hroom1 & Hm1 & Hm2 & ->). cbn [a_n] in Hm2.
  unfold getNode, deref. cbn [a_nodes]. rewrite lookup_insert_eq. cbn [bind].
  destruct (putKey _ k) as [[ko a'']|] eqn:Hk; [|done]. cbn [bind].
  apply putKey_Ok in Hk as (Hroom2 & -> & ->). cbn [a_n a_cap a_nodes a_keys a_vals] in *.
  destruct (putVal _ v) as [[vo a''']|] eqn:Hv; [|done]. cbn [bind].
  apply putVal_Ok in Hv as (Hroom3 & -> & ->). cbn [a_n a_cap a_nodes a_keys a_vals] in *.
  intros [= <- <-] (Hn1 & Hcap & Hal) HH.
  pose proof (EncodedSize_pos v) as Hsz.
  assert (Hns : 20 + nodeAlign <= nodeSize H).
  { unfold nodeSize, MaxNodeSize, maxHeight in *. lia. }
  unfold nodeAlign in *.
  set (n1 := a_n a + nodeSize H) in *.
  set (n2 := n1 + (Z.of_nat (length (UserKey k)) + 8)) in *.
  assert (Hdec : fst (decodeValue (encodeValue n2 (EncodedSize v))) = n2).
  { apply decode_encode; [unfold MaxUint32 in Hcap|]; lia. }
  assert (Hfresh : a_nodes a !! m = None).
  { destruct (a_nodes a !! m) as [nd|] eqn:E; [|done]. destruct (Hal m nd E). lia. }
  split_and!; [done | lia | | | | | |].
  - intros l y Hne. unfold next, set_nodes. cbn.
    by rewrite !lookup_insert_ne.
  - intros l. unfold next, set_nodes. cbn. rewrite lookup_insert_eq. cbn.
    case_decide as Hl.
    + by apply lookup_replicate_2.
    + apply lookup_ge_None. rewrite length_replicate. lia.
  - intros y Hne. unfold nkey, nval, set_nodes. cbn [a_nodes].
    rewrite !lookup_insert_ne by done.
    destruct (a_nodes a !! y) as [nd|] eqn:E; [|done].
    unfold getKey, getVal. cbn [a_keys a_vals].
    destruct (Hal y nd E) as (? & ? & ?).
    rewrite !lookup_insert_ne; [done | lia | lia].
  - intros Hfit. unfold keySizeFits in Hfit.
    unfold nkey, getKey, set_nodes. cbn. rewrite !lookup_insert_eq. cbn.
    rewrite Z.mod_small by lia. by rewrite Z.eqb_refl.
  - unfold nval, set_nodes. cbn [a_nodes]. rewrite lookup_insert_eq.
    unfold getValueOffset. cbn [n_value]. rewrite Hdec.
    unfold getVal. cbn [a_vals]. by rewrite lookup_insert_eq.
  - unfold set_nodes. split_and!; cbn [a_n a_cap a_nodes]; [lia | lia |]. intros y nd' Hy.
    destruct (decide (m = y)) as [<-|Hne].
    + rewrite lookup_insert_eq in Hy. injection Hy as <-. cbn [n_keyOffset].
      unfold getValueOffset. cbn [n_value]. rewrite Hdec. lia.
    + rewrite !lookup_insert_ne in Hy by done. destruct (Hal y nd' Hy) as (? & ? & ?). lia.
Qed.

(** ** The search of a put *)

Lemma arr_get_Ok (l : list Z) i v : l !! i = Some v -> arr_get l (Z.of_nat i) = Ok v.
Proof.
  intros H. unfold arr_get. destruct (Z.ltb_spec (Z.of_nat i) 0); [lia|].
  by rewrite Nat2Z.id, H.
Qed.

Lemma arr_set_Ok (l : list Z) i v :
  (i < length l)%nat -> arr_set l (Z.of_nat i) v = Ok (<[i := v]> l).
Proof.
  intros H. unfold arr_set.
  destruct (Z.leb_spec 0 (Z.of_nat i)); [|lia].
  destruct (Z.ltb_spec (Z.of_nat i) (Z.of_nat (length l))); [|lia].
  cbn. by rewrite Nat2Z.id.
Qed.

Lemma copyDown_Ok i : forall h,
  length (h_prev h) = 21%nat -> length (h_next h) = 21%nat -> (i <= 20)%nat ->
  exists h', copyDown i h = Ok h'.
Proof.
  induction i as [|i IH]; intros h Hp Hn Hi; [by eexists|].
  cbn [copyDown].
  destruct (lookup_lt_is_Some_2 (h_prev h) (S i)) as [p Hp']; [lia|].
  destruct (lookup_lt_is_Some_2 (h_next h) (S i)) as [n Hn']; [lia|].
  rewrite (arr_get_Ok _ _ _ Hp'). cbn [bind].
  rewrite arr_set_Ok by lia. cbn [bind].
  rewrite (arr_get_Ok _ _ _ Hn'). cbn [bind].
  rewrite arr_set_Ok by lia. cbn [bind].
  apply IH; cbn; rewrite ?length_insert; lia.
Qed.

Section PutSearch.

Context (s : skiplist) (a : arena) (k : Key) (A B : list Z).
Hypothesis INV : Inv s a (A ++ B).
Hypothesis SPLIT : near_split a k (A ++ B) A B.

Lemma Inv_nonzero y : y ∈ A ++ B -> y <> 0 /\ y <> s_head s.
Proof.
  intros Hy. split.
  - destruct (inv_tall _ _ _ INV y Hy) as [Ht _]. apply tall_node in Ht as [nd Hnd].
    destruct (inv_alloc _ _ _ INV) as (_ & _ & Hal). destruct (Hal y nd Hnd). lia.
  - intros ->. by destruct (inv_head _ _ _ INV).
Qed.

Lemma Inv_length : (length (A ++ B) <= size (a_nodes a))%nat.
Proof.
  apply length_le_size; [eapply ascending_NoDup, (inv_sorted _ _ _ INV)|].
  intros y Hy. destruct (inv_tall _ _ _ INV y Hy) as [Ht _].
  apply tall_node in Ht as [nd ->]. by eexists.
Qed.

Lemma fuel_of_Inv : (length (A ++ B) < fuel_of s)%nat.
Proof.
  pose proof Inv_length. unfold fuel_of. rewrite (inv_arena _ _ _ INV). lia.
Qed.

(** The search at level [i], started from the splice of the level above. *)
Lemma splice_step i :
  (i < Z.to_nat maxHeight)%nat ->
  findSpliceForLevel s k (splice_prev s a A (S i)) (Z.of_nat i) =
    Ok (splice_prev s a A i, splice_next a B i,
        match filter (tall a i) B with
        | q :: _ => Compare k (nkey a q) =? 0
        | [] => false
        end).
Proof.
  intros Hi. pose proof (inv_chain _ _ _ INV i Hi) as Hch. rewrite filter_app in Hch.
  destruct SPLIT as (_ & HA & HB). rewrite Forall_forall in HA. rewrite Forall_forall in HB.
  pose proof (length_filter (tall a i) A) as HlenA.
  pose proof fuel_of_Inv as Hfuel. rewrite length_app in Hfuel.
  assert (HY : match filter (tall a i) B with
               | [] => True | q :: _ => q <> 0 /\ ~ klt (nkey a q) k end).
  { destruct (filter (tall a i) B) as [|q Q] eqn:E; [done|].
    assert (q ∈ B) as Hq.
    { assert (q ∈ filter (tall a i) B) as Hq by (rewrite E; set_solver).
      apply list_elem_of_filter in Hq. tauto. }
    split; [apply Inv_nonzero; set_solver | by apply HB]. }
  assert (HX : forall X, X ⊆ filter (tall a i) A ->
               Forall (fun y => y <> 0 /\ klt (nkey a y) k) X).
  { intros X HXs. apply Forall_forall. intros y Hy. apply HXs in Hy.
    apply list_elem_of_filter in Hy as [_ Hy]. split; [apply Inv_nonzero; set_solver | by apply HA]. }
  unfold findSpliceForLevel, splice_prev at 1.
  destruct (last_in (filter (tall a (S i)) A) (s_head s)) as [E|Hin].
  - rewrite E.
    rewrite (findSplice_loop_app s a k i (filter (tall a i) A) _ _ (filter (tall a i) B));
      [done | apply (inv_arena _ _ _ INV) | done | by apply HX | done | lia].
  - set (y := List.last (filter (tall a (S i)) A) (s_head s)) in *.
    assert (y ∈ filter (tall a i) A) as Hy.
    { apply list_elem_of_filter in Hin as [Ht Hin]. apply list_elem_of_filter.
      split; [eapply tall_le; [done | lia] | done]. }
    apply list_elem_of_split in Hy as (X1 & X2 & E).
    rewrite E, <- app_assoc, <- app_comm_cons in Hch. apply linked_app in Hch as [_ Hch].
    assert (length X2 <= length (filter (tall a i) A))%nat.
    { rewrite E, length_app. simpl. lia. }
    rewrite (findSplice_loop_app s a k i X2 _ _ (filter (tall a i) B));
      [| apply (inv_arena _ _ _ INV) | done | apply HX; rewrite E; set_solver | done | lia].
    unfold splice_prev, splice_next. by rewrite E, last_app_shift, last_cons_shift.
Qed.

(** One turn of the loop brings the hint down one level. *)
Lemma hint_step h i hi :
  hint_ok s a A B h (S i) hi -> (i < hi)%nat ->
  arr_get (h_prev h) (Z.of_nat i + 1) = Ok (splice_prev s a A (S i)) /\
  arr_set (h_prev h) (Z.of_nat i) (splice_prev s a A i) =
    Ok (<[i := splice_prev s a A i]> (h_prev h)) /\
  arr_set (h_next h) (Z.of_nat i) (splice_next a B i) =
    Ok (<[i := splice_next a B i]> (h_next h)) /\
  hint_ok s a A B (set_prev_next h (<[i := splice_prev s a A i]> (h_prev h))
                                    (<[i := splice_next a B i]> (h_next h))) i hi.
Proof.
  intros (Hp & Hn & Hj) Hi.
  assert (i < 21)%nat as Hi21.
  { destruct (Hj (S i) ltac:(lia)) as [H1 _]. apply lookup_lt_Some in H1. lia. }
  split_and!.
  - replace (Z.of_nat i + 1) with (Z.of_nat (S i)) by lia.
    apply arr_get_Ok. apply Hj. lia.
  - apply arr_set_Ok. lia.
  - apply arr_set_Ok. lia.
  - split_and!; cbn; rewrite ?length_insert; try done.
    intros j Hjr. destruct (decide (j = i)) as [->|Hne].
    + rewrite !list_lookup_insert_eq by lia. done.
    + rewrite !list_lookup_insert_ne by done. apply Hj. lia.
Qed.

(** No node holds the key: the search fills the hint down to level 0. *)
Lemma putSearch_nomatch v : forall cnt h hi,
  (forall q, q ∈ B -> Compare k (nkey a q) <> 0) ->
  hint_ok s a A B h cnt hi -> (cnt <= hi)%nat -> (hi <= Z.to_nat maxHeight)%nat ->
  exists h', putSearch cnt s k v h = Ok (s, h', false) /\ hint_ok s a A B h' 0 hi.
Proof.
  induction cnt as [|i IH]; intros h hi Hno Hok Hle Hhi; [by eexists|].
  cbn [putSearch].
  destruct (hint_step h i hi Hok ltac:(lia)) as (-> & E2 & E3 & Hok'). cbn [bind].
  rewrite splice_step by lia. cbn [bind]. rewrite E2, E3. cbn [bind].
  destruct (filter (tall a i) B) as [|q Q] eqn:E.
  - apply IH; [done | done | lia | done].
  - assert (q ∈ B) as Hq.
    { assert (q ∈ filter (tall a i) B) as Hq by (rewrite E; set_solver).
      apply list_elem_of_filter in Hq. tauto. }
    apply Hno, Z.eqb_neq in Hq. rewrite Hq. apply IH; [done | done | lia | done].
Qed.

(** The first node not before the key holds it: the search overwrites its
    value. *)
Lemma putSearch_match v e B' : forall cnt h hi,
  B = e :: B' -> Compare k (nkey a e) = 0 ->
  hint_ok s a A B h cnt hi -> (1 <= cnt <= hi)%nat -> (hi <= Z.to_nat maxHeight)%nat ->
  exists h', putSearch cnt s k v h =
    let* a' := setValue a e v in Ok (set_arena s a', h', true).
Proof.
  intros cnt h hi HB Hk. revert h.
  induction cnt as [|i IH]; intros h Hok Hle Hhi; [lia|].
  cbn [putSearch].
  destruct (hint_step h i hi Hok ltac:(lia)) as (-> & E2 & E3 & Hok'). cbn [bind].
  rewrite splice_step by lia. cbn [bind]. rewrite E2, E3. cbn [bind].
  unfold splice_next. rewrite HB, filter_cons.
  destruct (decide (tall a i e)) as [Ht|Ht].
  - apply Z.eqb_eq in Hk. rewrite Hk. cbn [List.hd].
    unfold the_arena. rewrite (inv_arena _ _ _ INV). cbn [bind h_next set_prev_next].
    rewrite (arr_get_Ok _ i e).
    2:{ apply list_lookup_insert_eq. destruct Hok as (_ & -> & _). unfold maxHeight in Hhi. lia. }
    cbn [bind].
    destruct (copyDown_Ok i (set_prev_next h (<[i:=splice_prev s a A i]> (h_prev h))
                                             (<[i:=e]> (h_next h)))) as [h' Hh'].
    { cbn. rewrite length_insert. by destruct Hok. }
    { cbn. rewrite length_insert. by destruct Hok as (_ & ? & _). }
    { unfold maxHeight in Hhi. lia. }
    exists h'. destruct (setValue a e v); cbn [bind]; [|done]. by rewrite Hh'.
  - assert (i <> 0%nat) as Hi0.
    { intros ->. apply Ht. apply (inv_tall _ _ _ INV). rewrite HB. set_solver. }
    assert (Hhint : hint_ok s a A B
              (set_prev_next h (<[i:=splice_prev s a A i]> (h_prev h))
                 (<[i:=List.hd 0 (filter (tall a i) B')]> (h_next h))) i hi).
    { unfold splice_next in Hok'. rewrite HB, filter_cons, decide_False in Hok' by done.
      by rewrite HB. }
    destruct (filter (tall a i) B') as [|q Q] eqn:E.
    + apply IH; [done | lia | done].
    + assert (q ∈ B') as Hq.
      { assert (q ∈ filter (tall a i) B') as Hq by (rewrite E; set_solver).
        apply list_elem_of_filter in Hq. tauto. }
      assert (Compare k (nkey a q) < 0) as Hlt.
      { destruct (near_split_signs a k _ A B SPLIT (inv_sorted _ _ _ INV)) as (_ & _ & H3).
        by apply (H3 e B' HB). }
      replace (Compare k (nkey a q) =? 0) with false by (symmetry; apply Z.eqb_neq; lia).
      apply IH; [done | lia | done].
Qed.

End PutSearch.

(** ** Linking a new node *)

(** The two writes that link [x] after [p] at level [i]. *)
Lemma link_in a x p i nx a1 a2 :
  setTower a x (Z.of_nat i) nx = Ok a1 -> setTower a1 p (Z.of_nat i) x = Ok a2 -> x <> p ->
  relinked a a2 /\ next a2 i x = Some nx /\ next a2 i p = Some x /\
  forall l y, l <> i \/ (y <> x /\ y <> p) -> next a2 l y = next a l y.
Proof.
  intros H1 H2 Hne.
  apply setTower_spec in H1 as (R1 & N1 & F1). apply setTower_spec in H2 as (R2 & N2 & F2).
  split_and!; [by eapply relinked_trans | | done |].
  - rewrite F2 by (by left). done.
  - intros l y Hy. rewrite F2, F1; [done | |]; naive_solver.
Qed.

Lemma hint_ok_relinked s a a' A B h lo hi :
  relinked a a' -> hint_ok s a A B h lo hi -> hint_ok (set_arena s a') a' A B h lo hi.
Proof.
  intros R (H1 & H2 & H3). split_and!; [done | done |].
  intros j Hj. unfold splice_prev, splice_next. rewrite !(relinked_filter a a') by done.
  by apply H3.
Qed.

Section Insert.

Context (k : Key) (A B : list Z) (x : Z).

Lemma PInv_NoDup s a i : PInv s a A x B i -> NoDup (s_head s :: A ++ x :: B).
Proof.
  intros P. apply NoDup_cons. split; [apply (pinv_head _ _ _ _ _ _ P)|].
  eapply ascending_NoDup, (pinv_sorted _ _ _ _ _ _ P).
Qed.

(** One level of the insertion. *)
Lemma PInv_step s a i h b hi :
  PInv s a A x B i -> tall a i x -> (i < Z.to_nat maxHeight)%nat ->
  hint_ok s a A B h i hi -> (i <= hi)%nat ->
  exists a2, insertAt (fuel_of s) s k x (Z.of_nat i) h b = Ok (set_arena s a2, h, b) /\
             PInv (set_arena s a2) a2 A x B (S i) /\ relinked a a2.
Proof.
  intros P Hx Hi Hok Hhi.
  pose proof (PInv_NoDup _ _ _ P) as Hnd.
  apply NoDup_cons in Hnd as [HhdL Hnd].
  apply NoDup_app in Hnd as (HndA & HAB & HndB).
  apply NoDup_cons in HndB as [HxB HndB].
  apply not_elem_of_app in HhdL as [HhdA HhdxB].
  apply not_elem_of_cons in HhdxB as [Hhdx HhdB].
  assert (HxA : x ∉ A).
  { intros Hin. apply (HAB x Hin). by left. }
  assert (HABd : forall y, y ∈ A -> y ∉ B).
  { intros y Hin HinB. apply (HAB y Hin). by right. }
  set (fA := filter (tall a i) A). set (fB := filter (tall a i) B).
  set (p := splice_prev s a A i). set (nx := splice_next a B i).
  assert (Hp : p = s_head s \/ p ∈ A).
  { subst p. unfold splice_prev. destruct (last_in (filter (tall a i) A) (s_head s)) as [->|Hin];
      [by left | right]. apply list_elem_of_filter in Hin. tauto. }
  assert (Hxp : x <> p).
  { intros <-. destruct Hp as [->|Hp]; done. }
  assert (HpB : p ∉ B).
  { destruct Hp as [->|Hp]; [done | by apply HABd]. }
  pose proof (pinv_chain _ _ _ _ _ _ P i Hi) as Hch.
  rewrite decide_False in Hch by lia. cbn [app] in Hch. fold fA fB in Hch.
  apply linked_app_hd in Hch as [HchA HchB].
  pose proof (linked_last _ _ _ _ _ HchA) as Hpn. fold (splice_prev s a A i) in Hpn.
  fold (splice_next a B i) in Hpn. fold p nx in Hpn.
  destruct (setTower_Ok a x i nx Hx) as [a1 Ha1].
  pose proof (setTower_spec _ _ _ _ _ Ha1) as (R1 & N1 & F1).
  assert (Hpn1 : next a1 i p = Some nx) by (rewrite F1; [done | by left]).
  destruct (casNextOffset_swap a1 p i nx x Hpn1) as (a2 & Hcas & Ha2).
  destruct (link_in a x p i nx a1 a2 Ha1 Ha2 Hxp) as (R & Nx & Np & F).
  exists a2. split_and!; [| |done].
  - unfold fuel_of. rewrite (pinv_arena _ _ _ _ _ _ P).
    replace (size (a_nodes a) + Z.to_nat maxHeight + 1)%nat
      with (S (size (a_nodes a) + Z.to_nat maxHeight)) by lia.
    cbn [insertAt]. unfold the_arena. rewrite (pinv_arena _ _ _ _ _ _ P). cbn [bind].
    destruct Hok as (_ & _ & Hj). destruct (Hj i ltac:(lia)) as [Hpi Hni].
    rewrite (arr_get_Ok _ _ _ Hni). cbn [bind]. unfold getNodeOffset. fold nx.
    rewrite Ha1. cbn [bind]. rewrite (arr_get_Ok _ _ _ Hpi). cbn [bind]. fold p.
    by rewrite Hcas.
  - destruct P as [Pa Ph [Phd PhdL] Pch Ps Pt Pal].
    split; cbn [s_arena s_head s_height set_arena]; try done.
    + split; [by apply (relinked_tall a a2) | done].
    + intros l Hl. rewrite !(relinked_filter a a2) by done.
      destruct (decide (l = i)) as [->|Hli].
      * rewrite decide_True by lia. fold fA fB. cbn [app]. apply linked_app. split.
        -- eapply linked_set_last; [exact HchA | | done |].
           ++ apply NoDup_cons. split; [|by apply NoDup_filter].
              intros Hin. apply list_elem_of_filter in Hin as [_ Hin]. done.
           ++ intros y Hy Hyp. apply F. right. split; [|done].
              intros ->. apply elem_of_cons in Hy as [Hy|Hy]; [by subst|].
              apply list_elem_of_filter in Hy as [_ Hy]. done.
        -- apply linked_from_hd; [done|].
           destruct fB as [|q fB'] eqn:EfB; [done|].
           eapply linked_frame; [|exact HchB]. intros y Hy. apply F. right.
           assert (y ∈ B) as HyB.
           { assert (y ∈ filter (tall a i) B) as Hy' by (fold fB; rewrite EfB; done).
             apply list_elem_of_filter in Hy'. tauto. }
           split; intros ->; done.
      * specialize (Pch l Hl).
        assert (Hd : (if decide (l < S i)%nat then [x] else []) =
                     (if decide (l < i)%nat then [x] else [])).
        { repeat case_decide; try done; lia. }
        rewrite Hd. eapply linked_frame; [|exact Pch]. intros y _. apply F. by left.
    + eapply ascending_ext; [|exact Ps]. intros y _. by apply relinked_nkey.
    + intros y Hy. rewrite !(relinked_tall a a2) by done. by apply Pt.
    + by eapply relinked_allocated.
Qed.

(** All the levels of the insertion. *)
Lemma insertLevels_spec b hi : forall cnt i s a h,
  PInv s a A x B i -> (forall l, (i <= l < i + cnt)%nat -> tall a l x) ->
  (i + cnt <= Z.to_nat maxHeight)%nat ->
  hint_ok s a A B h i hi -> (i + cnt <= S hi)%nat ->
  exists a', insertLevels cnt s k x (Z.of_nat i) h b = Ok (set_arena s a', h, b) /\
             PInv (set_arena s a') a' A x B (i + cnt) /\ relinked a a'.
Proof.
  induction cnt as [|cnt IH]; intros i s a h P Hx Hi Hok Hhi.
  - exists a. replace (i + 0)%nat with i by lia. cbn [insertLevels].
    assert (set_arena s a = s) as ->.
    { destruct s as [hh hd ar]. unfold set_arena. cbn. f_equal.
      symmetry. apply (pinv_arena _ _ _ _ _ _ P). }
    split_and!; [done | done | apply relinked_refl].
  - cbn [insertLevels].
    destruct (PInv_step s a i h b hi P) as (a2 & E & P2 & R2); [apply Hx; lia | lia | done | lia |].
    rewrite E. cbn [bind].
    replace (Z.of_nat i + 1) with (Z.of_nat (S i)) by lia.
    destruct (IH (S i) (set_arena s a2) a2 h P2) as (a' & E' & P' & R').
    + intros l Hl. apply (relinked_tall a a2 l x R2). apply Hx. lia.
    + lia.
    + apply (hint_ok_relinked s a a2); [done|]. destruct Hok as (H1 & H2 & H3).
      split_and!; [done | done |]. intros j Hj. apply H3. lia.
    + lia.
    + exists a'. replace (i + S cnt)%nat with (S i + cnt)%nat by lia.
      split_and!; [exact E' | exact P' | by eapply relinked_trans].
Qed.

(** When the new node is linked at all its levels, it is one of the list. *)
Lemma PInv_end s a H' :
  PInv s a A x B H' -> (forall l, tall a l x <-> (l < H')%nat) -> Inv s a (A ++ x :: B).
Proof.
  intros [Pa Ph Phd Pch Ps Pt Pal] Hx. split; try done.
  intros l Hl. rewrite filter_app, filter_cons. specialize (Pch l Hl).
  destruct (decide (tall a l x)) as [Ht|Ht].
  - rewrite decide_True in Pch by (by apply Hx). done.
  - rewrite decide_False in Pch by (by rewrite <- Hx). done.
Qed.

End Insert.

(** ** Put *)

Lemma randomHeight_loop_range rnd : forall fuel i h,
  1 <= h <= maxHeight ->
  h <= randomHeight_loop fuel rnd i h <= maxHeight.
Proof.
  induction fuel as [|fuel IH]; intros i h Hh; cbn [randomHeight_loop]; [lia|].
  destruct (Z.ltb_spec h maxHeight); cbn [andb]; [|lia].
  destruct (rnd i <=? heightIncrease); [|lia].
  specialize (IH (S i) (h + 1)). lia.
Qed.

Lemma randomHeight_range rnd : 1 <= randomHeight rnd <= maxHeight.
Proof.
  unfold randomHeight.
  pose proof (randomHeight_loop_range rnd (Z.to_nat maxHeight) 0%nat 1). unfold maxHeight in *. lia.
Qed.

(** Raising the height of the list keeps the invariant. *)
Lemma Inv_raise s a L h' :
  Inv s a L -> s_height s <= h' <= maxHeight ->
  Inv (mkSkiplist h' (s_head s) (s_arena s)) a L.
Proof.
  intros [Ha Hh Hhd Hch Hs Ht Hal] Hh'. split; cbn [s_arena s_head s_height]; try done; [lia|].
  intros x Hx. destruct (Ht x Hx) as [H0 Hn]. split; [done|].
  intros Htall. apply Hn. eapply tall_le; [done | lia].
Qed.

(** Above the height of the list the splice is the head and nil. *)
Lemma splice_top s a L A B l :
  Inv s a L -> L = A ++ B -> (Z.to_nat (s_height s) <= l)%nat ->
  splice_prev s a A l = s_head s /\ splice_next a B l = 0.
Proof.
  intros INV -> Hl. unfold splice_prev, splice_next.
  assert (Hnone : forall X, X ⊆ A ++ B -> filter (tall a l) X = []).
  { intros X HX. induction X as [|y X IH]; [done|]. rewrite filter_cons.
    rewrite decide_False; [apply IH; set_solver|].
    intros Ht. destruct (inv_tall _ _ _ INV y) as [_ Hn]; [set_solver|].
    apply Hn. eapply tall_le; [done | lia]. }
  rewrite !Hnone by set_solver. done.
Qed.

Lemma calculateRecomputeHeight_fresh s k lh :
  1 <= lh <= maxHeight ->
  calculateRecomputeHeight s k newHint lh =
    Ok (lh, mkHint lh lh (<[Z.to_nat lh := s_head s]> (h_prev newHint))
                         (<[Z.to_nat lh := 0]> (h_next newHint))).
Proof.
  intros Hlh. unfold calculateRecomputeHeight. cbn [h_height newHint].
  destruct (Z.ltb_spec 0 lh); [|lia].
  unfold maxHeight in Hlh. unfold arr_set, newHint. cbn [h_prev h_next].
  rewrite !length_replicate.
  destruct (Z.leb_spec 0 lh); [|lia].
  destruct (Z.ltb_spec lh (Z.of_nat (Z.to_nat (maxHeight + 1)))); [|unfold maxHeight in *; lia].
  done.
Qed.

Lemma hint_ok_fresh s a L A B :
  Inv s a L -> L = A ++ B ->
  hint_ok s a A B
    (mkHint (s_height s) (s_height s)
            (<[Z.to_nat (s_height s) := s_head s]> (h_prev newHint))
            (<[Z.to_nat (s_height s) := 0]> (h_next newHint)))
    (Z.to_nat (s_height s)) (Z.to_nat (s_height s)).
Proof.
  intros INV HL. pose proof (inv_height _ _ _ INV) as Hh. unfold maxHeight in Hh.
  split_and!; cbn [h_prev h_next]; rewrite ?length_insert; [done | done |].
  intros j Hj. assert (j = Z.to_nat (s_height s)) as -> by lia.
  destruct (splice_top s a L A B (Z.to_nat (s_height s)) INV HL ltac:(lia)) as [-> ->].
  split; apply list_lookup_insert_eq; unfold newHint; cbn [h_prev h_next];
    rewrite length_replicate; unfold maxHeight; lia.
Qed.

(** The state in which the insertion of a new node starts. *)
Lemma PInv_start s a k v A B H x a1 :
  Inv s a (A ++ B) ->
  Forall (fun y => klt (nkey a y) k) A -> Forall (fun y => klt k (nkey a y)) B ->
  newNode a k v H = Ok (x, a1) -> 1 <= H <= s_height s -> keySizeFits k ->
  PInv (set_arena s a1) a1 A x B 0 /\
  (forall l, tall a1 l x <-> (l < Z.to_nat H)%nat) /\
  (forall l y, y ∈ s_head s :: A ++ B -> tall a1 l y <-> tall a l y) /\
  (x ∉ A ++ B) /\ nkey a1 x = k /\ nval a1 x = v /\
  (forall y, y ∈ A ++ B -> nkey a1 y = nkey a y /\ nval a1 y = nval a y).
Proof.
  intros INV HA HB Hnew HH Hfit.
  pose proof INV as [Ha Hh [Hhd HhdL] Hch Hs Ht Hal].
  assert (HH' : 1 <= H <= maxHeight) by lia.
  destruct (newNode_spec a k v H x a1 Hnew Hal HH')
    as (Hfresh & Hx0 & Hnext & Hnx & Hkv & Hkx & Hvx & Hal1).
  specialize (Hkx Hfit).
  assert (Hold : forall y, y ∈ s_head s :: A ++ B -> y <> x).
  { intros y Hy ->. apply elem_of_cons in Hy as [->|Hy].
    - apply tall_node in Hhd as [nd Hnd]. congruence.
    - destruct (Ht x Hy) as [Ht0 _]. apply tall_node in Ht0 as [nd Hnd]. congruence. }
  assert (Htall : forall l y, y ∈ s_head s :: A ++ B -> tall a1 l y <-> tall a l y).
  { intros l y Hy. unfold tall. rewrite Hnext; [done | by apply Hold]. }
  assert (Htx : forall l, tall a1 l x <-> (l < Z.to_nat H)%nat).
  { intros l. unfold tall. rewrite Hnx.
    case_decide; split; intros Hq; try done; try (by eexists); by destruct Hq. }
  assert (HxL : x ∉ A ++ B).
  { intros Hin. apply (Hold x); [by right | done]. }
  rewrite Forall_forall in HA. rewrite Forall_forall in HB.
  split_and!; try done.
  - split; cbn [s_arena s_head s_height set_arena]; try done.
    + split; [apply Htall; [by left | done]|].
      intros Hin. apply elem_of_app in Hin as [Hin|Hin].
      * apply HhdL. apply elem_of_app. by left.
      * apply elem_of_cons in Hin as [Hin|Hin]; [apply (Hold (s_head s)); [by left | done]|].
        apply HhdL. apply elem_of_app. by right.
    + intros l Hl. rewrite decide_False by lia. cbn [app].
      rewrite (filter_ext_in (tall a1 l) (tall a l) A), (filter_ext_in (tall a1 l) (tall a l) B).
      * rewrite <- filter_app. eapply linked_frame; [|by apply Hch].
        intros y Hy. apply Hnext, Hold. apply elem_of_cons in Hy as [->|Hy]; [by left | right].
        apply list_elem_of_filter in Hy. tauto.
      * intros y Hy. apply Htall. right. apply elem_of_app. by right.
      * intros y Hy. apply Htall. right. apply elem_of_app. by left.
    + apply ascending_app in Hs as (HsA & HsB & HAB).
      assert (Hk1 : forall y, y ∈ A ++ B -> nkey a1 y = nkey a y).
      { intros y Hy. apply Hkv, Hold. by right. }
      apply ascending_app. split_and!.
      * eapply ascending_ext; [|exact HsA]. intros y Hy. apply Hk1, elem_of_app. by left.
      * apply ascending_cons. split.
        -- eapply ascending_ext; [|exact HsB]. intros y Hy. apply Hk1, elem_of_app. by right.
        -- intros y Hy. rewrite Hkx, Hk1 by (apply elem_of_app; by right). by apply HB.
      * intros p y Hp Hy. rewrite (Hk1 p) by (apply elem_of_app; by left).
        apply elem_of_cons in Hy as [->|Hy].
        -- rewrite Hkx. by apply HA.
        -- rewrite Hk1 by (apply elem_of_app; by right). by apply HAB.
    + intros y Hy.
      assert (y = x \/ y ∈ A ++ B) as [->|Hy'].
      { apply elem_of_app in Hy as [Hy|Hy]; [right; apply elem_of_app; by left|].
        apply elem_of_cons in Hy as [Hy|Hy]; [by left | right; apply elem_of_app; by right]. }
      * rewrite !Htx. lia.
      * rewrite !Htall by (by right). by apply Ht.
  - intros y Hy. apply Hkv, Hold. by right.
Qed.

(** A put with no hint, of a key whose size fits the keySize field, keeps
    the invariant, and overwrites or inserts. *)
Lemma Put_Inv s a L k v rnd s' :
  Inv s a L -> keySizeFits k -> Put s k v rnd = Ok s' ->
  exists a' L', Inv s' a' L' /\ put_effect a L k v a' L' /\
    s_height s' = Z.max (s_height s) (randomHeight rnd) /\ s_head s' = s_head s.
Proof.
  intros INV0 Hfit HPut.
  pose proof (randomHeight_range rnd) as HH. set (H := randomHeight rnd) in *.
  pose proof (inv_height _ _ _ INV0) as Hh0.
  set (lh := Z.max (s_height s) H).
  set (s1 := mkSkiplist lh (s_head s) (s_arena s)).
  assert (INV : Inv s1 a L) by (apply Inv_raise; [done | lia]).
  assert (Hlh : 1 <= lh <= maxHeight) by lia.
  (* the put, with the height of the list settled *)
  assert (HPut1 : Put s k v rnd =
    let* (s2, _) :=
      (let* (recomputeHeight, h) := calculateRecomputeHeight s1 k newHint lh in
       let* (s, h, returned) :=
         if recomputeHeight >? 0
         then putSearch (Z.to_nat recomputeHeight) s1 k v h
         else Ok (s1, h, false) in
       if returned : bool then Ok (s, @None hint)
       else
         let* a := the_arena s in
         let* (x, a) := newNode a k v H in
         let s := set_arena s a in
         let* (s, h, spliceIsValid) := insertLevels (Z.to_nat H) s k x 0 h false in
         if spliceIsValid : bool then
           let* h := refreshHint (Z.to_nat H) s x 0 h in Ok (s, @None hint)
         else Ok (s, @None hint)) in
    Ok s2).
  { unfold Put, PutWithHint, getHeight. fold H.
    destruct (Z.gtb_spec H (s_height s)) as [Hgt|Hle].
    - subst s1 lh. rewrite Z.max_r by lia. done.
    - subst s1 lh. rewrite Z.max_l by lia. by destruct s. }
  rewrite HPut1 in HPut. clear HPut1.
  rewrite (calculateRecomputeHeight_fresh s1 k lh Hlh) in HPut. cbn [bind] in HPut.
  change (s_head s1) with (s_head s) in HPut.
  replace (lh >? 0) with true in HPut by (symmetry; apply Z.gtb_lt; lia).
  destruct (ascending_split a k L (inv_sorted _ _ _ INV)) as (A & B & Hsp).
  pose proof Hsp as (HL & HA & HB).
  pose proof (hint_ok_fresh s1 a L A B INV HL) as Hok.
  change (s_head s1) with (s_head s) in Hok. change (s_height s1) with lh in Hok.
  rewrite HL in INV.
  destruct (near_split_signs a k L A B Hsp (inv_sorted _ _ _ INV0)) as (SA & SB & SB').
  rewrite HL in Hsp.
  assert (Hcase : (exists e B', B = e :: B' /\ Compare k (nkey a e) = 0) \/
                  (forall q, q ∈ B -> Compare k (nkey a q) < 0)).
  { destruct B as [|e B']; [right; intros q Hq; by apply elem_of_nil in Hq|].
    destruct (Z.eq_dec (Compare k (nkey a e)) 0) as [E|E]; [left; by exists e, B'|].
    right. intros q Hq. apply elem_of_cons in Hq as [->|Hq].
    - specialize (SB e ltac:(by left)). lia.
    - by apply (SB' e B'). }
  destruct Hcase as [(e & B' & EB & Hke) | Hno].
  - (* the key is there: its value is overwritten *)
    destruct (putSearch_match s1 a k A B INV Hsp v e B' (Z.to_nat lh) _ (Z.to_nat lh) EB Hke Hok)
      as [h' Hs]; [lia | lia |].
    rewrite Hs in HPut.
    destruct (setValue a e v) as [a'|] eqn:Hset; cbn [bind] in HPut; [|done].
    injection HPut as <-.
    destruct (setValue_spec a e v a' Hset (inv_alloc _ _ _ INV0)) as (Hn & Hk & Hv & Hvo & Hdom & Hal).
    exists a', L. split_and!; [| left | done | done].
    + rewrite <- HL in INV. eapply Inv_transfer; [exact INV | done | done | done | | | done].
      * intros l y _. apply Hn.
      * intros y _. apply Hk.
    + exists e. split_and!; try done.
      * rewrite HL, EB. apply elem_of_app. right. by left.
      * symmetry. by apply Compare_eq.
  - (* the key is new: a node is linked *)
    assert (Hno' : forall q, q ∈ B -> Compare k (nkey a q) <> 0).
    { intros q Hq. specialize (Hno q Hq). lia. }
    destruct (putSearch_nomatch s1 a k A B INV Hsp v (Z.to_nat lh) _ (Z.to_nat lh) Hno' Hok)
      as (h' & Hs & Hok'); [lia | lia |].
    rewrite Hs in HPut. cbn [bind] in HPut.
    unfold the_arena in HPut. rewrite (inv_arena _ _ _ INV) in HPut. cbn [bind] in HPut.
    destruct (newNode a k v H) as [[x a1]|] eqn:Hnew; cbn [bind] in HPut; [|done].
    assert (HB' : Forall (fun y => klt k (nkey a y)) B).
    { apply Forall_forall. intros q Hq. by apply Hno. }
    destruct (PInv_start s1 a k v A B H x a1 INV HA HB' Hnew)
      as (P0 & Htx & Htold & HxL & Hkx & Hvx & Hold); [cbn; lia | done |].
    destruct (insertLevels_spec k A B x false (Z.to_nat lh) (Z.to_nat H) 0%nat
                (set_arena s1 a1) a1 h' P0) as (a' & Hins & P' & R).
    + intros l Hl. apply Htx. lia.
    + lia.
    + destruct Hok' as (H1 & H2 & H3). split_and!; [done | done |].
      intros j Hj. destruct (H3 j Hj) as [E1 E2]. cbn [set_arena s_head].
      unfold splice_prev, splice_next in *.
      rewrite (filter_ext_in (tall a1 j) (tall a j) A), (filter_ext_in (tall a1 j) (tall a j) B).
      * done.
      * intros y Hy. apply Htold. right. apply elem_of_app. by right.
      * intros y Hy. apply Htold. right. apply elem_of_app. by left.
    + lia.
    + change (Z.of_nat 0) with 0 in Hins. rewrite Hins in HPut. cbn [bind] in HPut.
      injection HPut as <-.
      exists a', (A ++ x :: B). split_and!; [| right | done | done].
      * apply (PInv_end A B x _ a' (0 + Z.to_nat H)); [done|].
        intros l. rewrite (relinked_tall a1 a' l x R). rewrite Htx. lia.
      * split.
        -- intros y Hy Hyk. rewrite HL in Hy. apply elem_of_app in Hy as [Hy|Hy].
           ++ specialize (SA y Hy). rewrite Hyk, Compare_refl in SA. lia.
           ++ specialize (Hno y Hy). rewrite Hyk, Compare_refl in Hno. lia.
        -- exists A, B, x. rewrite HL. split_and!; try done.
           ++ by rewrite (relinked_nkey a1 a').
           ++ by rewrite (relinked_nval a1 a').
           ++ intros y Hy. rewrite (relinked_nkey a1 a'), (relinked_nval a1 a') by done.
              by apply Hold.
Qed.

(** ** From the invariant to the searches *)

Lemma Inv_base a L : (forall x, x ∈ L -> tall a 0 x) -> levels a L 0 = L.
Proof.
  intros H. unfold levels. induction L as [|x L IH]; [done|].
  rewrite filter_cons, decide_True by (apply H; by left).
  f_equal. apply IH. intros y Hy. apply H. by right.
Qed.

Lemma Inv_wf s a L : Inv s a L -> wf s a (levels a L).
Proof.
  intros INV. pose proof INV as [Ha Hh [Hhd HhdL] Hch Hs Ht Hal].
  assert (Hnz : forall y, y ∈ L -> y <> 0 /\ y <> s_head s).
  { intros y Hy. replace L with ([] ++ L) in INV, Hy by done.
    by apply (Inv_nonzero s a [] L INV). }
  split; try done.
  - apply tall_node in Hhd as [nd Hnd]. destruct Hal as (_ & _ & Hal).
    destruct (Hal _ _ Hnd). lia.
  - intros l Hl. apply Hch. unfold maxHeight in *. lia.
  - intros l x _ Hx. apply list_elem_of_filter in Hx as [_ Hx]. by apply Hnz.
  - intros l _. by apply ascending_filter.
  - intros l x _ Hx. apply list_elem_of_filter in Hx as [Hx1 Hx2].
    apply list_elem_of_filter. split; [eapply tall_le; [done | lia] | done].
Qed.

Lemma Inv_levels0 s a L : Inv s a L -> levels a L 0 = L.
Proof. intros INV. apply Inv_base. intros x Hx. by apply (inv_tall _ _ _ INV). Qed.

(** ** Get *)

Lemma valueOf_node s a k n nd :
  s_arena s = Some a -> n <> 0 -> a_nodes a !! n = Some nd ->
  valueOf s k n =
    Ok (if SameUserKey k (nkey a n) then setVersion (nval a n) (Version (nkey a n))
        else emptyValue).
Proof.
  intros Ha Hn Hnd. unfold valueOf, the_arena, deref, nkey, nval.
  apply Z.eqb_neq in Hn. rewrite Hn, Ha. cbn [bind]. rewrite Hnd. cbn [bind].
  destruct (SameUserKey k _); cbn [negb]; [|done].
  by destruct (getValueOffset nd).
Qed.

Lemma Get_wf s a Ls k :
  wf s a Ls ->
  exists P Q, near_split a k (Ls 0%nat) P Q /\ Get s k = Ok (get_result a k Q).
Proof.
  intros WF. destruct (findNear_split s a Ls WF k false true) as (P & Q & Hsp & E).
  exists P, Q. split; [done|]. unfold Get. rewrite E. cbn [bind]. unfold near_result.
  destruct Q as [|q Q'].
  - cbn. done.
  - assert (Hq : q ∈ Ls 0%nat) by (destruct Hsp as (-> & _); set_solver).
    destruct (wf_base_nonzero s a Ls WF q Hq) as [Hq0 _].
    pose proof (wf_height _ _ _ WF) as Hh.
    destruct (wf_is_node s a Ls WF 0%nat q ltac:(lia) Hq) as [nd Hnd].
    assert (Hv := valueOf_node s a k q nd (wf_arena _ _ _ WF) Hq0 Hnd).
    destruct (Compare k (nkey a q) =? 0); cbn [get_result]; exact Hv.
Qed.

(** ** A new skiplist *)

Lemma newSkiplist_Inv sz s :
  newSkiplist sz = Ok s -> sz <= MaxUint32 -> exists a, Inv s a [].
Proof.
  unfold newSkiplist. intros Hnew Hsz.
  destruct (newNode (newArena sz) emptyKey emptyValue maxHeight) as [[hd a1]|] eqn:E; [|done].
  cbn [bind] in Hnew. injection Hnew as <-.
  assert (Hal : allocated (newArena sz)).
  { unfold allocated, newArena. cbn [a_n a_cap a_nodes].
    split_and!; [lia | done |]. intros y nd Hy. by rewrite lookup_empty in Hy. }
  destruct (newNode_spec _ _ _ _ _ _ E Hal ltac:(unfold maxHeight; lia))
    as (_ & Hx0 & _ & Hnx & _ & _ & _ & Hal1).
  exists a1. split; cbn [s_arena s_head s_height]; try done.
  - split; [|apply not_elem_of_nil]. unfold tall. rewrite Hnx.
    rewrite decide_True by (unfold maxHeight; lia). by eexists.
  - intros l Hl. cbn. rewrite Hnx. by rewrite decide_True.
  - constructor.
  - intros x Hx. by apply elem_of_nil in Hx.
Qed.

Lemma puts_Inv ops : forall s a L,
  Inv s a L -> Forall keySizeFits (keys_of ops) ->
  forall s', puts ops s = Ok s' -> exists a' L', Inv s' a' L'.
Proof.
  induction ops as [|[[k v] rnd] ops IH]; intros s a L INV Hfit s' Hp.
  - injection Hp as <-. eauto.
  - cbn [puts] in Hp. apply bind_Ok in Hp as (s1 & Hput & Hp).
    unfold keys_of in Hfit. cbn [map fst] in Hfit. apply Forall_cons in Hfit as [Hk Hfit].
    destruct (Put_Inv s a L k v rnd s1 INV Hk Hput) as (a1 & L1 & INV1 & _).
    by eapply IH.
Qed.

Lemma build_Inv sz ops s :
  sz <= MaxUint32 -> Forall keySizeFits (keys_of ops) -> build sz ops = Ok s ->
  exists a L, Inv s a L.
Proof.
  intros Hsz Hfit Hb. apply bind_Ok in Hb as (s0 & Hnew & Hp).
  destruct (newSkiplist_Inv sz s0 Hnew Hsz) as [a0 INV0].
  by eapply puts_Inv.
Qed.

(** ** Forward iteration *)

Lemma forward_loop_spec s a : forall xs fuel x,
  s_arena s = Some a -> x <> 0 -> linked a 0 x xs 0 -> Forall (fun y => y <> 0) xs ->
  (S (length xs) < fuel)%nat ->
  forward_loop fuel s (mkIterator x) = Ok (map (nkey a) (x :: xs)).
Proof.
  induction xs as [|y xs IH]; intros fuel x Ha Hx Hl Hnz Hf;
    (destruct fuel as [|fuel]; [simpl in Hf; lia|]); cbn [forward_loop].
  - unfold Valid. cbn [it_n]. apply Z.eqb_neq in Hx. rewrite Hx. cbn [negb].
    unfold it_Key, the_arena. rewrite Ha. cbn [bind it_n].
    rewrite (key_next _ _ _ _ Hl). cbn [bind]. unfold Next. cbn [it_n].
    rewrite (getNext_next0 s a x 0 Ha Hl). cbn [bind].
    destruct fuel; [simpl in Hf; lia|]. done.
  - destruct Hl as [Hn Hl]. apply Forall_cons in Hnz as [Hy Hnz].
    unfold Valid. cbn [it_n]. apply Z.eqb_neq in Hx. rewrite Hx. cbn [negb].
    unfold it_Key, the_arena. rewrite Ha. cbn [bind it_n].
    rewrite (key_next _ _ _ _ Hn). cbn [bind]. unfold Next. cbn [it_n].
    rewrite (getNext_next0 s a x y Ha Hn). cbn [bind].
    rewrite (IH fuel y Ha Hy Hl Hnz) by (simpl in Hf; lia). done.
Qed.

Lemma forward_wf s a Ls : wf s a Ls -> forward s = Ok (map (nkey a) (Ls 0%nat)).
Proof.
  intros WF. pose proof (wf_height _ _ _ WF) as Hh. pose proof (wf_arena _ _ _ WF) as Ha.
  assert (0 < Z.to_nat (s_height s))%nat as H0 by lia.
  pose proof (wf_chain _ _ _ WF 0%nat H0) as Hch.
  pose proof (chain_length_le _ _ _ _ _ Hch (wf_sorted _ _ _ WF 0%nat H0)) as Hlen.
  unfold forward, SeekToFirst.
  rewrite (getNext_next0 s a _ _ Ha (linked_first _ _ _ _ _ Hch)). cbn [bind].
  destruct (Ls 0%nat) as [|x xs] eqn:E.
  - cbn. unfold fuel_of. rewrite Ha.
    by replace (size (a_nodes a) + Z.to_nat maxHeight + 1)%nat
      with (S (size (a_nodes a) + Z.to_nat maxHeight)) by lia.
  - cbn [List.hd]. destruct Hch as [_ Hch].
    assert (Hnz : Forall (fun y => y <> 0) (x :: xs)).
    { apply Forall_forall. intros y Hy. apply (wf_nodes _ _ _ WF 0%nat y H0). by rewrite E. }
    apply Forall_cons in Hnz as [Hx Hnz].
    apply forward_loop_spec; try done.
    unfold fuel_of. rewrite Ha. simpl in Hlen. lia.
Qed.

(** * The properties of the specification *)

(** Proving that a concrete skiplist is well formed, by evaluation. *)
Ltac mem_cases H :=
  repeat (apply elem_of_cons in H as [->|H]); try (apply elem_of_nil in H; destruct H).

Ltac eval_wf :=
  split;
  [ vm_compute; reflexivity
  | vm_compute; split; intro; discriminate
  | vm_compute; intro; discriminate
  | intros [|[|l]] Hl; [vm_compute; repeat split; reflexivity .. | vm_compute in Hl; lia]
  | intros [|[|l]] x Hl Hx; [mem_cases Hx; vm_compute; split; intro; discriminate ..
                            | vm_compute in Hl; lia]
  | intros [|[|l]] Hl; [repeat constructor; vm_compute; reflexivity .. | vm_compute in Hl; lia]
  | intros [|[|l]] x Hl Hx; [mem_cases Hx; vm_compute; repeat constructor .. | vm_compute in Hl; lia] ].

Lemma ex_wf : wf ex_s ex_a ex_Ls.
Proof. eval_wf. Qed.

Lemma prefix_split a k (xs : list Z) :
  exists X Y, xs = X ++ Y /\ Forall (fun y => klt (nkey a y) k) X /\
    match Y with [] => True | q :: _ => ~ klt (nkey a q) k end.
Proof.
  induction xs as [|x xs (X & Y & -> & HX & HY)]; [by exists [], []|].
  destruct (decide (klt (nkey a x) k)) as [Hx|Hx].
  - exists (x :: X), Y. split_and!; [done | by constructor | done].
  - exists [], (x :: X ++ Y). by split_and!.
Qed.

(** C7: from any starting node [before] of a level whose chain [xs] to nil
    is strictly ascending, findSpliceForLevel returns [(b, af, m)] where [b]
    is [before] or a node of the chain with a key before [k] (so [b.key < k]
    when [before.key < k]), [af] is the successor of [b] at that level
    (possibly nil), [k <= af.key] when [af] is not nil, and [m] is true
    exactly when [af] is not nil and its key equals [k]. *)
Theorem findSpliceForLevel_correct s a k l before xs :
  s_arena s = Some a ->
  linked a l before xs 0 ->
  Forall (fun y => y <> 0) xs ->
  ascending a xs ->
  exists b af m,
    findSpliceForLevel s k before (Z.of_nat l) = Ok (b, af, m) /\
    (b = before \/ (b ∈ xs /\ klt (nkey a b) k)) /\
    (klt (nkey a before) k -> klt (nkey a b) k) /\
    next a l b = Some af /\
    (af <> 0 -> Compare k (nkey a af) <= 0) /\
    (m = true <-> af <> 0 /\ Compare k (nkey a af) = 0).
Proof.
  intros Ha Hl Hnz Hs.
  destruct (prefix_split a k xs) as (X & Y & E & HX & HY).
  pose proof (chain_length_le _ _ _ _ _ Hl Hs) as Hlen.
  rewrite E in Hl, Hnz, Hlen. rewrite length_app in Hlen.
  apply Forall_app in Hnz as [HnzX HnzY].
  assert (HX' : Forall (fun y => y <> 0 /\ klt (nkey a y) k) X).
  { rewrite Forall_forall in HX, HnzX. apply Forall_forall. intros y Hy. split; auto. }
  assert (HY' : match Y with [] => True | q :: _ => q <> 0 /\ ~ klt (nkey a q) k end).
  { destruct Y as [|q Y]; [done|]. apply Forall_cons in HnzY as [? _]. done. }
  assert (Hb : List.last X before = before \/ (List.last X before ∈ xs /\
                 klt (nkey a (List.last X before)) k)).
  { destruct (last_in X before) as [?|Hin]; [by left | right].
    rewrite Forall_forall in HX. split; [rewrite E; apply elem_of_app; by left | by apply HX]. }
  exists (List.last X before), (List.hd 0 Y),
    (match Y with q :: _ => Compare k (nkey a q) =? 0 | [] => false end).
  split_and!.
  - unfold findSpliceForLevel. apply (findSplice_loop_app s a k l X); try done.
    unfold fuel_of. rewrite Ha. lia.
  - done.
  - intros Hbk. destruct Hb as [->|[_ ?]]; done.
  - apply linked_app_hd in Hl as [Hl _]. by apply linked_last in Hl.
  - destruct Y as [|q Y]; [done|]. intros _. destruct HY' as [_ Hq].
    rewrite klt_gt in Hq. simpl. lia.
  - destruct Y as [|q Y]; simpl.
    + split; [done | intros [? _]; done].
    + destruct HY' as [Hq0 _]. rewrite Z.eqb_eq. tauto.
Qed.

Lemma findSpliceForLevel_correct_witness :
  s_arena ex_s = Some ex_a /\
  linked ex_a 0 136 [192; 248] 0 /\
  Forall (fun y => y <> 0) [192; 248] /\
  ascending ex_a [192; 248] /\
  exists b af m,
    findSpliceForLevel ex_s (ukey "d" 1) 136 (Z.of_nat 0) = Ok (b, af, m) /\
    (b = 136 \/ (b ∈ [192; 248] /\ klt (nkey ex_a b) (ukey "d" 1))) /\
    (klt (nkey ex_a 136) (ukey "d" 1) -> klt (nkey ex_a b) (ukey "d" 1)) /\
    next ex_a 0 b = Some af /\
    (af <> 0 -> Compare (ukey "d" 1) (nkey ex_a af) <= 0) /\
    (m = true <-> af <> 0 /\ Compare (ukey "d" 1) (nkey ex_a af) = 0).
Proof.
  assert (H1 : s_arena ex_s = Some ex_a) by (vm_compute; reflexivity).
  assert (H2 : linked ex_a 0 136 [192; 248] 0) by (vm_compute; repeat split; reflexivity).
  assert (H3 : Forall (fun y => y <> 0) [192; 248]) by (repeat constructor; intro; discriminate).
  assert (H4 : ascending ex_a [192; 248]) by (repeat constructor; vm_compute; reflexivity).
  split_and!; [exact H1 | exact H2 | exact H3 | exact H4 |].
  exact (findSpliceForLevel_correct ex_s ex_a (ukey "d" 1) 0 136 [192; 248] H1 H2 H3 H4).
Defined.

(** C2: on a well-formed skiplist (every chain strictly ascending, every
    node of a level on the level below), findNear returns the leftmost node
    of the base chain with a key after [k] (less = false, allowEqual = false)
    or not before [k] (false, true), the rightmost node with a key before [k]
    (true, false) or not after [k] (true, true), nil when there is none; the
    boolean is true exactly when the returned node holds the key [k]. *)
Theorem findNear_correct s a Ls k less allowEqual :
  wf s a Ls ->
  exists n b,
    findNear s k less allowEqual = Ok (n, b) /\
    extremal less (near_pred a k less allowEqual) (Ls 0%nat) n /\
    (b = true <-> n <> 0 /\ Compare k (nkey a n) = 0).
Proof.
  intros WF. destruct (findNear_split s a Ls WF k less allowEqual) as (P & Q & Hsp & E).
  destruct (near_result_extremal a k less allowEqual (Ls 0%nat) P Q Hsp
              (wf_base_sorted s a Ls WF)) as [Hext Hb].
  { intros y Hy. by apply (wf_base_nonzero s a Ls WF). }
  destruct (near_result a k less allowEqual P Q) as [n b]. by exists n, b.
Qed.

Lemma findNear_correct_witness :
  wf ex_s ex_a ex_Ls /\
  exists n b,
    findNear ex_s (ukey "c" 1) true false = Ok (n, b) /\
    extremal true (near_pred ex_a (ukey "c" 1) true false) (ex_Ls 0%nat) n /\
    (b = true <-> n <> 0 /\ Compare (ukey "c" 1) (nkey ex_a n) = 0).
Proof.
  assert (H : wf ex_s ex_a ex_Ls) by eval_wf.
  split; [exact H|].
  exact (findNear_correct ex_s ex_a ex_Ls (ukey "c" 1) true false H).
Defined.

(** ** A new skiplist, whatever the size of its arena *)

Lemma newSkiplist_Ok sz s :
  newSkiplist sz = Ok s ->
  s_height s = 1 /\ s_head s = 8 /\
  exists a, s_arena s = Some a /\ forall l, (l < 20)%nat -> next a l 8 = Some 0.
Proof.
  unfold newSkiplist, newNode, putNode, putKey, putVal, bump.
  cbn [a_n a_cap newArena bind].
  repeat (case_match; cbn [bind a_n a_cap getNode deref a_nodes]; try done;
          rewrite ?lookup_insert_eq; cbn [bind]).
  intros [= <-]. cbn [s_height s_head s_arena]. split_and!; [done | done |].
  eexists. split; [done|]. intros l Hl. unfold next, set_nodes. cbn [a_nodes].
  vm_compute (_ - _ + _). rewrite lookup_insert_eq. cbn [n_tower zeroNode].
  apply lookup_replicate_2. vm_compute (Z.to_nat _). done.
Qed.

Lemma newSkiplist_wf sz s :
  newSkiplist sz = Ok s -> exists a, wf s a (fun _ => []).
Proof.
  intros Hnew. destruct (newSkiplist_Ok sz s Hnew) as (Hh & Hhd & a & Ha & Hn).
  exists a. split; rewrite ?Hh, ?Hhd; try done.
  - intros l Hl. cbn. apply Hn. lia.
  - intros l x _ Hx. by apply elem_of_nil in Hx.
  - intros l _. constructor.
Qed.

(** C8: on a well-formed skiplist the reads return, and what findNear and
    findLast return is never the head; on a new skiplist, Empty is true, Get
    gives the empty value for every key, and SeekToFirst leaves the iterator
    not valid. *)
Theorem reads_total s a Ls :
  wf s a Ls ->
  (forall k less allowEqual,
     exists n b, findNear s k less allowEqual = Ok (n, b) /\ n <> s_head s) /\
  (exists n, findLast s = Ok n /\ n <> s_head s) /\
  (exists e, Empty s = Ok e) /\
  (forall k, exists v, Get s k = Ok v) /\
  (exists it, SeekToFirst s = Ok it) /\
  (exists ks, forward s = Ok ks) /\
  (forall sz s0, newSkiplist sz = Ok s0 ->
     Empty s0 = Ok true /\
     (forall k, Get s0 k = Ok emptyValue) /\
     exists it, SeekToFirst s0 = Ok it /\ Valid it = false).
Proof.
  intros WF. pose proof (wf_head _ _ _ WF) as Hhd. pose proof (wf_height _ _ _ WF) as Hh.
  assert (Hlast : exists n, findLast s = Ok n /\ n <> s_head s).
  { rewrite (findLast_last s a Ls WF). eexists. split; [done|].
    destruct (last_in (Ls 0%nat) 0) as [->|Hin]; [done|].
    by apply (wf_base_nonzero s a Ls WF). }
  split_and!.
  - intros k less allowEqual.
    destruct (findNear_split s a Ls WF k less allowEqual) as (P0 & Q0 & Hsp & E).
    destruct (near_result_extremal a k less allowEqual (Ls 0%nat) P0 Q0 Hsp
                (wf_base_sorted s a Ls WF)) as [Hext _].
    { intros y Hy. by apply (wf_base_nonzero s a Ls WF). }
    destruct (near_result a k less allowEqual P0 Q0) as [n b]. cbn [fst] in Hext.
    exists n, b. split; [done|].
    destruct Hext as [[-> _] | (_ & _ & P & Q & EL & _)]; [done|].
    apply (wf_base_nonzero s a Ls WF). rewrite EL. apply elem_of_app. right. by left.
  - done.
  - destruct Hlast as (n & E & _). unfold Empty. rewrite E. by eexists.
  - intros k. destruct (Get_wf s a Ls k WF) as (P & Q & _ & E). by eexists.
  - unfold SeekToFirst.
    rewrite (getNext_next0 s a _ _ (wf_arena _ _ _ WF)
               (linked_first _ _ _ _ _ (wf_chain _ _ _ WF 0%nat ltac:(lia)))).
    by eexists.
  - rewrite (forward_wf s a Ls WF). by eexists.
  - intros sz s0 Hnew. destruct (newSkiplist_wf sz s0 Hnew) as [a0 WF0].
    split_and!.
    + unfold Empty. by rewrite (findLast_last s0 a0 _ WF0).
    + intros k. destruct (Get_wf s0 a0 _ k WF0) as (P & Q & (E & _) & ->).
      symmetry in E. apply app_eq_nil in E as [_ ->]. done.
    + pose proof (wf_height _ _ _ WF0).
      unfold SeekToFirst.
      rewrite (getNext_next0 s0 a0 _ _ (wf_arena _ _ _ WF0)
                 (linked_first _ _ _ _ _ (wf_chain _ _ _ WF0 0%nat ltac:(lia)))).
      by eexists.
Qed.

Lemma reads_total_witness :
  wf ex_s ex_a ex_Ls /\
  (forall k less allowEqual,
     exists n b, findNear ex_s k less allowEqual = Ok (n, b) /\ n <> s_head ex_s) /\
  (exists n, findLast ex_s = Ok n /\ n <> s_head ex_s).
Proof.
  assert (H : wf ex_s ex_a ex_Ls) by eval_wf.
  split; [exact H|].
  destruct (reads_total ex_s ex_a ex_Ls H) as (H1 & H2 & _).
  exact (conj H1 H2).
Defined.

(** ** Get and the versions of a user key *)

Lemma Compare_bytes k k' :
  Compare k k' <= 0 -> bytesCompare (UserKey k) (UserKey k') <= 0.
Proof.
  unfold Compare. destruct (Z.eqb_spec (bytesCompare (UserKey k) (UserKey k')) 0); lia.
Qed.

Lemma Compare_same_user k k' :
  UserKey k = UserKey k' -> (Compare k k' <= 0 <-> Version k' <= Version k).
Proof.
  intros E. unfold Compare. rewrite E, bytesCompare_refl. cbn.
  destruct (Z.gtb_spec (Version k) (Version k')); [lia|].
  destruct (Z.ltb_spec (Version k) (Version k')); lia.
Qed.

Lemma Compare_sandwich k q m :
  Compare k q <= 0 -> Compare q m <= 0 -> UserKey k = UserKey m -> UserKey q = UserKey k.
Proof.
  intros H1 H2 E. apply Compare_bytes in H1. apply Compare_bytes in H2.
  rewrite <- E in H2. rewrite (bytesCompare_antisym (UserKey k) (UserKey q)) in H2.
  symmetry. apply bytesCompare_eq. lia.
Qed.

Lemma SameUserKey_eq k k' : SameUserKey k k' = true <-> UserKey k = UserKey k'.
Proof.
  unfold SameUserKey. rewrite Z.eqb_eq. split; [apply bytesCompare_eq|].
  intros ->. apply bytesCompare_refl.
Qed.

(** C3: on a well-formed skiplist, Get k is the empty value when findNear
    (less = false, allowEqual = true) finds no node or a node of another
    user key; otherwise its Meta, UserMeta, ExpiresAt and Value fields are
    those of the value of the node found, and its Version field is the
    Version of the node's key.  So Get gives the value of the newest stored
    version of the user key that is not after the requested Version, and
    the empty value when there is none: with "k"@3 and "k"@7 stored, Get
    "k"@5 gives the value stored at version 3, with 3 as its Version. *)
Theorem Get_correct s a Ls k :
  wf s a Ls ->
  (exists n b, findNear s k false true = Ok (n, b) /\
     Get s k = Ok (if (n =? 0) || negb (SameUserKey k (nkey a n)) then emptyValue
                   else mkValue (Meta (nval a n)) (UserMeta (nval a n))
                                (ExpiresAt (nval a n)) (Value (nval a n))
                                (Version (nkey a n)))) /\
  (forall m, m ∈ Ls 0%nat ->
     UserKey (nkey a m) = UserKey k -> Version (nkey a m) <= Version k ->
     (forall y, y ∈ Ls 0%nat -> UserKey (nkey a y) = UserKey k ->
                Version (nkey a y) <= Version k -> Version (nkey a y) <= Version (nkey a m)) ->
     Get s k = Ok (mkValue (Meta (nval a m)) (UserMeta (nval a m))
                           (ExpiresAt (nval a m)) (Value (nval a m))
                           (Version (nkey a m)))) /\
  ((forall y, y ∈ Ls 0%nat ->
      ~ (UserKey (nkey a y) = UserKey k /\ Version (nkey a y) <= Version k)) ->
   Get s k = Ok emptyValue) /\
  (let* s1 := build 4096 [(ukey "k" 3, payload "o", draws1); (ukey "k" 7, payload "n", draws1)] in
   Get s1 (ukey "k" 5)) = Ok (mkValue x00 x00 0 (Value (payload "o")) 3).
Proof.
  intros WF.
  destruct (Get_wf s a Ls k WF) as (P & Q & Hsp & EGet).
  destruct (near_split_signs a k _ P Q Hsp (wf_base_sorted s a Ls WF)) as (SP & SQ & SQ').
  pose proof Hsp as (EL & _ & _).
  split_and!.
  - destruct (findNear_split s a Ls WF k false true) as (P' & Q' & Hsp' & E).
    destruct (near_result a k false true P' Q') as [n b] eqn:Enr.
    exists n, b. split; [exact E|].
    unfold Get. rewrite E. cbn [bind]. unfold near_result in Enr.
    destruct Q' as [|q Q''].
    + injection Enr as <- <-. done.
    + assert (n = q) as -> by (destruct (Compare k (nkey a q) =? 0); by injection Enr).
      assert (Hq : q ∈ Ls 0%nat) by (destruct Hsp' as (-> & _); set_solver).
      destruct (wf_base_nonzero s a Ls WF q Hq) as [Hq0 _].
      pose proof (wf_height _ _ _ WF) as Hh.
      destruct (wf_is_node s a Ls WF 0%nat q ltac:(lia) Hq) as [nd Hnd].
      rewrite (valueOf_node s a k q nd (wf_arena _ _ _ WF) Hq0 Hnd).
      apply Z.eqb_neq in Hq0. rewrite Hq0. cbn [orb].
      by destruct (SameUserKey k (nkey a q)).
  - intros m Hm Hu Hver Hmax. rewrite EGet. f_equal.
    assert (Hkm : Compare k (nkey a m) <= 0) by (by apply Compare_same_user).
    rewrite EL in Hm. apply elem_of_app in Hm as [Hm|Hm]; [specialize (SP m Hm); lia|].
    destruct Q as [|q Q']; [by apply elem_of_nil in Hm|].
    assert (Hq : q ∈ Ls 0%nat) by (rewrite EL; set_solver).
    assert (Hkq : Compare k (nkey a q) <= 0) by (apply SQ; by left).
    assert (Hqm : q = m \/ klt (nkey a q) (nkey a m)).
    { apply elem_of_cons in Hm as [->|Hm]; [by left | right].
      pose proof (wf_base_sorted s a Ls WF) as Hs. rewrite EL in Hs.
      apply ascending_app in Hs as (_ & Hs & _). apply ascending_cons in Hs as [_ Hs].
      by apply Hs. }
    destruct Hqm as [->|Hlt]; cbn [get_result].
    + rewrite (proj2 (SameUserKey_eq k (nkey a m))) by done. done.
    + exfalso. assert (Hqm : Compare (nkey a q) (nkey a m) <= 0) by (unfold klt in Hlt; lia).
      pose proof (Compare_sandwich k (nkey a q) (nkey a m) Hkq Hqm (eq_sym Hu)) as Huq.
      assert (Version (nkey a q) <= Version k) as Hvq by (by apply (Compare_same_user k); [|done]).
      specialize (Hmax q Hq Huq Hvq).
      assert (Version (nkey a m) <= Version (nkey a q)) as Hvm.
      { apply (Compare_same_user (nkey a q) (nkey a m)); [congruence | done]. }
      assert (nkey a q = nkey a m) as Heq.
      { destruct (nkey a q) as [u1 v1], (nkey a m) as [u2 v2]. cbn in *. f_equal; [congruence | lia]. }
      rewrite Heq in Hlt. by apply klt_irrefl in Hlt.
  - intros Hnone. rewrite EGet. f_equal. destruct Q as [|q Q']; [done|].
    cbn [get_result]. destruct (SameUserKey k (nkey a q)) eqn:Hsame; [|done].
    exfalso. apply SameUserKey_eq in Hsame.
    apply (Hnone q); [rewrite EL; set_solver|]. split; [done|].
    apply (Compare_same_user k); [done|]. apply SQ. by left.
  - vm_compute. reflexivity.
Qed.

Lemma Get_correct_witness :
  wf ex_v ex_va ex_vLs /\
  Get ex_v (ukey "k" 5) =
    Ok (mkValue (Meta (nval ex_va 136)) (UserMeta (nval ex_va 136))
                (ExpiresAt (nval ex_va 136)) (Value (nval ex_va 136))
                (Version (nkey ex_va 136))).
Proof.
  assert (H : wf ex_v ex_va ex_vLs) by eval_wf.
  split; [exact H|].
  destruct (Get_correct ex_v ex_va ex_vLs (ukey "k" 5) H) as (_ & H2 & _).
  apply (H2 136).
  - vm_compute. repeat constructor.
  - vm_compute. reflexivity.
  - vm_compute. intro. discriminate.
  - intros y Hy Hu Hv. mem_cases Hy.
    + exfalso. vm_compute in Hv. apply Hv. reflexivity.
    + vm_compute. intro. discriminate.
Defined.

(** ** Put after put *)

(** The keys of an ascending list are distinct. *)
Lemma ascending_key_inj a L x y :
  ascending a L -> x ∈ L -> y ∈ L -> nkey a x = nkey a y -> x = y.
Proof.
  intros Hs Hx Hy E. apply list_elem_of_split in Hx as (P & Q & ->).
  apply ascending_app in Hs as (_ & Hs & HPQ). apply ascending_cons in Hs as [_ Hs].
  apply elem_of_app in Hy as [Hy|Hy].
  - specialize (HPQ y x Hy ltac:(by left)). rewrite E in HPQ. by apply klt_irrefl in HPQ.
  - apply elem_of_cons in Hy as [->|Hy]; [done|].
    specialize (Hs y Hy). rewrite E in Hs. by apply klt_irrefl in Hs.
Qed.

(** What Get and forward give on a skiplist that holds a node for [k]. *)
Lemma Get_present s a L k e :
  Inv s a L -> e ∈ L -> nkey a e = k ->
  Get s k = Ok (setVersion (nval a e) (Version k)) /\
  exists ks1 ks2, forward s = Ok (ks1 ++ k :: ks2) /\ (k ∉ ks1) /\ (k ∉ ks2).
Proof.
  intros INV He Hk. pose proof (Inv_wf s a L INV) as WF.
  pose proof (Inv_levels0 s a L INV) as E0. split.
  - destruct (Get_wf s a _ k WF) as (P & Q & Hsp & ->). f_equal. rewrite E0 in Hsp.
    destruct (near_split_signs a k L P Q Hsp (inv_sorted _ _ _ INV)) as (SP & SQ & SQ').
    destruct Hsp as (EL & _ & _).
    assert (HeQ : e ∈ Q).
    { rewrite EL in He. apply elem_of_app in He as [He|He]; [|done].
      specialize (SP e He). rewrite Hk, Compare_refl in SP. lia. }
    destruct Q as [|q Q']; [by apply elem_of_nil in HeQ|].
    assert (q = e) as ->.
    { apply elem_of_cons in HeQ as [->|HeQ]; [done|].
      specialize (SQ' q Q' eq_refl e HeQ). rewrite Hk, Compare_refl in SQ'. lia. }
    cbn [get_result]. rewrite Hk.
    by rewrite (proj2 (SameUserKey_eq k k)).
  - rewrite (forward_wf s a _ WF), E0.
    pose proof He as He'. apply list_elem_of_split in He' as (X & Y & EL).
    exists (map (nkey a) X), (map (nkey a) Y).
    split; [by rewrite EL, map_app, map_cons, Hk|].
    assert (Hother : forall y, y ∈ L -> nkey a y = k -> y = e).
    { intros y Hy Hyk. apply (ascending_key_inj a L); [apply (inv_sorted _ _ _ INV) | done | done | congruence]. }
    pose proof (ascending_NoDup a L (inv_sorted _ _ _ INV)) as Hnd. rewrite EL in Hnd.
    apply NoDup_app in Hnd as (_ & HXY & HndY). apply NoDup_cons in HndY as [HeY _].
    split; intros Hin; apply list_elem_of_In, in_map_iff in Hin as (y & Hyk & Hy);
      apply list_elem_of_In in Hy.
    + assert (y = e) as -> by (apply Hother; [rewrite EL; apply elem_of_app; by left | done]).
      apply (HXY e Hy). by left.
    + assert (y = e) as -> by (apply Hother; [rewrite EL; apply elem_of_app; right; by right | done]).
      done.
Qed.




(** ** The height of the list *)

Lemma putSearch_height k v : forall cnt s h s' h' b,
  putSearch cnt s k v h = Ok (s', h', b) ->
  s_height s' = s_height s /\ s_head s' = s_head s.
Proof.
  induction cnt as [|i IH]; intros s h s' h' b Hp; cbn [putSearch] in Hp.
  - by injection Hp as <- _ _.
  - apply bind_Ok in Hp as (before & _ & Hp).
    apply bind_Ok in Hp as ([[p n] m] & _ & Hp).
    apply bind_Ok in Hp as (prev & _ & Hp).
    apply bind_Ok in Hp as (next & _ & Hp).
    destruct m; [|by eapply IH].
    apply bind_Ok in Hp as (a & _ & Hp).
    apply bind_Ok in Hp as (nd & _ & Hp).
    apply bind_Ok in Hp as (a' & _ & Hp).
    apply bind_Ok in Hp as (h2 & _ & Hp).
    by injection Hp as <- _ _.
Qed.

Lemma insertAt_height k x i : forall fuel s h b s' h' b',
  insertAt fuel s k x i h b = Ok (s', h', b') ->
  s_height s' = s_height s /\ s_head s' = s_head s.
Proof.
  induction fuel as [|fuel IH]; intros s h b s' h' b' Hp; cbn [insertAt] in Hp; [done|].
  apply bind_Ok in Hp as (a & _ & Hp).
  apply bind_Ok in Hp as (nx & _ & Hp).
  apply bind_Ok in Hp as (a1 & _ & Hp).
  apply bind_Ok in Hp as (p & _ & Hp).
  apply bind_Ok in Hp as ([swapped a2] & _ & Hp).
  destruct swapped.
  - by injection Hp as <- _ _.
  - apply bind_Ok in Hp as ([[p' n'] m] & _ & Hp).
    apply bind_Ok in Hp as (prev & _ & Hp).
    apply bind_Ok in Hp as (next & _ & Hp).
    by apply IH in Hp.
Qed.

Lemma insertLevels_height k x : forall cnt i s h b s' h' b',
  insertLevels cnt s k x i h b = Ok (s', h', b') ->
  s_height s' = s_height s /\ s_head s' = s_head s.
Proof.
  induction cnt as [|cnt IH]; intros i s h b s' h' b' Hp; cbn [insertLevels] in Hp.
  - by injection Hp as <- _ _.
  - apply bind_Ok in Hp as ([[s1 h1] b1] & H1 & Hp).
    apply insertAt_height in H1 as [E1 E2]. apply IH in Hp as [E3 E4].
    split; congruence.
Qed.

Lemma PutWithHint_height s k v h rnd s' h' :
  PutWithHint s k v h rnd = Ok (s', h') ->
  s_height s' = Z.max (s_height s) (randomHeight rnd) /\ s_head s' = s_head s.
Proof.
  unfold PutWithHint, getHeight. set (H := randomHeight rnd).
  set (s1 := if H >? s_height s then mkSkiplist H (s_head s) (s_arena s) else s).
  assert (E1 : s_height s1 = Z.max (s_height s) H /\ s_head s1 = s_head s).
  { subst s1. destruct (Z.gtb_spec H (s_height s)); cbn; split; try done; lia. }
  intros Hp.
  apply bind_Ok in Hp as ([rh h1] & _ & Hp).
  apply bind_Ok in Hp as ([[s2 h2] returned] & Hs & Hp).
  assert (E2 : s_height s2 = s_height s1 /\ s_head s2 = s_head s1).
  { destruct (rh >? 0); [by apply putSearch_height in Hs | by injection Hs as <- _ _]. }
  destruct returned.
  - injection Hp as <- _. destruct E1, E2. split; congruence.
  - apply bind_Ok in Hp as (a & _ & Hp).
    apply bind_Ok in Hp as ([x a1] & _ & Hp).
    apply bind_Ok in Hp as ([[s3 h3] b3] & Hi & Hp).
    apply insertLevels_height in Hi as [E3 E4]. cbn [set_arena s_height s_head] in E3, E4.
    assert (s' = s3) as ->.
    { destruct b3; [apply bind_Ok in Hp as (h4 & _ & Hp)|]; by injection Hp as <- _. }
    destruct E1, E2. split; congruence.
Qed.

Lemma putsWithHint_height ops : forall s s',
  putsWithHint ops s = Ok s' -> 1 <= s_height s <= maxHeight ->
  s_height s <= s_height s' <= maxHeight.
Proof.
  induction ops as [|[[[k v] h] rnd] ops IH]; intros s s' Hp Hh; cbn [putsWithHint] in Hp.
  - injection Hp as <-. lia.
  - apply bind_Ok in Hp as ([s1 h1] & H1 & Hp).
    apply PutWithHint_height in H1 as [E _].
    pose proof (randomHeight_range rnd).
    specialize (IH s1 s' Hp). lia.
Qed.

(** C6: randomHeight is in [1, maxHeight] with maxHeight = 20; a put, with
    any hint, leaves the height of the list as it was or replaces it with
    the strictly larger height it drew; so along every sequence of puts on a
    new skiplist the height never decreases and stays in [1, 20]. *)
Theorem height_monotone :
  maxHeight = 20 /\
  (forall rnd, 1 <= randomHeight rnd <= maxHeight) /\
  (forall s k v h rnd s' h',
     PutWithHint s k v h rnd = Ok (s', h') ->
     s_height s' = s_height s \/
     (s_height s < s_height s' /\ s_height s' = randomHeight rnd)) /\
  (forall sz s0 ops1 s1 ops2 s2,
     newSkiplist sz = Ok s0 ->
     putsWithHint ops1 s0 = Ok s1 -> putsWithHint ops2 s1 = Ok s2 ->
     1 <= s_height s1 /\ s_height s1 <= s_height s2 /\ s_height s2 <= maxHeight).
Proof.
  split_and!; [done | apply randomHeight_range | |].
  - intros s k v h rnd s' h' Hp. apply PutWithHint_height in Hp as [E _]. lia.
  - intros sz s0 ops1 s1 ops2 s2 Hnew H1 H2.
    destruct (newSkiplist_Ok sz s0 Hnew) as (Hh & _).
    pose proof (putsWithHint_height ops1 s0 s1 H1 ltac:(unfold maxHeight; lia)).
    pose proof (putsWithHint_height ops2 s1 s2 H2 ltac:(lia)). lia.
Qed.

Lemma height_monotone_witness :
  PutWithHint ex_s (ukey "b" 1) (payload "4") (Some newHint) draws2 = Ok (hput_s, hput_h) /\
  (s_height hput_s = s_height ex_s \/
   (s_height ex_s < s_height hput_s /\ s_height hput_s = randomHeight draws2)).
Proof.
  assert (H : PutWithHint ex_s (ukey "b" 1) (payload "4") (Some newHint) draws2 =
              Ok (hput_s, hput_h)) by (vm_compute; reflexivity).
  split; [exact H|].
  exact (proj1 (proj2 (proj2 height_monotone))
           ex_s (ukey "b" 1) (payload "4") (Some newHint) draws2 hput_s hput_h H).
Defined.

(** ** Puts and lookups through a hint *)

(** C1 fails on the code: after Put "c"@1, PutWithHint "a"@1 with a new hint
    and PutWithHint "c"@1 with the hint as the second put left it, the base
    chain is head, "a"@1, "c"@1, "c"@1: the third put found the hint valid at
    level 0 and linked a new node (240) before the node (136) that already
    held "c"@1, whose value it did not touch. *)
Theorem PutWithHint_duplicates :
  exists h, hinted_run = Ok (hinted_s, h) /\
  s_head hinted_s = 8 /\
  next (arena_of hinted_s) 0 8 = Some 192 /\
  next (arena_of hinted_s) 0 192 = Some 240 /\
  next (arena_of hinted_s) 0 240 = Some 136 /\
  next (arena_of hinted_s) 0 136 = Some 0 /\
  nkey (arena_of hinted_s) 192 = ukey "a" 1 /\
  nkey (arena_of hinted_s) 240 = ukey "c" 1 /\
  nkey (arena_of hinted_s) 136 = ukey "c" 1 /\
  nval (arena_of hinted_s) 240 = payload "3" /\
  nval (arena_of hinted_s) 136 = payload "1".
Proof. eexists. vm_compute. repeat split; reflexivity. Qed.

(** C5 fails on the code: after the same three puts, forward iteration
    visits "a"@1, "c"@1, "c"@1: the keys are not strictly ascending and the
    pair ("c", 1) is visited twice. *)
Theorem forward_after_hinted_puts :
  forward hinted_s = Ok [ukey "a" 1; ukey "c" 1; ukey "c" 1] /\
  ~ StronglySorted klt [ukey "a" 1; ukey "c" 1; ukey "c" 1] /\
  ~ NoDup [ukey "a" 1; ukey "c" 1; ukey "c" 1].
Proof.
  split_and!.
  - vm_compute. reflexivity.
  - intros Hs. apply StronglySorted_inv in Hs as [Hs _].
    apply StronglySorted_inv in Hs as [_ Hs]. apply Forall_cons in Hs as [Hs _].
    by apply klt_irrefl in Hs.
  - intros Hnd. apply NoDup_cons in Hnd as [_ Hnd]. apply NoDup_cons in Hnd as [Hnd _].
    apply Hnd. by left.
Qed.

(** C10 fails on the code: with "a"@1 and "k"@3 stored, Get "k"@5 returns
    the value stored at "k"@3; GetWithHint "k"@5 returns the empty value
    with no hint and with a new hint, and the value stored at "k"@3 with the
    hint a lookup of "b"@1 left. *)
Theorem GetWithHint_differs :
  Get lookup_s (ukey "k" 5) = Ok (setVersion (payload "o") 3) /\
  (let* (v, _) := GetWithHint lookup_s (ukey "k" 5) None in Ok v) = Ok emptyValue /\
  (let* (v, _) := GetWithHint lookup_s (ukey "k" 5) (Some newHint) in Ok v) = Ok emptyValue /\
  (let* (v, _) := GetWithHint lookup_s (ukey "k" 5) lookup_hint in Ok v)
    = Ok (setVersion (payload "o") 3).
Proof. repeat split; vm_compute; reflexivity. Qed.

(** * Iterators *)

(** ** The position of a key in an ascending chain *)

Lemma near_split_unique a k L P Q P' Q' :
  near_split a k L P Q -> near_split a k L P' Q' -> P = P' /\ Q = Q'.
Proof.
  intros (-> & HP & HQ) (E & HP' & HQ'). revert P' E HP'.
  induction P as [|p P IH]; intros P' E HP'.
  - destruct P' as [|p' P']; [done|]. exfalso.
    cbn in E. subst Q. apply Forall_cons in HQ as [HQ _]. apply Forall_cons in HP' as [HP' _].
    done.
  - destruct P' as [|p' P'].
    + exfalso. cbn in E. subst Q'. apply Forall_cons in HQ' as [HQ' _].
      apply Forall_cons in HP as [HP _]. done.
    + cbn in E. injection E as <- E. apply Forall_cons in HP as [_ HP].
      apply Forall_cons in HP' as [_ HP']. destruct (IH HP P' E HP') as [-> ->]. done.
Qed.

Lemma node_split a P n Q :
  ascending a (P ++ n :: Q) -> near_split a (nkey a n) (P ++ n :: Q) P (n :: Q).
Proof.
  intros Hs. apply ascending_app in Hs as (_ & HnQ & HPn).
  apply ascending_cons in HnQ as [_ HnQ].
  split_and!; [done | |].
  - apply Forall_forall. intros y Hy. apply HPn; [done | by left].
  - apply Forall_cons. split; [apply klt_irrefl|].
    apply Forall_forall. intros y Hy Hlt. specialize (HnQ y Hy).
    apply (klt_irrefl (nkey a n)). by eapply klt_trans.
Qed.

Lemma filter_split {A} (R : A -> Prop) `{!forall x, Decision (R x)} (P Q : list A) :
  Forall R P -> Forall (fun y => ~ R y) Q -> filter R (P ++ Q) = P.
Proof.
  intros HP HQ. rewrite filter_app.
  assert (filter R P = P) as ->.
  { induction HP as [|x P Hx HP IH]; [done|]. by rewrite filter_cons, decide_True, IH. }
  assert (filter R Q = []) as ->; [|by rewrite app_nil_r].
  induction HQ as [|x Q Hx HQ IH]; [done|]. by rewrite filter_cons, decide_False.
Qed.

Lemma filter_split_r {A} (R : A -> Prop) `{!forall x, Decision (R x)} (P Q : list A) :
  Forall (fun y => ~ R y) P -> Forall R Q -> filter R (P ++ Q) = Q.
Proof.
  intros HP HQ. rewrite filter_app.
  assert (filter R Q = Q) as ->.
  { induction HQ as [|x Q Hx HQ IH]; [done|]. by rewrite filter_cons, decide_True, IH. }
  assert (filter R P = []) as ->; [|done].
  induction HP as [|x P Hx HP IH]; [done|]. by rewrite filter_cons, decide_False.
Qed.

(** ** One step of an iterator *)

Section Steps.

Context (s : skiplist) (a : arena) (Ls : nat -> list Z).
Hypothesis WF : wf s a Ls.

Lemma base_node n : n ∈ Ls 0%nat -> n <> 0 /\ exists nd, a_nodes a !! n = Some nd.
Proof.
  intros Hn. pose proof (wf_height _ _ _ WF) as Hh. split.
  - by apply (wf_base_nonzero s a Ls WF).
  - apply (wf_is_node s a Ls WF 0%nat); [lia | done].
Qed.

Lemma it_Key_spec n : n ∈ Ls 0%nat -> it_Key s (mkIterator n) = Ok (nkey a n).
Proof.
  intros Hn. destruct (base_node n Hn) as (_ & nd & Hnd).
  unfold it_Key, the_arena. rewrite (wf_arena _ _ _ WF). cbn [bind it_n].
  by apply (key_nkey a n nd).
Qed.

Lemma it_Value_spec n : n ∈ Ls 0%nat -> it_Value s (mkIterator n) = Ok (nval a n).
Proof.
  intros Hn. destruct (base_node n Hn) as (_ & nd & Hnd).
  unfold it_Value, the_arena, deref, nval. rewrite (wf_arena _ _ _ WF). cbn [bind it_n].
  rewrite Hnd. cbn [bind]. by destruct (getValueOffset nd).
Qed.

Lemma Next_spec P n Q :
  Ls 0%nat = P ++ n :: Q -> Next s (mkIterator n) = Ok (mkIterator (List.hd 0 Q)).
Proof.
  intros E. pose proof (wf_height _ _ _ WF) as Hh.
  pose proof (wf_chain _ _ _ WF 0%nat ltac:(lia)) as Hch. rewrite E in Hch.
  apply linked_app in Hch as [_ Hch]. apply linked_first in Hch.
  unfold Next. cbn [it_n]. by rewrite (getNext_next0 s a n _ (wf_arena _ _ _ WF) Hch).
Qed.

Lemma Prev_spec P n Q :
  Ls 0%nat = P ++ n :: Q -> Prev s (mkIterator n) = Ok (mkIterator (List.last P 0)).
Proof.
  intros E. assert (Hn : n ∈ Ls 0%nat) by (rewrite E; set_solver).
  unfold Prev. rewrite (it_Key_spec n Hn). cbn [bind].
  destruct (findNear_split s a Ls WF (nkey a n) true false) as (P' & Q' & Hsp & ->).
  pose proof (wf_base_sorted s a Ls WF) as Hs. rewrite E in Hs, Hsp.
  destruct (near_split_unique _ _ _ _ _ _ _ Hsp (node_split a P n Q Hs)) as [-> ->].
  unfold near_result. by rewrite Compare_refl.
Qed.

(** ** The loop of a caller *)

Lemma scan_loop_end fuel reversed :
  (0 < fuel)%nat -> scan_loop fuel s (mkUniIterator (mkIterator 0) reversed) = Ok [].
Proof. intros Hf. destruct fuel; [lia|]. done. Qed.

Lemma scan_loop_step fuel reversed n :
  n ∈ Ls 0%nat ->
  scan_loop (S fuel) s (mkUniIterator (mkIterator n) reversed) =
    let* u' := Uni.Next s (mkUniIterator (mkIterator n) reversed) in
    let* es := scan_loop fuel s u' in
    Ok (entry a n :: es).
Proof.
  intros Hn. destruct (base_node n Hn) as [Hn0 _].
  cbn [scan_loop]. unfold Uni.Valid, Valid, Uni.Key, Uni.Value. cbn [u_iter it_n].
  apply Z.eqb_neq in Hn0. rewrite Hn0. cbn [negb].
  by rewrite (it_Key_spec n Hn), (it_Value_spec n Hn).
Qed.

Lemma scan_loop_forward : forall Q fuel P n,
  Ls 0%nat = P ++ n :: Q -> (S (length Q) < fuel)%nat ->
  scan_loop fuel s (mkUniIterator (mkIterator n) false) = Ok (map (entry a) (n :: Q)).
Proof.
  induction Q as [|y Q IH]; intros fuel P n E Hf;
    (destruct fuel as [|fuel]; [simpl in Hf; lia|]);
    (rewrite scan_loop_step by (rewrite E; set_solver));
    unfold Uni.Next; cbn [u_reversed u_iter negb];
    rewrite (Next_spec P n _ E); cbn [bind List.hd].
  - rewrite scan_loop_end by (simpl in Hf; lia). done.
  - rewrite (IH fuel (P ++ [n]) y); [done | by rewrite <- app_assoc | simpl in Hf; lia].
Qed.

Lemma scan_loop_backward : forall P fuel n Q,
  Ls 0%nat = P ++ n :: Q -> (S (length P) < fuel)%nat ->
  scan_loop fuel s (mkUniIterator (mkIterator n) true) = Ok (rev (map (entry a) (P ++ [n]))).
Proof.
  induction P as [|p P IH] using rev_ind; intros fuel n Q E Hf;
    (destruct fuel as [|fuel]; [simpl in Hf; lia|]);
    (rewrite scan_loop_step by (rewrite E; set_solver));
    unfold Uni.Next; cbn [u_reversed u_iter negb];
    rewrite (Prev_spec _ n Q E); cbn [bind].
  - cbn [List.last]. rewrite scan_loop_end by (simpl in Hf; lia). done.
  - rewrite last_last. rewrite length_app in Hf. simpl in Hf.
    rewrite (IH fuel p (n :: Q)); [| by rewrite E, <- app_assoc | lia].
    cbn [bind]. by rewrite (map_app _ (P ++ [p]) [n]), rev_app_distr.
Qed.

Lemma base_fuel : (S (length (Ls 0%nat)) < fuel_of s)%nat.
Proof.
  pose proof (wf_height _ _ _ WF) as Hh.
  pose proof (chain_length_le _ _ _ _ _ (wf_chain _ _ _ WF 0%nat ltac:(lia))
                (wf_sorted _ _ _ WF 0%nat ltac:(lia))).
  unfold fuel_of. rewrite (wf_arena _ _ _ WF). unfold maxHeight. lia.
Qed.

Lemma SeekToFirst_spec : SeekToFirst s = Ok (mkIterator (List.hd 0 (Ls 0%nat))).
Proof.
  pose proof (wf_height _ _ _ WF) as Hh. unfold SeekToFirst.
  by rewrite (getNext_next0 s a _ _ (wf_arena _ _ _ WF)
               (linked_first _ _ _ _ _ (wf_chain _ _ _ WF 0%nat ltac:(lia)))).
Qed.

Lemma SeekToLast_spec : SeekToLast s = Ok (mkIterator (List.last (Ls 0%nat) 0)).
Proof. unfold SeekToLast. by rewrite (findLast_last s a Ls WF). Qed.

Lemma scan_forward_from Q P :
  Ls 0%nat = P ++ Q ->
  scan_loop (fuel_of s) s (mkUniIterator (mkIterator (List.hd 0 Q)) false) =
    Ok (map (entry a) Q).
Proof.
  intros E. pose proof base_fuel as Hf. rewrite E, length_app in Hf.
  destruct Q as [|q Q]; [apply scan_loop_end; lia|].
  apply (scan_loop_forward Q _ P q E). simpl in Hf. lia.
Qed.

Lemma scan_backward_from P Q :
  Ls 0%nat = P ++ Q ->
  scan_loop (fuel_of s) s (mkUniIterator (mkIterator (List.last P 0)) true) =
    Ok (rev (map (entry a) P)).
Proof.
  intros E. pose proof base_fuel as Hf. rewrite E, length_app in Hf.
  destruct (decide (P = [])) as [->|Hne]; [apply scan_loop_end; lia|].
  destruct (exists_last Hne) as (P' & p & ->).
  rewrite last_last. apply (scan_loop_backward P' _ p Q).
  - by rewrite E, <- app_assoc.
  - rewrite length_app in Hf. simpl in Hf. lia.
Qed.

End Steps.

Lemma scan_forward_wf s a Ls :
  wf s a Ls -> scan s false = Ok (map (entry a) (Ls 0%nat)).
Proof.
  intros WF. unfold scan, Uni.Rewind, NewUniIterator. cbn [u_reversed negb].
  rewrite (SeekToFirst_spec s a Ls WF). cbn [bind].
  by apply (scan_forward_from s a Ls WF (Ls 0%nat) []).
Qed.

(** ** What a caller of the iterators sees *)

Lemma ascending_keys a L : ascending a L -> StronglySorted klt (map (nkey a) L).
Proof.
  induction 1 as [|x xs Hs IH Hx]; [constructor|].
  cbn [map]. constructor; [done|]. by apply Forall_map.
Qed.

(** X1: on a well-formed skiplist, the loop Rewind / Valid / Next of a
    UniIterator that is not reversed visits the entries of the base chain
    from the first to the last, in strictly ascending key order, the keys
    being those of the forward iteration; the loop of a reversed
    UniIterator visits the same entries in the opposite order. *)
Theorem scan_rewind s a Ls :
  wf s a Ls ->
  exists es,
    scan s false = Ok es /\ scan s true = Ok (rev es) /\
    es = map (entry a) (Ls 0%nat) /\
    forward s = Ok (map fst es) /\
    StronglySorted klt (map fst es).
Proof.
  intros WF. exists (map (entry a) (Ls 0%nat)).
  assert (Hk : map fst (map (entry a) (Ls 0%nat)) = map (nkey a) (Ls 0%nat)).
  { rewrite map_map. by apply map_ext. }
  split_and!.
  - unfold scan, Uni.Rewind, NewUniIterator. cbn [u_reversed negb].
    rewrite (SeekToFirst_spec s a Ls WF). cbn [bind].
    by apply (scan_forward_from s a Ls WF (Ls 0%nat) []).
  - unfold scan, Uni.Rewind, NewUniIterator. cbn [u_reversed negb].
    rewrite (SeekToLast_spec s a Ls WF). cbn [bind].
    apply (scan_backward_from s a Ls WF (Ls 0%nat) []). by rewrite app_nil_r.
  - done.
  - rewrite Hk. by apply forward_wf.
  - rewrite Hk. apply ascending_keys, (wf_base_sorted s a Ls WF).
Qed.

Lemma scan_rewind_witness :
  wf ex_s ex_a ex_Ls /\
  exists es,
    scan ex_s false = Ok es /\ scan ex_s true = Ok (rev es) /\
    es = map (entry ex_a) (ex_Ls 0%nat) /\
    forward ex_s = Ok (map fst es) /\
    StronglySorted klt (map fst es).
Proof.
  assert (H : wf ex_s ex_a ex_Ls) by eval_wf.
  split; [exact H|]. exact (scan_rewind ex_s ex_a ex_Ls H).
Defined.

(** X2: on a well-formed skiplist, the loop of a UniIterator started by
    Seek k visits, when not reversed, exactly the entries whose key is not
    before k, in ascending order; when reversed, exactly the entries whose
    key is not after k, in descending order. *)
Theorem scan_from_seek s a Ls k :
  wf s a Ls ->
  scan_from s false k =
    Ok (map (entry a) (filter (fun y => Compare k (nkey a y) <= 0) (Ls 0%nat))) /\
  scan_from s true k =
    Ok (rev (map (entry a) (filter (fun y => 0 <= Compare k (nkey a y)) (Ls 0%nat)))).
Proof.
  intros WF. split.
  - unfold scan_from, Uni.Seek, NewUniIterator, Seek. cbn [u_reversed negb].
    destruct (findNear_split s a Ls WF k false true) as (P & Q & Hsp & ->).
    destruct (near_split_signs a k _ P Q Hsp (wf_base_sorted s a Ls WF)) as (SP & SQ & _).
    pose proof Hsp as (E & _ & _).
    assert (Hn : (near_result a k false true P Q).1 = List.hd 0 Q).
    { unfold near_result. destruct Q as [|q Q']; [done|].
      by destruct (Compare k (nkey a q) =? 0). }
    destruct (near_result a k false true P Q) as [n b]. cbn [fst] in Hn. subst n.
    cbn [bind]. rewrite (scan_forward_from s a Ls WF Q P E). do 2 f_equal.
    rewrite E. symmetry. apply filter_split_r.
    + apply Forall_forall. intros y Hy. specialize (SP y Hy). lia.
    + apply Forall_forall. intros y Hy. by apply SQ.
  - unfold scan_from, Uni.Seek, NewUniIterator, SeekForPrev. cbn [u_reversed negb].
    destruct (findNear_split s a Ls WF k true true) as (P & Q & Hsp & ->).
    destruct (near_split_signs a k _ P Q Hsp (wf_base_sorted s a Ls WF)) as (SP & SQ & SQ').
    pose proof Hsp as (E & _ & _).
    assert (HP : Forall (fun y => 0 <= Compare k (nkey a y)) P).
    { apply Forall_forall. intros y Hy. specialize (SP y Hy). lia. }
    unfold near_result. destruct Q as [|q Q'].
    + cbn [bind]. rewrite (scan_backward_from s a Ls WF P [] E). do 3 f_equal.
      rewrite E. symmetry. by apply filter_split.
    + destruct (Z.eqb_spec (Compare k (nkey a q)) 0) as [Hq|Hq]; cbn [bind].
      * assert (E' : Ls 0%nat = (P ++ [q]) ++ Q') by (by rewrite E, <- app_assoc).
        pose proof (scan_backward_from s a Ls WF (P ++ [q]) Q' E') as Hscan.
        rewrite last_last in Hscan. rewrite Hscan. do 3 f_equal.
        rewrite E'. symmetry. apply filter_split.
        -- apply Forall_app. split; [done|]. apply Forall_singleton. lia.
        -- apply Forall_forall. intros y Hy. specialize (SQ' q Q' eq_refl y Hy). lia.
      * rewrite (scan_backward_from s a Ls WF P (q :: Q') E). do 3 f_equal.
        rewrite E. symmetry. apply filter_split; [done|].
        apply Forall_forall. intros y Hy. apply elem_of_cons in Hy as [->|Hy].
        -- specialize (SQ q ltac:(by left)). lia.
        -- specialize (SQ' q Q' eq_refl y Hy). lia.
Qed.

Lemma scan_from_seek_witness :
  wf ex_s ex_a ex_Ls /\
  scan_from ex_s false (ukey "b" 1) =
    Ok (map (entry ex_a)
          (filter (fun y => Compare (ukey "b" 1) (nkey ex_a y) <= 0) (ex_Ls 0%nat))) /\
  scan_from ex_s true (ukey "b" 1) =
    Ok (rev (map (entry ex_a)
          (filter (fun y => 0 <= Compare (ukey "b" 1) (nkey ex_a y)) (ex_Ls 0%nat)))).
Proof.
  assert (H : wf ex_s ex_a ex_Ls) by eval_wf.
  split; [exact H|]. exact (scan_from_seek ex_s ex_a ex_Ls (ukey "b" 1) H).
Defined.

(** X3: on a well-formed skiplist, Next and Prev from a node of the base
    chain return and are inverse to each other: Prev of the node Next
    reaches is the node, and Next of the node Prev reaches is the node.
    Prev of the first node and Next of the last node leave the iterator not
    valid; Prev never reaches the head. *)
Theorem Next_Prev_inverse s a Ls n :
  wf s a Ls -> n ∈ Ls 0%nat ->
  exists p m,
    Prev s (mkIterator n) = Ok (mkIterator p) /\
    Next s (mkIterator n) = Ok (mkIterator m) /\
    (Valid (mkIterator m) = true -> Prev s (mkIterator m) = Ok (mkIterator n)) /\
    (Valid (mkIterator p) = true -> Next s (mkIterator p) = Ok (mkIterator n)) /\
    (Valid (mkIterator p) = false <-> head (Ls 0%nat) = Some n) /\
    (Valid (mkIterator m) = false <-> last (Ls 0%nat) = Some n) /\
    p <> s_head s.
Proof.
  intros WF Hn. apply list_elem_of_split in Hn as (P & Q & E).
  assert (Hnz : forall y, y ∈ Ls 0%nat -> y <> 0 /\ y <> s_head s)
    by (intros y; apply (wf_base_nonzero s a Ls WF)).
  pose proof (ascending_NoDup a _ (wf_base_sorted s a Ls WF)) as Hnd.
  exists (List.last P 0), (List.hd 0 Q).
  split_and!.
  - by apply (Prev_spec s a Ls WF P n Q).
  - by apply (Next_spec s a Ls WF P n Q).
  - destruct Q as [|m Q]; [done|]. intros _. cbn [List.hd].
    pose proof (Prev_spec s a Ls WF (P ++ [n]) m Q) as Hp.
    rewrite last_last in Hp. apply Hp. by rewrite E, <- app_assoc.
  - destruct (decide (P = [])) as [->|Hne]; [done|].
    destruct (exists_last Hne) as (P' & p & ->). intros _. rewrite last_last.
    pose proof (Next_spec s a Ls WF P' p (n :: Q)) as Hp. apply Hp.
    by rewrite E, <- app_assoc.
  - unfold Valid. cbn [it_n]. rewrite negb_false_iff, Z.eqb_eq. rewrite E.
    destruct (decide (P = [])) as [->|Hne]; [done|].
    destruct (exists_last Hne) as (P' & p & ->). rewrite last_last.
    assert (p <> 0) by (apply Hnz; rewrite E; set_solver).
    split; [done|]. intros Hh. exfalso.
    rewrite E in Hnd. apply NoDup_app in Hnd as (_ & Hnd & _).
    destruct P' as [|p' P']; cbn in Hh; injection Hh as ->; apply (Hnd n); set_solver.
  - unfold Valid. cbn [it_n]. rewrite negb_false_iff, Z.eqb_eq. rewrite E.
    rewrite last_app. cbn [last].
    destruct Q as [|m Q]; [done|]. cbn [List.hd].
    assert (m <> 0) by (apply Hnz; rewrite E; set_solver).
    split; [done|]. intros Hl. exfalso.
    rewrite E in Hnd. apply NoDup_app in Hnd as (_ & _ & Hnd).
    apply NoDup_cons in Hnd as [Hnd _]. apply Hnd.
    rewrite last_cons_cons in Hl.
    destruct (last (m :: Q)) as [z|] eqn:Ez; [|by apply last_None in Ez].
    injection Hl as ->. by apply last_Some_elem_of.
  - destruct (last_in P 0) as [->|Hin].
    + by apply not_eq_sym, (wf_head _ _ _ WF).
    + apply Hnz. rewrite E. set_solver.
Qed.

Lemma Next_Prev_inverse_witness :
  wf ex_s ex_a ex_Ls /\ 192 ∈ ex_Ls 0%nat /\
  exists p m,
    Prev ex_s (mkIterator 192) = Ok (mkIterator p) /\
    Next ex_s (mkIterator 192) = Ok (mkIterator m) /\
    (Valid (mkIterator m) = true -> Prev ex_s (mkIterator m) = Ok (mkIterator 192)) /\
    (Valid (mkIterator p) = true -> Next ex_s (mkIterator p) = Ok (mkIterator 192)) /\
    (Valid (mkIterator p) = false <-> head (ex_Ls 0%nat) = Some 192) /\
    (Valid (mkIterator m) = false <-> last (ex_Ls 0%nat) = Some 192) /\
    p <> s_head ex_s.
Proof.
  assert (H : wf ex_s ex_a ex_Ls) by eval_wf.
  assert (H' : 192 ∈ ex_Ls 0%nat) by (apply list_elem_of_further, list_elem_of_here).
  split; [exact H|]. split; [exact H'|].
  exact (Next_Prev_inverse ex_s ex_a ex_Ls 192 H H').
Defined.

(** X4: on a well-formed skiplist, SeekToFirst and SeekToLast return; the
    iterators they leave are valid exactly when the list is not empty,
    which is when Empty returns false; when valid, SeekToFirst is at the
    least key of the list and SeekToLast at the greatest. *)
Theorem SeekToFirst_SeekToLast s a Ls :
  wf s a Ls ->
  exists f l,
    SeekToFirst s = Ok f /\ SeekToLast s = Ok l /\
    Valid f = Valid l /\ Empty s = Ok (negb (Valid f)) /\
    (Valid f = false <-> forward s = Ok []) /\
    (Valid f = true ->
     exists kf kl, it_Key s f = Ok kf /\ it_Key s l = Ok kl /\
       forall k, forward s = Ok k ->
         Forall (fun y => Compare kf y <= 0 /\ Compare y kl <= 0) k).
Proof.
  intros WF.
  assert (Hnz : forall y, y ∈ Ls 0%nat -> y <> 0)
    by (intros y; apply (wf_base_nonzero s a Ls WF)).
  pose proof (wf_base_sorted s a Ls WF) as Hs.
  exists (mkIterator (List.hd 0 (Ls 0%nat))), (mkIterator (List.last (Ls 0%nat) 0)).
  rewrite (forward_wf s a Ls WF).
  split_and!.
  - apply (SeekToFirst_spec s a Ls WF).
  - apply (SeekToLast_spec s a Ls WF).
  - unfold Valid. cbn [it_n]. destruct (Ls 0%nat) as [|x L] eqn:E; [done|].
    cbn [List.hd]. destruct (last_in (x :: L) 0) as [E0|Hin].
    + exfalso. pose proof (exists_last (l := x :: L) ltac:(done)) as (L' & z & E').
      rewrite E', last_last in E0. apply (Hnz z); [|done]. rewrite E'. set_solver.
    + destruct (Z.eqb_spec x 0) as [->|_]; [by destruct (Hnz 0 ltac:(by left))|].
      destruct (Z.eqb_spec (List.last (x :: L) 0) 0) as [E0|_]; [|done].
      rewrite E0 in Hin. by destruct (Hnz 0 Hin).
  - unfold Empty. rewrite (findLast_last s a Ls WF). cbn [bind]. f_equal.
    unfold Valid. cbn [it_n]. rewrite negb_involutive.
    destruct (Ls 0%nat) as [|x L] eqn:E; [done|]. cbn [List.hd].
    destruct (Z.eqb_spec x 0) as [->|_]; [by destruct (Hnz 0 ltac:(by left))|].
    apply Z.eqb_neq. destruct (last_in (x :: L) 0) as [E0|Hin].
    + exfalso. pose proof (exists_last (l := x :: L) ltac:(done)) as (L' & z & E').
      rewrite E', last_last in E0. apply (Hnz z); [|done]. rewrite E'. set_solver.
    + by apply Hnz.
  - unfold Valid. cbn [it_n]. rewrite negb_false_iff, Z.eqb_eq.
    destruct (Ls 0%nat) as [|x L] eqn:E; [done|]. cbn [List.hd]. split; [|done].
    intros ->. by destruct (Hnz 0 ltac:(by left)).
  - intros Hv. destruct (Ls 0%nat) as [|x L] eqn:E; [done|]. cbn [List.hd].
    pose proof (exists_last (l := x :: L) ltac:(done)) as (L' & z & E').
    rewrite E', last_last.
    exists (nkey a x), (nkey a z). split_and!.
    + apply (it_Key_spec s a Ls WF). rewrite E. by left.
    + apply (it_Key_spec s a Ls WF). rewrite E, E'. set_solver.
    + intros k [= <-]. apply Forall_map, Forall_forall. intros y Hy. split.
      * rewrite <- E' in Hy. apply elem_of_cons in Hy as [->|Hy].
        -- rewrite Compare_refl. lia.
        -- apply ascending_cons in Hs as [_ Hs]. specialize (Hs y Hy).
           unfold klt in Hs. lia.
      * apply elem_of_app in Hy as [Hy|Hy].
        -- rewrite E' in Hs. apply ascending_app in Hs as (_ & _ & Hs).
           specialize (Hs y z Hy ltac:(by left)). unfold klt in Hs. lia.
        -- apply list_elem_of_singleton in Hy as ->. rewrite Compare_refl. lia.
Qed.

Lemma SeekToFirst_SeekToLast_witness :
  wf ex_s ex_a ex_Ls /\
  exists f l,
    SeekToFirst ex_s = Ok f /\ SeekToLast ex_s = Ok l /\
    Valid f = Valid l /\ Empty ex_s = Ok (negb (Valid f)) /\
    (Valid f = false <-> forward ex_s = Ok []) /\
    (Valid f = true ->
     exists kf kl, it_Key ex_s f = Ok kf /\ it_Key ex_s l = Ok kl /\
       forall k, forward ex_s = Ok k ->
         Forall (fun y => Compare kf y <= 0 /\ Compare y kl <= 0) k).
Proof.
  assert (H : wf ex_s ex_a ex_Ls) by eval_wf.
  split; [exact H|]. exact (SeekToFirst_SeekToLast ex_s ex_a ex_Ls H).
Defined.

(** * Puts on any skiplist: what cannot go wrong *)

(** The development above follows the keys; this one follows the links
    only, so that it also covers lists whose keys are not in order. *)

Section Structure.

Context (s : skiplist) (a : arena) (Ls : nat -> list Z).
Hypothesis SI : SInv s a Ls.

Lemma SInv_tall l x : (l < Z.to_nat maxHeight)%nat -> x ∈ Ls l -> tall a l x.
Proof.
  intros Hl Hx. pose proof (linked_tall _ _ _ _ _ (sinv_chain _ _ _ SI l Hl)) as Ht.
  rewrite Forall_forall in Ht. apply Ht. by right.
Qed.

Lemma SInv_head_tall l : (l < Z.to_nat maxHeight)%nat -> tall a l (s_head s).
Proof. intros Hl. eapply tall_le; [apply (sinv_head _ _ _ SI) | lia]. Qed.

Lemma SInv_head_nonzero : s_head s <> 0.
Proof.
  destruct (tall_node _ _ _ (sinv_head _ _ _ SI)) as [nd Hnd].
  destruct (sinv_alloc _ _ _ SI) as (_ & _ & Hal). destruct (Hal _ _ Hnd). lia.
Qed.

Lemma SInv_fuel l : (l < Z.to_nat maxHeight)%nat -> (length (Ls l) < fuel_of s)%nat.
Proof.
  intros Hl. unfold fuel_of. rewrite (sinv_arena _ _ _ SI).
  assert (length (Ls l) <= size (a_nodes a))%nat; [|lia].
  apply length_le_size; [by apply (sinv_nodup _ _ _ SI)|].
  intros y Hy. destruct (tall_node _ _ _ (SInv_tall l y Hl Hy)) as [nd ->]. by eexists.
Qed.

(** The chain of a level from one of its nodes, or from the head. *)
Lemma SInv_position l p :
  (l < Z.to_nat maxHeight)%nat -> p = s_head s \/ p ∈ Ls l ->
  exists Pre S, Ls l = Pre ++ S /\ p = List.last Pre (s_head s) /\ linked a l p S 0.
Proof.
  intros Hl [->|Hp].
  - exists [], (Ls l). split_and!; [done | done | by apply (sinv_chain _ _ _ SI)].
  - pose proof (sinv_chain _ _ _ SI l Hl) as Hch.
    apply list_elem_of_split in Hp as (P1 & S & E). rewrite E in Hch.
    apply linked_app in Hch as [_ Hch].
    exists (P1 ++ [p]), S. split_and!; [by rewrite E, <- app_assoc | by rewrite last_last | done].
Qed.

(** The search of a level, from a node of the level or from the head. *)
Lemma search_step k i p :
  (i < Z.to_nat maxHeight)%nat -> p = s_head s \/ p ∈ Ls i ->
  exists Pre Suf m,
    Ls i = Pre ++ Suf /\
    findSpliceForLevel s k p (Z.of_nat i) = Ok (List.last Pre (s_head s), List.hd 0 Suf, m) /\
    (m = true -> Suf <> []).
Proof.
  intros Hi Hp. destruct (SInv_position i p Hi Hp) as (Pre0 & S & E & Hlast & Hch).
  destruct (prefix_split a k S) as (X & Y & -> & HX & HY).
  assert (Hnz : forall y, y ∈ X ++ Y -> y <> 0).
  { intros y Hy. apply (sinv_nodes _ _ _ SI i y Hi). rewrite E. apply elem_of_app. by right. }
  exists (Pre0 ++ X), Y. eexists. split_and!.
  - by rewrite E, app_assoc.
  - unfold findSpliceForLevel.
    rewrite (findSplice_loop_app s a k i X (fuel_of s) p Y (sinv_arena _ _ _ SI) Hch).
    + by rewrite last_app_shift, <- Hlast.
    + apply Forall_forall. intros y Hy. rewrite Forall_forall in HX.
      split; [apply Hnz, elem_of_app; by left | by apply HX].
    + destruct Y as [|q Y]; [done|]. split; [|done]. apply Hnz, elem_of_app. right. by left.
    + pose proof (SInv_fuel i Hi) as Hf. rewrite E, !length_app in Hf. lia.
  - destruct Y; [done | done].
Qed.

End Structure.

(** The invariant under a change of the arena that keeps the links. *)
Lemma SInv_transfer s a Ls s' a' :
  SInv s a Ls ->
  s_arena s' = Some a' -> s_head s' = s_head s -> 1 <= s_height s' <= maxHeight ->
  (forall l y, (l < Z.to_nat maxHeight)%nat -> y ∈ s_head s :: Ls l ->
               next a' l y = next a l y) ->
  allocated a' ->
  SInv s' a' Ls.
Proof.
  intros [Ha Hh Hhd Hch Hn Hnd Hne Hal] Ha' Hhd' Hh' Hnext Hal'.
  split; rewrite ?Hhd'; try done.
  - unfold tall. rewrite Hnext; [done | unfold maxHeight; lia | by left].
  - intros l Hl. eapply linked_frame; [|by apply Hch]. intros y Hy. by apply Hnext.
Qed.

Lemma hint_at_set_level s Ls h j Pre Suf i xs :
  j <> i -> hint_at s Ls h j Pre Suf -> hint_at s (set_level Ls i xs) h j Pre Suf.
Proof. intros Hne (E & H1 & H2). unfold hint_at, set_level. by rewrite decide_False. Qed.

(** ** The search of a put, level by level *)

Lemma putSearch_struct s a Ls k v top : forall cnt h,
  SInv s a Ls -> (cnt <= top)%nat -> (top <= Z.to_nat maxHeight)%nat ->
  length (h_prev h) = 21%nat -> length (h_next h) = 21%nat ->
  (exists p0, h_prev h !! cnt = Some p0 /\
     (p0 = s_head s \/ (p0 ∈ Ls cnt /\ (cnt < Z.to_nat maxHeight)%nat))) ->
  (forall j, (cnt <= j < top)%nat -> exists Pre Suf, hint_at s Ls h j Pre Suf) ->
  (exists h', putSearch cnt s k v h = Ok (s, h', false) /\
     length (h_prev h') = 21%nat /\ length (h_next h') = 21%nat /\
     forall j, (j < top)%nat -> exists Pre Suf, hint_at s Ls h' j Pre Suf) \/
  (exists e h', is_Some (a_nodes a !! e) /\
     putSearch cnt s k v h = let* a' := setValue a e v in Ok (set_arena s a', h', true)).
Proof.
  induction cnt as [|i IH]; intros h SI Hc Ht Hp Hn Hstart Hhint.
  - left. exists h. split_and!; [done | done | done |]. intros j Hj. apply Hhint. lia.
  - unfold maxHeight in Ht.
    destruct Hstart as (p0 & Hp0 & Hp0in).
    assert (Hp0i : p0 = s_head s \/ p0 ∈ Ls i).
    { destruct Hp0in as [->|[Hin Hlt]]; [by left | right].
      by apply (sinv_nested _ _ _ SI i p0 Hlt). }
    destruct (search_step s a Ls SI k i p0 ltac:(unfold maxHeight; lia) Hp0i)
      as (Pre & Suf & m & E & Hsearch & Hm).
    cbn [putSearch]. replace (Z.of_nat i + 1) with (Z.of_nat (S i)) by lia.
    rewrite (arr_get_Ok _ _ _ Hp0). cbn [bind]. rewrite Hsearch. cbn [bind].
    rewrite !arr_set_Ok by lia. cbn [bind].
    set (h1 := set_prev_next h (<[i := List.last Pre (s_head s)]> (h_prev h))
                               (<[i := List.hd 0 Suf]> (h_next h))).
    assert (Hp1 : length (h_prev h1) = 21%nat) by (cbn; by rewrite length_insert).
    assert (Hn1 : length (h_next h1) = 21%nat) by (cbn; by rewrite length_insert).
    assert (Hat : hint_at s Ls h1 i Pre Suf).
    { split_and!; [done | |]; cbn; apply list_lookup_insert_eq; lia. }
    assert (Hhint1 : forall j, (i <= j < top)%nat -> exists Pre Suf, hint_at s Ls h1 j Pre Suf).
    { intros j Hj. destruct (decide (j = i)) as [->|Hne]; [by eauto|].
      destruct (Hhint j ltac:(lia)) as (Pre' & Suf' & E' & H1 & H2).
      exists Pre', Suf'. split_and!; [done | |]; cbn; by rewrite list_lookup_insert_ne. }
    destruct m.
    + right. destruct Suf as [|q Suf']; [by destruct (Hm eq_refl)|].
      assert (Hq : q ∈ Ls i) by (rewrite E; apply elem_of_app; right; by left).
      destruct (tall_node _ _ _ (SInv_tall s a Ls SI i q ltac:(unfold maxHeight; lia) Hq))
        as [nd Hnd].
      unfold the_arena. rewrite (sinv_arena _ _ _ SI). cbn [bind].
      rewrite (arr_get_Ok _ i q) by (cbn; apply list_lookup_insert_eq; lia). cbn [bind].
      destruct (copyDown_Ok i h1 Hp1 Hn1 ltac:(lia)) as [h' Hh'].
      exists q, h'. split; [by eexists|].
      destruct (setValue a q v); cbn [bind]; [|done]. by rewrite Hh'.
    + apply (IH h1 SI); [lia | unfold maxHeight; lia | done | done | | done].
      exists (List.last Pre (s_head s)). split; [cbn; apply list_lookup_insert_eq; lia|].
      destruct (last_in Pre (s_head s)) as [->|Hin]; [by left | right].
      split; [rewrite E; apply elem_of_app; by left | unfold maxHeight; lia].
Qed.

(** ** Linking the new node, level by level *)

Lemma insert_step s a Ls k x i h b Pre Suf :
  SInv s a Ls -> tall a i x -> x <> s_head s -> x <> 0 ->
  (forall l, (i <= l < Z.to_nat maxHeight)%nat -> x ∉ Ls l) ->
  ((0 < i)%nat -> x ∈ Ls (i - 1)%nat) ->
  (i < Z.to_nat maxHeight)%nat ->
  hint_at s Ls h i Pre Suf ->
  exists a2, insertAt (fuel_of s) s k x (Z.of_nat i) h b = Ok (set_arena s a2, h, b) /\
             SInv (set_arena s a2) a2 (set_level Ls i (Pre ++ x :: Suf)) /\ relinked a a2.
Proof.
  intros SI Hx Hxhd Hx0 Hfresh Hbelow Hi (E & Hpi & Hni).
  pose proof SI as [Ha Hh Hhd Hch Hnodes Hnd Hnest Hal].
  set (p := List.last Pre (s_head s)) in *. set (nx := List.hd 0 Suf) in *.
  pose proof (Hnd i Hi) as HndL. rewrite E in HndL.
  assert (HhdL : s_head s ∉ Pre ++ Suf).
  { intros Hin. rewrite <- E in Hin. by destruct (Hnodes i _ Hi Hin). }
  assert (HxL : x ∉ Pre ++ Suf) by (rewrite <- E; apply Hfresh; lia).
  assert (Hp : p = s_head s \/ p ∈ Pre) by apply last_in.
  assert (Hxp : x <> p).
  { intros <-. destruct Hp as [Hp|Hp]; [done|]. apply HxL, elem_of_app. by left. }
  assert (HpS : p ∉ Suf).
  { intros Hin. destruct Hp as [Hp|Hp].
    - apply HhdL. rewrite <- Hp. apply elem_of_app. by right.
    - apply NoDup_app in HndL as (_ & Hd & _). by apply (Hd p). }
  pose proof (Hch i Hi) as Hchi. rewrite E in Hchi.
  apply linked_app_hd in Hchi as [HchA HchB].
  pose proof (linked_last _ _ _ _ _ HchA) as Hpn. fold p nx in Hpn.
  destruct (setTower_Ok a x i nx Hx) as [a1 Ha1].
  pose proof (setTower_spec _ _ _ _ _ Ha1) as (R1 & N1 & F1).
  assert (Hpn1 : next a1 i p = Some nx) by (rewrite F1; [done | by left]).
  destruct (casNextOffset_swap a1 p i nx x Hpn1) as (a2 & Hcas & Ha2).
  destruct (link_in a x p i nx a1 a2 Ha1 Ha2 Hxp) as (R & Nx & Np & F).
  exists a2. split_and!; [| |done].
  - unfold fuel_of. rewrite Ha.
    replace (size (a_nodes a) + Z.to_nat maxHeight + 1)%nat
      with (S (size (a_nodes a) + Z.to_nat maxHeight)) by lia.
    cbn [insertAt]. unfold the_arena. rewrite Ha. cbn [bind].
    rewrite (arr_get_Ok _ _ _ Hni). cbn [bind]. unfold getNodeOffset.
    rewrite Ha1. cbn [bind]. rewrite (arr_get_Ok _ _ _ Hpi). cbn [bind].
    by rewrite Hcas.
  - split; cbn [s_arena s_head s_height set_arena]; try done.
    + by apply (relinked_tall a a2).
    + intros l Hl. unfold set_level. destruct (decide (l = i)) as [->|Hli].
      * apply linked_app. split.
        -- eapply linked_set_last; [exact HchA | | done |].
           ++ apply NoDup_cons. split.
              ** intros Hin. apply HhdL, elem_of_app. by left.
              ** by apply NoDup_app in HndL as (? & _ & _).
           ++ intros y Hy Hyp. apply F. right. split; [|done].
              intros ->. apply elem_of_cons in Hy as [Hy|Hy]; [done|].
              apply HxL, elem_of_app. by left.
        -- apply linked_from_hd; [done|].
           destruct Suf as [|q Suf'] eqn:ES; [done|].
           eapply linked_frame; [|exact HchB]. intros y Hy. apply F. right.
           split; intros ->.
           ++ apply HxL, elem_of_app. by right.
           ++ by apply HpS.
      * eapply linked_frame; [|by apply Hch]. intros y _. apply F. by left.
    + intros l y Hl. unfold set_level. destruct (decide (l = i)) as [->|Hli]; [|by apply Hnodes].
      intros Hy. apply elem_of_app in Hy as [Hy|Hy].
      * apply (Hnodes i y Hi). rewrite E. apply elem_of_app. by left.
      * apply elem_of_cons in Hy as [->|Hy]; [done|].
        apply (Hnodes i y Hi). rewrite E. apply elem_of_app. by right.
    + intros l Hl. unfold set_level. destruct (decide (l = i)) as [->|Hli]; [|by apply Hnd].
      apply NoDup_app in HndL as (HndP & Hd & HndS).
      apply NoDup_app. split_and!; [done | |].
      * intros y Hy Hin. apply elem_of_cons in Hin as [->|Hin]; [|by apply (Hd y)].
        apply HxL, elem_of_app. by left.
      * apply NoDup_cons. split; [|done]. intros Hin. apply HxL, elem_of_app. by right.
    + intros l y Hl. unfold set_level.
      destruct (decide (S l = i)) as [Hsi|Hsi]; destruct (decide (l = i)) as [Hli|Hli]; try lia.
      * intros Hy. assert (Hy' : y = x \/ y ∈ Ls i).
        { rewrite E. rewrite !elem_of_app, elem_of_cons in Hy. rewrite elem_of_app. tauto. }
        destruct Hy' as [->|Hy'].
        -- replace l with (i - 1)%nat by lia. apply Hbelow. lia.
        -- subst i. by apply Hnest.
      * intros Hy. subst l. apply (Hnest i y Hl) in Hy. rewrite E in Hy.
        rewrite !elem_of_app, elem_of_cons. rewrite elem_of_app in Hy. tauto.
      * by apply Hnest.
    + by eapply relinked_allocated.
Qed.

Lemma insertLevels_struct k x h b : forall cnt i s a Ls,
  SInv s a Ls ->
  (forall l, (i <= l < i + cnt)%nat -> tall a l x) -> x <> s_head s -> x <> 0 ->
  (forall l, (i <= l < Z.to_nat maxHeight)%nat -> x ∉ Ls l) ->
  ((0 < i)%nat -> x ∈ Ls (i - 1)%nat) ->
  (i + cnt <= Z.to_nat maxHeight)%nat ->
  (forall j, (i <= j < i + cnt)%nat -> exists Pre Suf, hint_at s Ls h j Pre Suf) ->
  exists a' Ls', insertLevels cnt s k x (Z.of_nat i) h b = Ok (set_arena s a', h, b) /\
                 SInv (set_arena s a') a' Ls' /\ relinked a a'.
Proof.
  induction cnt as [|cnt IH]; intros i s a Ls SI Hx Hxhd Hx0 Hfresh Hbelow Hi Hhint.
  - exists a, Ls. cbn [insertLevels].
    assert (set_arena s a = s) as ->.
    { destruct s as [hh hd ar]. unfold set_arena. cbn. f_equal.
      symmetry. apply (sinv_arena _ _ _ SI). }
    split_and!; [done | done | apply relinked_refl].
  - destruct (Hhint i ltac:(lia)) as (Pre & Suf & Hat).
    destruct (insert_step s a Ls k x i h b Pre Suf SI (Hx i ltac:(lia)) Hxhd Hx0 Hfresh Hbelow
                ltac:(lia) Hat) as (a2 & Hins & SI2 & R2).
    cbn [insertLevels]. rewrite Hins. cbn [bind].
    replace (Z.of_nat i + 1) with (Z.of_nat (S i)) by lia.
    destruct (IH (S i) (set_arena s a2) a2 (set_level Ls i (Pre ++ x :: Suf)) SI2)
      as (a' & Ls' & Hrest & SI' & R').
    + intros l Hl. apply (relinked_tall a a2); [done|]. apply Hx. lia.
    + done.
    + done.
    + intros l Hl. unfold set_level. rewrite decide_False by lia. apply Hfresh. lia.
    + intros _. replace (S i - 1)%nat with i by lia. unfold set_level.
      rewrite decide_True by done. apply elem_of_app. right. by left.
    + lia.
    + intros j Hj. destruct (Hhint j ltac:(lia)) as (Pre' & Suf' & Hat').
      exists Pre', Suf'. apply hint_at_set_level; [lia | done].
    + exists a', Ls'. split_and!; [| | by eapply relinked_trans].
      * rewrite Hrest. by destruct s.
      * by destruct s.
Qed.

Lemma refreshHint_Ok s a x : forall cnt i h,
  s_arena s = Some a -> (forall l, (i <= l < i + cnt)%nat -> tall a l x) ->
  length (h_prev h) = 21%nat -> length (h_next h) = 21%nat -> (i + cnt <= 21)%nat ->
  exists h', refreshHint cnt s x (Z.of_nat i) h = Ok h'.
Proof.
  induction cnt as [|cnt IH]; intros i h Ha Hx Hp Hn Hi; [by eexists|].
  cbn [refreshHint]. rewrite arr_set_Ok by lia. cbn [bind].
  destruct (Hx i ltac:(lia)) as [y Hy]. rewrite (getNext_next s a i x y Ha Hy). cbn [bind].
  rewrite arr_set_Ok by lia. cbn [bind].
  replace (Z.of_nat i + 1) with (Z.of_nat (S i)) by lia.
  apply IH; cbn; rewrite ?length_insert; try done; try lia.
  intros l Hl. apply Hx. lia.
Qed.

(** ** The arena runs out *)

Lemma bump_Err a l e : bump a l = Err e -> e = OutOfArena.
Proof. unfold bump. case_match; [done|]. by intros [= <-]. Qed.

Lemma setValue_Err a n v e :
  setValue a n v = Err e -> is_Some (a_nodes a !! n) -> e = OutOfArena.
Proof.
  unfold setValue, putVal. intros H [nd Hnd].
  destruct (bump a (EncodedSize v)) as [m|e'] eqn:Hb; cbn [bind] in H.
  - unfold deref in H. cbn [a_nodes] in H. by rewrite Hnd in H.
  - injection H as <-. by apply bump_Err in Hb.
Qed.

Lemma newNode_Err a k v H e : newNode a k v H = Err e -> e = OutOfArena.
Proof.
  unfold newNode, putNode. intros Hn.
  destruct (bump a _) as [m|e'] eqn:Hb; cbn [bind] in Hn;
    [|injection Hn as <-; by apply bump_Err in Hb].
  unfold getNode, deref in Hn. cbn [a_nodes] in Hn. rewrite lookup_insert_eq in Hn.
  cbn [bind] in Hn. unfold putKey in Hn.
  destruct (bump _ (Z.of_nat (length (UserKey k)) + 8)) as [m2|e'] eqn:Hb2; cbn [bind] in Hn;
    [|injection Hn as <-; by apply bump_Err in Hb2].
  unfold putVal in Hn.
  destruct (bump _ (EncodedSize v)) as [m3|e'] eqn:Hb3; cbn [bind] in Hn; [done|].
  injection Hn as <-. by apply bump_Err in Hb3.
Qed.


(** ** A put, through no hint or a hint of a lower height *)

Lemma calculateRecomputeHeight_low s k h lh :
  1 <= lh <= maxHeight -> h_height h < lh ->
  length (h_prev h) = 21%nat -> length (h_next h) = 21%nat ->
  calculateRecomputeHeight s k h lh =
    Ok (lh, mkHint lh lh (<[Z.to_nat lh := s_head s]> (h_prev h))
                         (<[Z.to_nat lh := 0]> (h_next h))).
Proof.
  intros Hlh Hlow Hp Hn. unfold calculateRecomputeHeight.
  destruct (Z.ltb_spec (h_height h) lh); [|lia].
  unfold maxHeight in Hlh.
  unfold arr_set. rewrite Hp, Hn.
  destruct (Z.leb_spec 0 lh); [|lia].
  destruct (Z.ltb_spec lh (Z.of_nat 21)); [|lia]. done.
Qed.


Lemma SInv_raise s a Ls h' :
  SInv s a Ls -> 1 <= h' <= maxHeight -> SInv (mkSkiplist h' (s_head s) (s_arena s)) a Ls.
Proof.
  intros SI Hh. eapply SInv_transfer; [exact SI | apply (sinv_arena _ _ _ SI) | done | done | done |].
  apply (sinv_alloc _ _ _ SI).
Qed.

Lemma PutWithHint_struct s a Ls k v h rnd :
  SInv s a Ls ->
  (forall h0, h = Some h0 ->
     h_height h0 < s_height s /\
     length (h_prev h0) = 21%nat /\ length (h_next h0) = 21%nat) ->
  (exists s' h' a' Ls', PutWithHint s k v h rnd = Ok (s', h') /\ SInv s' a' Ls') \/
  PutWithHint s k v h rnd = Err OutOfArena.
Proof.
  intros SI0 Hh.
  pose proof (randomHeight_range rnd) as HH. set (H := randomHeight rnd) in *.
  pose proof (sinv_height _ _ _ SI0) as Hh0.
  set (lh := Z.max (s_height s) H).
  set (s1 := mkSkiplist lh (s_head s) (s_arena s)).
  assert (Hlh : 1 <= lh <= maxHeight) by lia.
  assert (SI : SInv s1 a Ls) by (by apply SInv_raise).
  set (h1 := match h with Some h0 => h0 | None => newHint end).
  assert (Hh1 : h_height h1 < lh /\
                length (h_prev h1) = 21%nat /\ length (h_next h1) = 21%nat).
  { subst h1. destruct h as [h0|].
    - destruct (Hh h0 eq_refl) as (? & ? & ?). split; [lia | done].
    - cbn. split; [lia | done]. }
  destruct Hh1 as (Hlow & Hp & Hn).
  set (b0 := match h with Some _ => true | None => false end).
  set (give := fun hh : hint => match h with Some _ => Some hh | None => None end).
  assert (HPut1 : PutWithHint s k v h rnd =
    let* (recomputeHeight, hh) := calculateRecomputeHeight s1 k h1 lh in
    let* (s, hh, returned) :=
      if recomputeHeight >? 0
      then putSearch (Z.to_nat recomputeHeight) s1 k v hh
      else Ok (s1, hh, false) in
    if returned : bool then Ok (s, give hh)
    else
      let* a := the_arena s in
      let* (x, a) := newNode a k v H in
      let s := set_arena s a in
      let* (s, hh, spliceIsValid) := insertLevels (Z.to_nat H) s k x 0 hh b0 in
      if spliceIsValid : bool then
        let* hh := refreshHint (Z.to_nat H) s x 0 hh in Ok (s, give hh)
      else Ok (s, give (mkHint 0 (h_hitHeight hh) (h_prev hh) (h_next hh)))).
  { unfold PutWithHint, getHeight. fold H. fold h1. fold b0.
    destruct (Z.gtb_spec H (s_height s)) as [Hgt|Hle].
    - subst s1 lh. rewrite Z.max_r by lia. done.
    - subst s1 lh. rewrite Z.max_l by lia. by destruct s. }
  rewrite HPut1. clear HPut1.
  rewrite (calculateRecomputeHeight_low s1 k h1 lh Hlh Hlow Hp Hn). cbn [bind].
  change (s_head s1) with (s_head s).
  replace (lh >? 0) with true by (symmetry; apply Z.gtb_lt; lia).
  unfold maxHeight in Hlh, HH.
  destruct (putSearch_struct s1 a Ls k v (Z.to_nat lh) (Z.to_nat lh)
              (mkHint lh lh (<[Z.to_nat lh := s_head s]> (h_prev h1))
                            (<[Z.to_nat lh := 0]> (h_next h1))) SI)
    as [(h' & -> & Hp' & Hn' & Hhint) | (e & h' & He & ->)].
  - done.
  - unfold maxHeight. lia.
  - cbn. by rewrite length_insert.
  - cbn. by rewrite length_insert.
  - exists (s_head s). split; [|by left]. cbn. apply list_lookup_insert_eq. lia.
  - intros j Hj. lia.
  - (* no level matched: a node is linked *)
    cbn [bind]. unfold the_arena. rewrite (sinv_arena _ _ _ SI). cbn [bind].
    destruct (newNode a k v H) as [[x a1]|err] eqn:Hnew; cbn [bind];
      [|right; f_equal; by apply (newNode_Err a k v H)].
    destruct (newNode_spec a k v H x a1 Hnew (sinv_alloc _ _ _ SI) ltac:(unfold maxHeight; lia))
      as (Hfresh & Hx0 & Hnext & Hnx & _ & _ & _ & Hal1).
    assert (Hold : forall l y, (l < Z.to_nat maxHeight)%nat -> y ∈ s_head s :: Ls l -> y <> x).
    { intros l y Hl Hy ->. apply elem_of_cons in Hy as [->|Hy].
      - destruct (tall_node _ _ _ (sinv_head _ _ _ SI)) as [nd Hnd]. cbn in Hnd. congruence.
      - destruct (tall_node _ _ _ (SInv_tall s1 a Ls SI l x Hl Hy)) as [nd Hnd]. congruence. }
    assert (SI1 : SInv (set_arena s1 a1) a1 Ls).
    { eapply SInv_transfer; [exact SI | done | done | done | | done].
      intros l y Hl Hy. apply Hnext. by apply (Hold l). }
    destruct (insertLevels_struct k x h' b0 (Z.to_nat H) 0%nat (set_arena s1 a1) a1 Ls SI1)
      as (a' & Ls' & Hins & SI' & R).
    + intros l Hl. unfold tall. rewrite Hnx. rewrite decide_True by lia. by eexists.
    + intros E. apply (Hold 0%nat (s_head s)); [unfold maxHeight; lia | by left | done].
    + lia.
    + intros l Hl Hin. apply (Hold l x); [lia | by right | done].
    + lia.
    + unfold maxHeight. lia.
    + intros j Hj. destruct (Hhint j ltac:(lia)) as (Pre & Suf & Hat). by exists Pre, Suf.
    + change (Z.of_nat 0) with 0 in Hins. rewrite Hins. cbn [bind]. left.
      destruct b0.
      * destruct (refreshHint_Ok (set_arena (set_arena s1 a1) a') a' x (Z.to_nat H) 0%nat h')
          as [h'' Hh'']; [done | | done | done | lia |].
        { intros l Hl. apply (relinked_tall a1 a'); [done|]. unfold tall. rewrite Hnx.
          rewrite decide_True by lia. by eexists. }
        change (Z.of_nat 0) with 0 in Hh''. rewrite Hh''. cbn [bind]. by eexists _, _, a', Ls'.
      * by eexists _, _, a', Ls'.
  - (* a level matched: the value is overwritten *)
    destruct (setValue a e v) as [a'|err] eqn:Hset; cbn [bind].
    + left. destruct (setValue_spec a e v a' Hset (sinv_alloc _ _ _ SI)) as (Hnx & _ & _ & _ & _ & Hal).
      eexists _, _, a', Ls. split; [done|].
      eapply SInv_transfer; [exact SI | done | done | done | | done].
      intros l y _ _. apply Hnx.
    + right. f_equal. by apply (setValue_Err a e v err Hset).
Qed.

Lemma Put_struct s a Ls k v rnd :
  SInv s a Ls ->
  (exists s' a' Ls', Put s k v rnd = Ok s' /\ SInv s' a' Ls') \/
  Put s k v rnd = Err OutOfArena.
Proof.
  intros SI. unfold Put.
  destruct (PutWithHint_struct s a Ls k v None rnd SI ltac:(done))
    as [(s' & h' & a' & Ls' & -> & SI') | ->]; [left | by right].
  by exists s', a', Ls'.
Qed.

Lemma newSkiplist_SInv sz s :
  newSkiplist sz = Ok s -> sz <= MaxUint32 -> exists a, SInv s a (fun _ => []).
Proof.
  intros Hnew Hsz. destruct (newSkiplist_Inv sz s Hnew Hsz) as [a [Ha Hh [Hhd _] Hch _ _ Hal]].
  exists a. split; try done.
  - intros l x _ Hx. by apply elem_of_nil in Hx.
  - intros l _. constructor.
Qed.

Lemma puts_SInv ops : forall s a Ls s',
  SInv s a Ls -> puts ops s = Ok s' -> exists a' Ls', SInv s' a' Ls'.
Proof.
  induction ops as [|[[k v] rnd] ops IH]; intros s a Ls s' SI Hp.
  - injection Hp as <-. eauto.
  - cbn [puts] in Hp.
    destruct (Put_struct s a Ls k v rnd SI) as [(s1 & a1 & Ls1 & E & SI1) | E];
      rewrite E in Hp; cbn [bind] in Hp; [|done].
    by eapply IH.
Qed.

Lemma build_SInv sz ops s :
  sz <= MaxUint32 -> build sz ops = Ok s -> exists a Ls, SInv s a Ls.
Proof.
  intros Hsz Hb. unfold build in Hb.
  destruct (newSkiplist sz) as [s0|] eqn:Hnew; [|done]. cbn [bind] in Hb.
  destruct (newSkiplist_SInv sz s0 Hnew Hsz) as [a0 SI0].
  by eapply puts_SInv.
Qed.

(** * Puts and what the reads see after them *)

(** ** The keys of a skiplist built by puts *)

Lemma put_effect_keys a L k v a' L' :
  put_effect a L k v a' L' ->
  forall k', k' ∈ map (nkey a') L' <-> k' = k \/ k' ∈ map (nkey a) L.
Proof.
  intros [(e & He & Hek & -> & _ & _ & Hk & _) | (_ & A & B & x & -> & -> & _ & Hxk & _ & Hold)] k'.
  - rewrite (map_ext (nkey a') (nkey a) Hk). split; [by right|].
    intros [->|H]; [|done]. rewrite <- Hek. by apply list_elem_of_fmap_2.
  - assert (Hm : map (nkey a') (A ++ x :: B) = map (nkey a) A ++ k :: map (nkey a) B).
    { rewrite map_app. cbn [map]. rewrite Hxk. f_equal; [|f_equal].
      - apply map_ext_in. intros y Hy. apply Hold. rewrite elem_of_app. left.
        by apply list_elem_of_In.
      - apply map_ext_in. intros y Hy. apply Hold. rewrite elem_of_app. right.
        by apply list_elem_of_In. }
    rewrite Hm, map_app, !elem_of_app, elem_of_cons. tauto.
Qed.

Lemma puts_keys ops : forall s a L s',
  Inv s a L -> Forall keySizeFits (keys_of ops) -> puts ops s = Ok s' ->
  exists a' L', Inv s' a' L' /\
    forall k, k ∈ map (nkey a') L' <-> k ∈ keys_of ops \/ k ∈ map (nkey a) L.
Proof.
  induction ops as [|[[k v] rnd] ops IH]; intros s a L s' INV Hfit Hp.
  - injection Hp as <-. exists a, L. split; [done|]. intros k. unfold keys_of. cbn.
    rewrite elem_of_nil. tauto.
  - cbn [puts] in Hp. destruct (Put s k v rnd) as [s1|] eqn:E; [|done]. cbn [bind] in Hp.
    unfold keys_of in Hfit. cbn [map fst] in Hfit. apply Forall_cons in Hfit as [Hfk Hfit].
    destruct (Put_Inv s a L k v rnd s1 INV Hfk E) as (a1 & L1 & INV1 & Heff & _).
    destruct (IH s1 a1 L1 s' INV1 Hfit Hp) as (a' & L' & INV' & Hk).
    exists a', L'. split; [done|]. intros k'. rewrite Hk.
    rewrite (put_effect_keys _ _ _ _ _ _ Heff k'). unfold keys_of. cbn [map fst].
    rewrite elem_of_cons. tauto.
Qed.

Lemma build_keys sz ops s :
  sz <= MaxUint32 -> Forall keySizeFits (keys_of ops) -> build sz ops = Ok s ->
  exists a L, Inv s a L /\ forward s = Ok (map (nkey a) L) /\
    forall k, k ∈ map (nkey a) L <-> k ∈ keys_of ops.
Proof.
  intros Hsz Hfit Hb. unfold build in Hb.
  destruct (newSkiplist sz) as [s0|] eqn:Hnew; [|done]. cbn [bind] in Hb.
  destruct (newSkiplist_Inv sz s0 Hnew Hsz) as [a0 INV0].
  destruct (puts_keys ops s0 a0 [] s INV0 Hfit Hb) as (a & L & INV & Hk).
  exists a, L. split_and!; [done | |].
  - rewrite (forward_wf s a _ (Inv_wf _ _ _ INV)). by rewrite (Inv_levels0 _ _ _ INV).
  - intros k. rewrite Hk. cbn. rewrite elem_of_nil. tauto.
Qed.

Lemma sorted_unique (l1 : list Key) : forall l2,
  StronglySorted klt l1 -> StronglySorted klt l2 ->
  (forall x, x ∈ l1 <-> x ∈ l2) -> l1 = l2.
Proof.
  induction l1 as [|x l1 IH]; intros l2 H1 H2 Hm.
  - destruct l2 as [|y l2]; [done|].
    pose proof (proj2 (Hm y) ltac:(by left)) as H. by apply elem_of_nil in H.
  - destruct l2 as [|y l2].
    { pose proof (proj1 (Hm x) ltac:(by left)) as H. by apply elem_of_nil in H. }
    apply StronglySorted_inv in H1 as [H1 Hx]. apply StronglySorted_inv in H2 as [H2 Hy].
    rewrite Forall_forall in Hx. rewrite Forall_forall in Hy.
    assert (x = y) as <-.
    { pose proof (proj1 (Hm x) ltac:(by left)) as Hxy.
      pose proof (proj2 (Hm y) ltac:(by left)) as Hyx.
      apply elem_of_cons in Hxy as [->|Hxy]; [done|].
      apply elem_of_cons in Hyx as [->|Hyx]; [done|].
      exfalso. apply (klt_irrefl x). eapply klt_trans; [by apply Hx | by apply Hy]. }
    f_equal. apply IH; [done | done |]. intros z. split; intros Hz.
    + pose proof (proj1 (Hm z) ltac:(by right)) as H.
      apply elem_of_cons in H as [->|H]; [|done].
      by destruct (klt_irrefl x (Hx x Hz)).
    + pose proof (proj2 (Hm z) ltac:(by right)) as H.
      apply elem_of_cons in H as [->|H]; [|done].
      by destruct (klt_irrefl x (Hy x Hz)).
Qed.

(** X5: the forward iteration of a skiplist built by puts (with no hint) of
    keys whose size fits the 16-bit keySize field of a node returns, visits
    keys in strictly ascending order, none twice, and visits exactly the
    keys that were put. *)
Theorem build_forward_sorted sz ops s :
  sz <= MaxUint32 -> Forall keySizeFits (keys_of ops) -> build sz ops = Ok s ->
  exists ks, forward s = Ok ks /\ StronglySorted klt ks /\ NoDup ks /\
    forall k, k ∈ ks <-> k ∈ keys_of ops.
Proof.
  intros Hsz Hfit Hb. destruct (build_keys sz ops s Hsz Hfit Hb) as (a & L & INV & Hf & Hk).
  exists (map (nkey a) L). pose proof (ascending_keys a L (inv_sorted _ _ _ INV)) as Hs.
  split_and!; [done | done | | done].
  clear -Hs. induction Hs as [|x xs Hs IH Hx]; [constructor|].
  constructor; [|done]. intros Hin. rewrite Forall_forall in Hx.
  by apply (klt_irrefl x), Hx.
Qed.

Lemma build_forward_sorted_witness :
  4096 <= MaxUint32 /\ Forall keySizeFits (keys_of ex_ops) /\ build 4096 ex_ops = Ok ex_s /\
  exists ks, forward ex_s = Ok ks /\ StronglySorted klt ks /\ NoDup ks /\
    forall k, k ∈ ks <-> k ∈ keys_of ex_ops.
Proof.
  assert (H1 : 4096 <= MaxUint32) by (vm_compute; intro; discriminate).
  assert (Hf : Forall keySizeFits (keys_of ex_ops)) by (repeat constructor).
  assert (H2 : build 4096 ex_ops = Ok ex_s) by (vm_compute; reflexivity).
  split; [exact H1|]. split; [exact Hf|]. split; [exact H2|].
  exact (build_forward_sorted 4096 ex_ops ex_s H1 Hf H2).
Defined.

(** X6: what the forward iteration visits depends on the set of keys put
    only, not on the order of the puts, the heights drawn or the size of
    the arena: two skiplists built from the same keys, all of a size that
    fits the 16-bit keySize field, iterate alike. *)
Theorem build_order_irrelevant sz1 ops1 s1 sz2 ops2 s2 :
  sz1 <= MaxUint32 -> sz2 <= MaxUint32 ->
  Forall keySizeFits (keys_of ops1) -> Forall keySizeFits (keys_of ops2) ->
  build sz1 ops1 = Ok s1 -> build sz2 ops2 = Ok s2 ->
  (forall k, k ∈ keys_of ops1 <-> k ∈ keys_of ops2) ->
  forward s1 = forward s2.
Proof.
  intros Hsz1 Hsz2 Hf1 Hf2 Hb1 Hb2 Hk.
  destruct (build_keys sz1 ops1 s1 Hsz1 Hf1 Hb1) as (a1 & L1 & INV1 & -> & Hk1).
  destruct (build_keys sz2 ops2 s2 Hsz2 Hf2 Hb2) as (a2 & L2 & INV2 & -> & Hk2).
  f_equal. apply sorted_unique.
  - apply ascending_keys, (inv_sorted _ _ _ INV1).
  - apply ascending_keys, (inv_sorted _ _ _ INV2).
  - intros k. by rewrite Hk1, Hk2.
Qed.

Lemma build_order_irrelevant_witness :
  4096 <= MaxUint32 /\ 8192 <= MaxUint32 /\
  Forall keySizeFits (keys_of ex_ops) /\ Forall keySizeFits (keys_of ex_ops2) /\
  build 4096 ex_ops = Ok ex_s /\ build 8192 ex_ops2 = Ok ex_s2 /\
  (forall k, k ∈ keys_of ex_ops <-> k ∈ keys_of ex_ops2) /\
  forward ex_s = forward ex_s2.
Proof.
  assert (H1 : 4096 <= MaxUint32) by (vm_compute; intro; discriminate).
  assert (H2 : 8192 <= MaxUint32) by (vm_compute; intro; discriminate).
  assert (H3 : build 4096 ex_ops = Ok ex_s) by (vm_compute; reflexivity).
  assert (H4 : build 8192 ex_ops2 = Ok ex_s2) by (vm_compute; reflexivity).
  assert (H5 : forall k, k ∈ keys_of ex_ops <-> k ∈ keys_of ex_ops2).
  { intros k. unfold keys_of, ex_ops, ex_ops2. cbn [map fst].
    rewrite !elem_of_cons, elem_of_nil. tauto. }
  assert (Hf1 : Forall keySizeFits (keys_of ex_ops)) by (repeat constructor).
  assert (Hf2 : Forall keySizeFits (keys_of ex_ops2)) by (repeat constructor).
  split; [exact H1|]. split; [exact H2|]. split; [exact Hf1|]. split; [exact Hf2|].
  split; [exact H3|]. split; [exact H4|]. split; [exact H5|].
  exact (build_order_irrelevant 4096 ex_ops ex_s 8192 ex_ops2 ex_s2 H1 H2 Hf1 Hf2 H3 H4 H5).
Defined.

(** ** One put *)

(** X7: on a skiplist built by puts of keys whose size fits the 16-bit
    keySize field, Get of such a key right after a put of it returns the
    Meta, UserMeta, ExpiresAt and Value of the value put, with the Version
    of the key as its Version field. *)
Theorem Put_Get sz ops s k v rnd s' :
  sz <= MaxUint32 -> Forall keySizeFits (keys_of ops) -> keySizeFits k ->
  build sz ops = Ok s -> Put s k v rnd = Ok s' ->
  Get s' k = Ok (mkValue (Meta v) (UserMeta v) (ExpiresAt v) (Value v) (Version k)).
Proof.
  intros Hsz Hfit Hfk Hb Hp. destruct (build_Inv sz ops s Hsz Hfit Hb) as (a & L & INV).
  destruct (Put_Inv s a L k v rnd s' INV Hfk Hp) as (a' & L' & INV' & Heff & _).
  assert (He : exists e, e ∈ L' /\ nkey a' e = k /\ nval a' e = v).
  { destruct Heff as [(e & He & Hek & -> & Hv & _ & Hk & _) | (_ & A & B & x & _ & -> & _ & Hxk & Hxv & _)].
    - exists e. by rewrite Hk.
    - exists x. split; [|done]. apply elem_of_app. right. by left. }
  destruct He as (e & He & Hek & Hev).
  destruct (Get_present s' a' L' k e INV' He Hek) as [HG _]. by rewrite HG, Hev.
Qed.

Lemma Put_Get_witness :
  4096 <= MaxUint32 /\ Forall keySizeFits (keys_of ex_ops) /\ keySizeFits (ukey "b" 1) /\
  build 4096 ex_ops = Ok ex_s /\
  Put ex_s (ukey "b" 1) (payload "x") draws2 = Ok (ex_put (ukey "b" 1) (payload "x") draws2) /\
  Get (ex_put (ukey "b" 1) (payload "x") draws2) (ukey "b" 1) =
    Ok (mkValue (Meta (payload "x")) (UserMeta (payload "x")) (ExpiresAt (payload "x"))
                (Value (payload "x")) (Version (ukey "b" 1))).
Proof.
  assert (H1 : 4096 <= MaxUint32) by (vm_compute; intro; discriminate).
  assert (H2 : build 4096 ex_ops = Ok ex_s) by (vm_compute; reflexivity).
  assert (H3 : Put ex_s (ukey "b" 1) (payload "x") draws2 =
               Ok (ex_put (ukey "b" 1) (payload "x") draws2)) by (vm_compute; reflexivity).
  assert (Hf : Forall keySizeFits (keys_of ex_ops)) by (repeat constructor).
  assert (Hk : keySizeFits (ukey "b" 1)) by reflexivity.
  split; [exact H1|]. split; [exact Hf|]. split; [exact Hk|]. split; [exact H2|].
  split; [exact H3|].
  exact (Put_Get 4096 ex_ops ex_s (ukey "b" 1) (payload "x") draws2 _ H1 Hf Hk H2 H3).
Defined.

(** X8: on a skiplist built by puts of keys whose size fits the 16-bit
    keySize field, a put of such a key that the forward iteration visits
    leaves the sequence of keys as it is; a put of another such key adds
    the key to the sequence once, after the keys before it and before the
    keys after it, and moves no other key. *)
Theorem Put_forward sz ops s k v rnd s' ks :
  sz <= MaxUint32 -> Forall keySizeFits (keys_of ops) -> keySizeFits k ->
  build sz ops = Ok s -> forward s = Ok ks ->
  Put s k v rnd = Ok s' ->
  (k ∈ ks /\ forward s' = Ok ks) \/
  ((k ∉ ks) /\ exists ks1 ks2,
     ks = ks1 ++ ks2 /\ forward s' = Ok (ks1 ++ k :: ks2) /\
     Forall (fun y => klt y k) ks1 /\ Forall (klt k) ks2).
Proof.
  intros Hsz Hfit Hfk Hb Hf Hp. destruct (build_Inv sz ops s Hsz Hfit Hb) as (a & L & INV).
  rewrite (forward_wf s a _ (Inv_wf _ _ _ INV)), (Inv_levels0 _ _ _ INV) in Hf.
  injection Hf as <-.
  destruct (Put_Inv s a L k v rnd s' INV Hfk Hp) as (a' & L' & INV' & Heff & _).
  rewrite (forward_wf s' a' _ (Inv_wf _ _ _ INV')), (Inv_levels0 _ _ _ INV').
  pose proof (inv_sorted _ _ _ INV') as Hs'.
  destruct Heff as [(e & He & Hek & -> & _ & _ & Hk & _) | (Hno & A & B & x & -> & -> & HxL & Hxk & _ & Hold)].
  - left. split.
    + rewrite <- Hek. by apply list_elem_of_fmap_2.
    + f_equal. by apply map_ext.
  - right. split.
    + intros Hin. apply list_elem_of_fmap in Hin as (y & Hy1 & Hy2). by apply (Hno y).
    + assert (HA : map (nkey a') A = map (nkey a) A).
      { apply map_ext_in. intros y Hy. apply Hold. rewrite elem_of_app. left.
        by apply list_elem_of_In. }
      assert (HB : map (nkey a') B = map (nkey a) B).
      { apply map_ext_in. intros y Hy. apply Hold. rewrite elem_of_app. right.
        by apply list_elem_of_In. }
      exists (map (nkey a) A), (map (nkey a) B). split_and!.
      * by rewrite map_app.
      * rewrite map_app. cbn [map]. by rewrite Hxk, HA, HB.
      * apply ascending_app in Hs' as (_ & _ & Hs').
        rewrite <- HA. apply Forall_map, Forall_forall. intros y Hy.
        rewrite <- Hxk. apply Hs'; [done | by left].
      * apply ascending_app in Hs' as (_ & Hs' & _). apply ascending_cons in Hs' as [_ Hs'].
        rewrite <- HB. apply Forall_map, Forall_forall. intros y Hy.
        rewrite <- Hxk. by apply Hs'.
Qed.

Lemma Put_forward_witness :
  4096 <= MaxUint32 /\ Forall keySizeFits (keys_of ex_ops) /\ keySizeFits (ukey "b" 1) /\
  build 4096 ex_ops = Ok ex_s /\
  forward ex_s = Ok [ukey "a" 1; ukey "c" 1; ukey "e" 1] /\
  Put ex_s (ukey "b" 1) (payload "x") draws2 = Ok (ex_put (ukey "b" 1) (payload "x") draws2) /\
  ((ukey "b" 1 ∈ [ukey "a" 1; ukey "c" 1; ukey "e" 1] /\
    forward (ex_put (ukey "b" 1) (payload "x") draws2) =
      Ok [ukey "a" 1; ukey "c" 1; ukey "e" 1]) \/
   ((ukey "b" 1 ∉ [ukey "a" 1; ukey "c" 1; ukey "e" 1]) /\ exists ks1 ks2,
      [ukey "a" 1; ukey "c" 1; ukey "e" 1] = ks1 ++ ks2 /\
      forward (ex_put (ukey "b" 1) (payload "x") draws2) = Ok (ks1 ++ ukey "b" 1 :: ks2) /\
      Forall (fun y => klt y (ukey "b" 1)) ks1 /\ Forall (klt (ukey "b" 1)) ks2)).
Proof.
  assert (H1 : 4096 <= MaxUint32) by (vm_compute; intro; discriminate).
  assert (H2 : build 4096 ex_ops = Ok ex_s) by (vm_compute; reflexivity).
  assert (H3 : forward ex_s = Ok [ukey "a" 1; ukey "c" 1; ukey "e" 1])
    by (vm_compute; reflexivity).
  assert (H4 : Put ex_s (ukey "b" 1) (payload "x") draws2 =
               Ok (ex_put (ukey "b" 1) (payload "x") draws2)) by (vm_compute; reflexivity).
  assert (Hf : Forall keySizeFits (keys_of ex_ops)) by (repeat constructor).
  assert (Hk : keySizeFits (ukey "b" 1)) by reflexivity.
  split; [exact H1|]. split; [exact Hf|]. split; [exact Hk|]. split; [exact H2|].
  split; [exact H3|]. split; [exact H4|].
  exact (Put_forward 4096 ex_ops ex_s (ukey "b" 1) (payload "x") draws2 _ _ H1 Hf Hk H2 H3 H4).
Defined.

(** ** What a put leaves alone *)

Lemma near_split_filter a k L P Q :
  near_split a k L P Q -> Q = filter (fun y => ~ klt (nkey a y) k) L.
Proof.
  intros (-> & HP & HQ). symmetry. apply filter_split_r; [|done].
  eapply Forall_impl; [exact HP|]. intros y Hy Hn. by apply Hn.
Qed.

Lemma Get_filter s a L k :
  Inv s a L -> Get s k = Ok (get_result a k (filter (fun y => ~ klt (nkey a y) k) L)).
Proof.
  intros INV. destruct (Get_wf s a _ k (Inv_wf _ _ _ INV)) as (P & Q & Hsp & ->).
  rewrite (Inv_levels0 _ _ _ INV) in Hsp. by rewrite (near_split_filter _ _ _ _ _ Hsp).
Qed.

Lemma other_version k k' :
  ~ (UserKey k' = UserKey k /\ Version k <= Version k') -> ~ klt k k' ->
  SameUserKey k' k = false.
Proof.
  intros Hno Hlt. destruct (SameUserKey k' k) eqn:E; [|done]. exfalso.
  apply SameUserKey_eq in E. apply Hno. split; [done|].
  apply (Compare_same_user k' k E). unfold klt in Hlt. rewrite (Compare_antisym k k'). lia.
Qed.

Lemma get_result_ext a a' k Q Q' :
  head Q' = head Q ->
  (forall q, head Q = Some q -> nkey a' q = nkey a q /\
     (SameUserKey k (nkey a q) = true -> nval a' q = nval a q)) ->
  get_result a' k Q' = get_result a k Q.
Proof.
  destruct Q as [|q Q], Q' as [|q' Q']; try done. intros [= ->] H.
  destruct (H q eq_refl) as [Hk Hv].
  cbn [get_result]. rewrite Hk. destruct (SameUserKey k (nkey a q)); [|done].
  by rewrite Hv.
Qed.

(** X9: on a skiplist built by puts of keys whose size fits the 16-bit
    keySize field, a put of such a key k changes what Get returns only for
    keys of the same user key at the Version of k or a later one: for
    every other key (of any size) Get returns after the put what it
    returned before. *)
Theorem Put_Get_frame sz ops s k v rnd s' k' :
  sz <= MaxUint32 -> Forall keySizeFits (keys_of ops) -> keySizeFits k ->
  build sz ops = Ok s -> Put s k v rnd = Ok s' ->
  ~ (UserKey k' = UserKey k /\ Version k <= Version k') ->
  Get s' k' = Get s k'.
Proof.
  intros Hsz Hfit Hfk Hb Hp Hno. destruct (build_Inv sz ops s Hsz Hfit Hb) as (a & L & INV).
  destruct (Put_Inv s a L k v rnd s' INV Hfk Hp) as (a' & L' & INV' & Heff & _).
  rewrite (Get_filter s a L k' INV), (Get_filter s' a' L' k' INV'). f_equal.
  pose proof (inv_sorted _ _ _ INV') as Hs'.
  destruct Heff as [(e & He & Hek & -> & _ & Hvo & Hk & _) | (_ & A & B & x & -> & -> & HxL & Hxk & _ & Hold)].
  - rewrite (filter_ext_in (fun y => ~ klt (nkey a' y) k') (fun y => ~ klt (nkey a y) k') L)
      by (intros y _; by rewrite Hk).
    apply get_result_ext; [done|]. intros q Hq. split; [apply Hk|]. intros Hsame.
    apply Hvo. intros ->. apply head_Some_elem_of, list_elem_of_filter in Hq as [Hq _].
    rewrite Hek in Hq, Hsame. by rewrite (other_version k k' Hno Hq) in Hsame.
  - assert (HA : filter (fun y => ~ klt (nkey a' y) k') A = filter (fun y => ~ klt (nkey a y) k') A).
    { apply filter_ext_in. intros y Hy.
      destruct (Hold y ltac:(rewrite elem_of_app; by left)) as [-> _]. done. }
    assert (HB : filter (fun y => ~ klt (nkey a' y) k') B = filter (fun y => ~ klt (nkey a y) k') B).
    { apply filter_ext_in. intros y Hy.
      destruct (Hold y ltac:(rewrite elem_of_app; by right)) as [-> _]. done. }
    assert (Hext : forall Q, (forall q, head Q = Some q -> q ∈ A ++ B) ->
                     get_result a' k' Q = get_result a k' Q).
    { intros Q HQ. apply get_result_ext; [done|]. intros q Hq. destruct (Hold q (HQ q Hq)). done. }
    rewrite !filter_app, filter_cons, HA, HB, Hxk.
    destruct (decide (~ klt k k')) as [Hge|Hlt].
    + destruct (filter (fun y => ~ klt (nkey a y) k') A) as [|q QA] eqn:EA.
      * cbn [app get_result]. rewrite Hxk, (other_version k k' Hno Hge).
        destruct (filter (fun y => ~ klt (nkey a y) k') B) as [|q QB] eqn:EB; [done|].
        cbn [get_result].
        assert (Hq : q ∈ B).
        { assert (q ∈ filter (fun y => ~ klt (nkey a y) k') B) as Hq by (rewrite EB; by left).
          apply list_elem_of_filter in Hq. tauto. }
        assert (Hkq : klt k (nkey a q)).
        { apply ascending_app in Hs' as (_ & Hs' & _). apply ascending_cons in Hs' as [_ Hs'].
          specialize (Hs' q Hq). rewrite Hxk in Hs'.
          by destruct (Hold q ltac:(rewrite elem_of_app; by right)) as [<- _]. }
        destruct (SameUserKey k' (nkey a q)) eqn:Esame; [|done]. exfalso.
        apply SameUserKey_eq in Esame. apply Hno.
        assert (Hu : UserKey k = UserKey k').
        { apply (Compare_sandwich k' k (nkey a q)); [| unfold klt in Hkq; lia | done].
          unfold klt in Hge. rewrite (Compare_antisym k k'). lia. }
        split; [done|]. apply (Compare_same_user k' k (eq_sym Hu)).
        unfold klt in Hge. rewrite (Compare_antisym k k'). lia.
      * cbn [app]. apply get_result_ext; [done|]. intros q' [= <-].
        assert (Hq : q ∈ A).
        { assert (q ∈ filter (fun y => ~ klt (nkey a y) k') A) as Hq by (rewrite EA; by left).
          apply list_elem_of_filter in Hq. tauto. }
        destruct (Hold q ltac:(rewrite elem_of_app; by left)). done.
    + cbn [app]. rewrite <- filter_app. apply Hext. intros q Hq.
      apply head_Some_elem_of, list_elem_of_filter in Hq. tauto.
Qed.

Lemma Put_Get_frame_witness :
  4096 <= MaxUint32 /\ Forall keySizeFits (keys_of ex_ops) /\ keySizeFits (ukey "c" 5) /\
  build 4096 ex_ops = Ok ex_s /\
  Put ex_s (ukey "c" 5) (payload "x") draws2 = Ok (ex_put (ukey "c" 5) (payload "x") draws2) /\
  ~ (UserKey (ukey "c" 3) = UserKey (ukey "c" 5) /\
     Version (ukey "c" 5) <= Version (ukey "c" 3)) /\
  Get (ex_put (ukey "c" 5) (payload "x") draws2) (ukey "c" 3) = Get ex_s (ukey "c" 3).
Proof.
  assert (H1 : 4096 <= MaxUint32) by (vm_compute; intro; discriminate).
  assert (H2 : build 4096 ex_ops = Ok ex_s) by (vm_compute; reflexivity).
  assert (H3 : Put ex_s (ukey "c" 5) (payload "x") draws2 =
               Ok (ex_put (ukey "c" 5) (payload "x") draws2)) by (vm_compute; reflexivity).
  assert (H4 : ~ (UserKey (ukey "c" 3) = UserKey (ukey "c" 5) /\
                  Version (ukey "c" 5) <= Version (ukey "c" 3))).
  { intros [_ H]. vm_compute in H. apply H. reflexivity. }
  assert (Hf : Forall keySizeFits (keys_of ex_ops)) by (repeat constructor).
  assert (Hk : keySizeFits (ukey "c" 5)) by reflexivity.
  split; [exact H1|]. split; [exact Hf|]. split; [exact Hk|]. split; [exact H2|].
  split; [exact H3|]. split; [exact H4|].
  exact (Put_Get_frame 4096 ex_ops ex_s (ukey "c" 5) (payload "x") draws2 _ (ukey "c" 3)
           H1 Hf Hk H2 H3 H4).
Defined.

(** ** How a put can fail *)

(** X10: on a skiplist built by puts, a put (with no hint) returns, or
    fails because the arena is exhausted: it never dereferences a nil node,
    never indexes a tower or a hint out of its bounds and never walks a
    chain for longer than the list has nodes. *)
Theorem Put_fails_only_OutOfArena sz ops s k v rnd e :
  sz <= MaxUint32 -> build sz ops = Ok s -> Put s k v rnd = Err e -> e = OutOfArena.
Proof.
  intros Hsz Hb Hp. destruct (build_SInv sz ops s Hsz Hb) as (a & Ls & SI).
  destruct (Put_struct s a Ls k v rnd SI) as [(s' & a' & Ls' & E & _) | E]; congruence.
Qed.

Lemma Put_fails_only_OutOfArena_witness :
  200 <= MaxUint32 /\
  build 200 [(ukey "a" 1, payload "1", draws1)] = Ok small_s /\
  Put small_s (ukey "c" 1) (payload "2") draws1 = Err OutOfArena /\
  OutOfArena = OutOfArena.
Proof.
  assert (H1 : 200 <= MaxUint32) by (vm_compute; intro; discriminate).
  assert (H2 : build 200 [(ukey "a" 1, payload "1", draws1)] = Ok small_s)
    by (vm_compute; reflexivity).
  assert (H3 : Put small_s (ukey "c" 1) (payload "2") draws1 = Err OutOfArena)
    by (vm_compute; reflexivity).
  split; [exact H1|]. split; [exact H2|]. split; [exact H3|].
  exact (Put_fails_only_OutOfArena 200 _ small_s (ukey "c" 1) (payload "2") draws1
           OutOfArena H1 H2 H3).
Defined.

(** ** The last put of a key *)

Lemma puts_app ops1 : forall ops2 s,
  puts (ops1 ++ ops2) s = let* s1 := puts ops1 s in puts ops2 s1.
Proof.
  induction ops1 as [|[[k v] rnd] ops1 IH]; intros ops2 s; [done|].
  cbn [app puts]. destruct (Put s k v rnd) as [s1|]; cbn [bind]; [apply IH | done].
Qed.

Lemma puts_keep ops : forall s a L s' e,
  Inv s a L -> Forall keySizeFits (keys_of ops) ->
  e ∈ L -> nkey a e ∉ keys_of ops -> puts ops s = Ok s' ->
  exists a' L', Inv s' a' L' /\ e ∈ L' /\ nkey a' e = nkey a e /\ nval a' e = nval a e.
Proof.
  induction ops as [|[[k v] rnd] ops IH]; intros s a L s' e INV Hfit He Hk Hp.
  - injection Hp as <-. by exists a, L.
  - cbn [puts] in Hp. destruct (Put s k v rnd) as [s1|] eqn:E; [|done]. cbn [bind] in Hp.
    unfold keys_of in Hk. cbn [map fst] in Hk. apply not_elem_of_cons in Hk as [Hne Hk].
    unfold keys_of in Hfit. cbn [map fst] in Hfit. apply Forall_cons in Hfit as [Hfk Hfit].
    destruct (Put_Inv s a L k v rnd s1 INV Hfk E) as (a1 & L1 & INV1 & Heff & _).
    assert (H1 : e ∈ L1 /\ nkey a1 e = nkey a e /\ nval a1 e = nval a e).
    { destruct Heff as [(e0 & He0 & Hek & -> & _ & Hvo & Hk1 & _) | (_ & A & B & x & -> & -> & _ & _ & _ & Hold)].
      - split_and!; [done | apply Hk1 | apply Hvo]. intros ->. by rewrite Hek in Hne.
      - destruct (Hold e He) as [? ?]. split_and!; [|done|done].
        apply elem_of_app in He as [He|He]; apply elem_of_app; [by left|].
        right. by right. }
    destruct H1 as (He1 & Hk1 & Hv1).
    destruct (IH s1 a1 L1 s' e INV1 Hfit He1 ltac:(by rewrite Hk1) Hp)
      as (a' & L' & INV' & He' & Hk' & Hv').
    exists a', L'. split_and!; [done | done | congruence | congruence].
Qed.

Lemma build_last sz ops1 k v rnd ops2 s :
  sz <= MaxUint32 -> Forall keySizeFits (keys_of (ops1 ++ (k, v, rnd) :: ops2)) ->
  build sz (ops1 ++ (k, v, rnd) :: ops2) = Ok s ->
  k ∉ keys_of ops2 ->
  exists a L e, Inv s a L /\ e ∈ L /\ nkey a e = k /\ nval a e = v.
Proof.
  intros Hsz Hfit Hb Hk.
  unfold keys_of in Hfit. rewrite map_app in Hfit. cbn [map fst] in Hfit.
  apply Forall_app in Hfit as [Hf1 Hfit]. apply Forall_cons in Hfit as [Hfk Hf2].
  unfold build in Hb. destruct (newSkiplist sz) as [s0|] eqn:Hnew; [|done]. cbn [bind] in Hb.
  destruct (newSkiplist_Inv sz s0 Hnew Hsz) as [a0 INV0].
  rewrite puts_app in Hb. destruct (puts ops1 s0) as [s1|] eqn:E1; [|done]. cbn [bind puts] in Hb.
  destruct (puts_Inv ops1 s0 a0 [] INV0 Hf1 s1 E1) as (a1 & L1 & INV1).
  destruct (Put s1 k v rnd) as [s2|] eqn:E2; [|done]. cbn [bind] in Hb.
  destruct (Put_Inv s1 a1 L1 k v rnd s2 INV1 Hfk E2) as (a2 & L2 & INV2 & Heff & _).
  assert (He : exists e, e ∈ L2 /\ nkey a2 e = k /\ nval a2 e = v).
  { destruct Heff as [(e & He & Hek & -> & Hv & _ & Hk2 & _) | (_ & A & B & x & _ & -> & _ & Hxk & Hxv & _)].
    - exists e. by rewrite Hk2.
    - exists x. split; [|done]. apply elem_of_app. right. by left. }
  destruct He as (e & He & Hek & Hev).
  destruct (puts_keep ops2 s2 a2 L2 s e INV2 Hf2 He ltac:(by rewrite Hek) Hb)
    as (a' & L' & INV' & He' & Hk' & Hv').
  exists a', L', e. split_and!; [done | done | congruence | congruence].
Qed.

Lemma last_put ops k :
  k ∈ keys_of ops ->
  exists ops1 v rnd ops2, ops = ops1 ++ (k, v, rnd) :: ops2 /\ k ∉ keys_of ops2.
Proof.
  induction ops as [|[[k0 v0] rnd0] ops IH]; intros Hk.
  - by apply elem_of_nil in Hk.
  - assert (Hdec : k ∈ keys_of ops \/ k ∉ keys_of ops).
    { clear. induction ops as [|[[k1 v1] rnd1] ops IH]; [right; apply not_elem_of_nil|].
      unfold keys_of in *. cbn [map fst].
      destruct IH as [IH|IH]; [left; by right|].
      destruct (Z.eq_dec (Compare k k1) 0) as [E|E].
      - left. apply Compare_eq in E as ->. by left.
      - right. apply not_elem_of_cons. split; [|done]. intros ->.
        by rewrite Compare_refl in E. }
    destruct Hdec as [Hin|Hout].
    + destruct (IH Hin) as (ops1 & v & rnd & ops2 & -> & Hno).
      by exists ((k0, v0, rnd0) :: ops1), v, rnd, ops2.
    + unfold keys_of in Hk. cbn [map fst] in Hk.
      apply elem_of_cons in Hk as [->|Hk]; [|done].
      by exists [], v0, rnd0, ops.
Qed.

(** X16: Get follows the last put of a key: on a skiplist built by puts of
    keys whose size fits the 16-bit keySize field, Get of a key returns the
    Meta, UserMeta, ExpiresAt and Value of the value of the last put of
    that key, with the Version of the key as its Version field, whatever
    was put before it and whatever other keys were put after it, and the
    scan of the list shows the key with the value put; Get of a key whose
    user key was never put returns the empty value. *)
Theorem build_Get_last_put sz ops1 k v rnd ops2 s :
  sz <= MaxUint32 -> Forall keySizeFits (keys_of (ops1 ++ (k, v, rnd) :: ops2)) ->
  build sz (ops1 ++ (k, v, rnd) :: ops2) = Ok s ->
  k ∉ keys_of ops2 ->
  Get s k = Ok (mkValue (Meta v) (UserMeta v) (ExpiresAt v) (Value v) (Version k)) /\
  (exists es, scan s false = Ok es /\ (k, v) ∈ es) /\
  (forall k', (forall q, q ∈ keys_of (ops1 ++ (k, v, rnd) :: ops2) -> UserKey q <> UserKey k') ->
              Get s k' = Ok emptyValue).
Proof.
  intros Hsz Hfit Hb Hk.
  destruct (build_keys sz _ s Hsz Hfit Hb) as (af & Lf & INVf & _ & Hkeys).
  destruct (build_last sz ops1 k v rnd ops2 s Hsz Hfit Hb Hk)
    as (a' & L' & e & INV' & He' & Hk' & Hv').
  split_and!.
  - destruct (Get_present s a' L' k e INV' He' Hk') as [HG _]. by rewrite HG, Hv'.
  - eexists. split; [apply (scan_forward_wf s a' _ (Inv_wf _ _ _ INV'))|].
    rewrite (Inv_levels0 _ _ _ INV').
    replace (k, v) with (entry a' e) by (unfold entry; by rewrite Hk', Hv').
    by apply list_elem_of_fmap_2.
  - intros k' Hnone. rewrite (Get_filter s af Lf k' INVf).
    destruct (filter _ Lf) as [|q Q] eqn:EQ; [done|]. cbn [get_result].
    assert (Hq : q ∈ Lf).
    { assert (q ∈ filter (fun y => ~ klt (nkey af y) k') Lf) as Hq by (rewrite EQ; by left).
      apply list_elem_of_filter in Hq. tauto. }
    destruct (SameUserKey k' (nkey af q)) eqn:Es; [|done]. exfalso.
    apply SameUserKey_eq in Es. apply (Hnone (nkey af q)); [|done].
    apply Hkeys. by apply list_elem_of_fmap_2.
Qed.

Lemma build_Get_last_put_witness :
  8192 <= MaxUint32 /\
  Forall keySizeFits
    (keys_of ([(ukey "e" 1, payload "7", draws2); (ukey "a" 1, payload "8", draws2)] ++
              (ukey "c" 1, payload "9", draws1) :: [(ukey "a" 1, payload "0", draws1)])) /\
  build 8192 ([(ukey "e" 1, payload "7", draws2); (ukey "a" 1, payload "8", draws2)] ++
              (ukey "c" 1, payload "9", draws1) :: [(ukey "a" 1, payload "0", draws1)])
    = Ok ex_s2 /\
  (ukey "c" 1 ∉ keys_of [(ukey "a" 1, payload "0", draws1)]) /\
  Get ex_s2 (ukey "c" 1) =
    Ok (mkValue (Meta (payload "9")) (UserMeta (payload "9")) (ExpiresAt (payload "9"))
                (Value (payload "9")) (Version (ukey "c" 1))).
Proof.
  assert (H1 : 8192 <= MaxUint32) by (vm_compute; intro; discriminate).
  assert (H2 : build 8192 ([(ukey "e" 1, payload "7", draws2); (ukey "a" 1, payload "8", draws2)] ++
              (ukey "c" 1, payload "9", draws1) :: [(ukey "a" 1, payload "0", draws1)])
               = Ok ex_s2) by (vm_compute; reflexivity).
  assert (H3 : ukey "c" 1 ∉ keys_of [(ukey "a" 1, payload "0", draws1)]).
  { unfold keys_of. cbn [map fst]. intros H. apply list_elem_of_singleton in H.
    unfold ukey in H. discriminate H. }
  assert (Hf : Forall keySizeFits
    (keys_of ([(ukey "e" 1, payload "7", draws2); (ukey "a" 1, payload "8", draws2)] ++
              (ukey "c" 1, payload "9", draws1) :: [(ukey "a" 1, payload "0", draws1)])))
    by (repeat constructor).
  split; [exact H1|]. split; [exact Hf|]. split; [exact H2|]. split; [exact H3|].
  exact (proj1 (build_Get_last_put 8192 _ (ukey "c" 1) (payload "9") draws1 _ ex_s2
                  H1 Hf H2 H3)).
Defined.

(** X17: a skiplist built by puts of keys whose size fits the 16-bit
    keySize field is the sorted map of its puts: the scan of the list
    returns, its keys are strictly ascending, and it holds the entry
    (k, v) exactly when the last put of k in the sequence put v. *)
Theorem build_scan_map sz ops s :
  sz <= MaxUint32 -> Forall keySizeFits (keys_of ops) -> build sz ops = Ok s ->
  exists es, scan s false = Ok es /\ StronglySorted klt (map fst es) /\
    forall k v, (k, v) ∈ es <->
      exists ops1 rnd ops2, ops = ops1 ++ (k, v, rnd) :: ops2 /\ (k ∉ keys_of ops2).
Proof.
  intros Hsz Hfit Hb. destruct (build_keys sz ops s Hsz Hfit Hb) as (a & L & INV & _ & Hkeys).
  pose proof (scan_forward_wf s a _ (Inv_wf _ _ _ INV)) as Hscan.
  rewrite (Inv_levels0 _ _ _ INV) in Hscan.
  exists (map (entry a) L). split_and!; [done | |].
  - rewrite map_map. apply (ascending_keys a L), (inv_sorted _ _ _ INV).
  - assert (Hlast : forall k v ops1 rnd ops2,
              ops = ops1 ++ (k, v, rnd) :: ops2 -> k ∉ keys_of ops2 ->
              exists e, e ∈ L /\ nkey a e = k /\ nval a e = v).
    { intros k v ops1 rnd ops2 E Hno. rewrite E in Hb, Hfit.
      destruct (build_last sz ops1 k v rnd ops2 s Hsz Hfit Hb Hno)
        as (a' & L' & e & INV' & He' & Hk' & Hv').
      pose proof (scan_forward_wf s a' _ (Inv_wf _ _ _ INV')) as Hscan'.
      rewrite (Inv_levels0 _ _ _ INV'), Hscan in Hscan'. injection Hscan' as EL.
      assert (Hin : entry a' e ∈ map (entry a) L) by (rewrite EL; by apply list_elem_of_fmap_2).
      apply list_elem_of_fmap in Hin as (y & Hy1 & Hy2). exists y.
      unfold entry in Hy1. injection Hy1 as E1 E2. split_and!; [done | congruence | congruence]. }
    intros k v. split.
    + intros Hin. apply list_elem_of_fmap in Hin as (y & Hy1 & Hy2).
      unfold entry in Hy1. injection Hy1 as -> ->.
      assert (Hk : nkey a y ∈ keys_of ops) by (apply Hkeys; by apply list_elem_of_fmap_2).
      destruct (last_put ops _ Hk) as (ops1 & v' & rnd & ops2 & E & Hno).
      destruct (Hlast _ _ _ _ _ E Hno) as (e & He & Hek & Hev).
      assert (e = y) as -> by (by apply (ascending_key_inj a L e y (inv_sorted _ _ _ INV))).
      exists ops1, rnd, ops2. by rewrite Hev.
    + intros (ops1 & rnd & ops2 & E & Hno).
      destruct (Hlast _ _ _ _ _ E Hno) as (e & He & <- & <-).
      by apply (list_elem_of_fmap_2 (entry a)).
Qed.

Lemma build_scan_map_witness :
  8192 <= MaxUint32 /\ Forall keySizeFits (keys_of ex_ops2) /\
  build 8192 ex_ops2 = Ok ex_s2 /\
  exists es, scan ex_s2 false = Ok es /\ StronglySorted klt (map fst es) /\
    forall k v, (k, v) ∈ es <->
      exists ops1 rnd ops2, ex_ops2 = ops1 ++ (k, v, rnd) :: ops2 /\ (k ∉ keys_of ops2).
Proof.
  assert (H1 : 8192 <= MaxUint32) by (vm_compute; intro; discriminate).
  assert (H2 : build 8192 ex_ops2 = Ok ex_s2) by (vm_compute; reflexivity).
  assert (Hf : Forall keySizeFits (keys_of ex_ops2)) by (repeat constructor).
  split; [exact H1|]. split; [exact Hf|]. split; [exact H2|].
  exact (build_scan_map 8192 ex_ops2 ex_s2 H1 Hf H2).
Defined.

(** * Lookups through a hint *)

Lemma hint_ok_low s a L A B h :
  Inv s a L -> L = A ++ B ->
  length (h_prev h) = 21%nat -> length (h_next h) = 21%nat ->
  hint_ok s a A B
    (mkHint (s_height s) (s_height s)
            (<[Z.to_nat (s_height s) := s_head s]> (h_prev h))
            (<[Z.to_nat (s_height s) := 0]> (h_next h)))
    (Z.to_nat (s_height s)) (Z.to_nat (s_height s)).
Proof.
  intros INV HL Hp Hn. pose proof (inv_height _ _ _ INV) as Hh. unfold maxHeight in Hh.
  split_and!; cbn [h_prev h_next]; rewrite ?length_insert; [done | done |].
  intros j Hj. assert (j = Z.to_nat (s_height s)) as -> by lia.
  destruct (splice_top s a L A B (Z.to_nat (s_height s)) INV HL ltac:(lia)) as [-> ->].
  split; apply list_lookup_insert_eq; lia.
Qed.

Section GetSearch.

Context (s : skiplist) (a : arena) (k : Key) (A B : list Z).
Hypothesis INV : Inv s a (A ++ B).
Hypothesis SPLIT : near_split a k (A ++ B) A B.

Lemma fillDown_Ok n : forall cnt h,
  (forall j, (j < cnt)%nat -> tall a j n) ->
  length (h_prev h) = 21%nat -> length (h_next h) = 21%nat -> (cnt <= 21)%nat ->
  exists h', fillDown cnt s n h = Ok h'.
Proof.
  induction cnt as [|j IH]; intros h Ht Hp Hn Hc; [by eexists|].
  cbn [fillDown]. rewrite arr_set_Ok by lia. cbn [bind].
  destruct (Ht j ltac:(lia)) as [y Hy].
  rewrite (getNext_next s a j n y (inv_arena _ _ _ INV) Hy). cbn [bind].
  rewrite arr_set_Ok by lia. cbn [bind].
  apply IH; cbn [set_prev_next h_prev h_next]; rewrite ?length_insert; try done; try lia.
  intros j' Hj'. apply Ht. lia.
Qed.

(** No node holds the key: the search yields nil. *)
Lemma getSearch_nomatch : forall cnt h hi,
  (forall q, q ∈ B -> Compare k (nkey a q) <> 0) ->
  hint_ok s a A B h cnt hi -> (cnt <= hi)%nat -> (hi <= Z.to_nat maxHeight)%nat ->
  exists h', getSearch cnt s k h = Ok (0, h').
Proof.
  induction cnt as [|i IH]; intros h hi Hno Hok Hle Hhi; [by eexists|].
  cbn [getSearch].
  destruct (hint_step s a A B h i hi Hok ltac:(lia)) as (-> & E2 & E3 & Hok'). cbn [bind].
  rewrite (splice_step s a k A B INV SPLIT) by lia. cbn [bind]. rewrite E2, E3. cbn [bind].
  destruct (filter (tall a i) B) as [|q Q] eqn:E.
  - apply (IH _ hi); [done | done | lia | done].
  - assert (q ∈ B) as Hq.
    { assert (q ∈ filter (tall a i) B) as Hq by (rewrite E; set_solver).
      apply list_elem_of_filter in Hq. tauto. }
    apply Hno, Z.eqb_neq in Hq. rewrite Hq. apply (IH _ hi); [done | done | lia | done].
Qed.

(** The first node not before the key holds it: the search yields it. *)
Lemma getSearch_match e B' : forall cnt h hi,
  B = e :: B' -> Compare k (nkey a e) = 0 ->
  hint_ok s a A B h cnt hi -> (1 <= cnt <= hi)%nat -> (hi <= Z.to_nat maxHeight)%nat ->
  exists h', getSearch cnt s k h = Ok (e, h').
Proof.
  intros cnt h hi HB Hk. revert h.
  induction cnt as [|i IH]; intros h Hok Hle Hhi; [lia|].
  cbn [getSearch].
  destruct (hint_step s a A B h i hi Hok ltac:(lia)) as (-> & E2 & E3 & Hok'). cbn [bind].
  rewrite (splice_step s a k A B INV SPLIT) by lia. cbn [bind]. rewrite E2, E3. cbn [bind].
  unfold splice_next. rewrite HB, filter_cons.
  destruct (decide (tall a i e)) as [Ht|Ht].
  - apply Z.eqb_eq in Hk. rewrite Hk. cbn [List.hd h_next set_prev_next].
    rewrite (arr_get_Ok _ i e).
    2:{ apply list_lookup_insert_eq. destruct Hok as (_ & -> & _). unfold maxHeight in Hhi. lia. }
    cbn [bind].
    destruct (fillDown_Ok e (S i) (set_prev_next h (<[i:=splice_prev s a A i]> (h_prev h))
                                                   (<[i:=e]> (h_next h)))) as [h' ->].
    { intros j Hj. eapply tall_le; [done | lia]. }
    { cbn. rewrite length_insert. by destruct Hok. }
    { cbn. rewrite length_insert. by destruct Hok as (_ & ? & _). }
    { unfold maxHeight in Hhi. lia. }
    by eexists.
  - assert (i <> 0%nat) as Hi0.
    { intros ->. apply Ht. apply (inv_tall _ _ _ INV). rewrite HB. set_solver. }
    assert (Hhint : hint_ok s a A B
              (set_prev_next h (<[i:=splice_prev s a A i]> (h_prev h))
                 (<[i:=List.hd 0 (filter (tall a i) B')]> (h_next h))) i hi).
    { unfold splice_next in Hok'. rewrite HB, filter_cons, decide_False in Hok' by done.
      by rewrite HB. }
    destruct (filter (tall a i) B') as [|q Q] eqn:E.
    + apply IH; [done | lia | done].
    + assert (q ∈ B') as Hq.
      { assert (q ∈ filter (tall a i) B') as Hq by (rewrite E; set_solver).
        apply list_elem_of_filter in Hq. tauto. }
      assert (Compare k (nkey a q) < 0) as Hlt.
      { destruct (near_split_signs a k _ A B SPLIT (inv_sorted _ _ _ INV)) as (_ & _ & H3).
        by apply (H3 e B' HB). }
      replace (Compare k (nkey a q) =? 0) with false by (symmetry; apply Z.eqb_neq; lia).
      apply IH; [done | lia | done].
Qed.

End GetSearch.

(** The node a lookup through a hint of a lower height settles on. *)
Lemma GetWithHint_low s a L k h :
  Inv s a L ->
  (forall h0, h = Some h0 ->
     h_height h0 < s_height s /\
     length (h_prev h0) = 21%nat /\ length (h_next h0) = 21%nat) ->
  exists n h',
    GetWithHint s k h = (let* vs := valueOf s k n in Ok (vs, h')) /\
    ((n ∈ L /\ nkey a n = k) \/ (n = 0 /\ forall y, y ∈ L -> nkey a y <> k)).
Proof.
  intros INV Hh. pose proof (inv_height _ _ _ INV) as Hlh.
  unfold GetWithHint, getHeight.
  set (h1 := match h with Some h0 => h0 | None => newHint end).
  assert (Hh1 : h_height h1 < s_height s /\
                length (h_prev h1) = 21%nat /\ length (h_next h1) = 21%nat).
  { subst h1. destruct h as [h0|]; [by apply Hh|]. cbn. split; [lia | done]. }
  destruct Hh1 as (Hlow & Hp & Hn).
  rewrite (calculateRecomputeHeight_low s k h1 (s_height s) Hlh Hlow Hp Hn). cbn [bind].
  replace (s_height s >? 0) with true by (symmetry; apply Z.gtb_lt; lia).
  destruct (ascending_split a k L (inv_sorted _ _ _ INV)) as (A & B & Hsp).
  pose proof Hsp as (HL & HA & HB).
  pose proof (hint_ok_low s a L A B h1 INV HL Hp Hn) as Hok.
  destruct (near_split_signs a k L A B Hsp (inv_sorted _ _ _ INV)) as (SA & SB & SB').
  rewrite HL in INV, Hsp.
  assert (Hcase : (exists e B', B = e :: B' /\ Compare k (nkey a e) = 0) \/
                  (forall q, q ∈ B -> Compare k (nkey a q) < 0)).
  { destruct B as [|e B']; [right; intros q Hq; by apply elem_of_nil in Hq|].
    destruct (Z.eq_dec (Compare k (nkey a e)) 0) as [E|E]; [left; by exists e, B'|].
    right. intros q Hq. apply elem_of_cons in Hq as [->|Hq].
    - specialize (SB e ltac:(by left)). lia.
    - by apply (SB' e B'). }
  destruct Hcase as [(e & B' & EB & Hke) | Hno].
  - destruct (getSearch_match s a k A B INV Hsp e B' (Z.to_nat (s_height s)) _
                (Z.to_nat (s_height s)) EB Hke Hok) as [h' ->]; [lia | lia |].
    cbn [bind]. eexists e, _. split; [done|]. left. split.
    + rewrite HL, EB. apply elem_of_app. right. by left.
    + symmetry. by apply Compare_eq.
  - assert (Hno' : forall q, q ∈ B -> Compare k (nkey a q) <> 0).
    { intros q Hq. specialize (Hno q Hq). lia. }
    destruct (getSearch_nomatch s a k A B INV Hsp (Z.to_nat (s_height s)) _
                (Z.to_nat (s_height s)) Hno' Hok) as [h' ->]; [lia | lia |].
    cbn [bind]. eexists 0, _. split; [done|]. right. split; [done|].
    intros y Hy Hyk. rewrite HL in Hy. apply elem_of_app in Hy as [Hy|Hy].
    + specialize (SA y Hy). rewrite Hyk, Compare_refl in SA. lia.
    + specialize (Hno y Hy). rewrite Hyk, Compare_refl in Hno. lia.
Qed.

(** X11: on a skiplist built by puts of keys whose size fits the 16-bit
    keySize field, GetWithHint with no hint, with a new hint, or with any
    hint whose height is below that of the list (the arrays of a hint have
    the maxHeight + 1 slots of the Go type), returns; for a key the list
    holds (user key and Version) it returns what Get returns, and for
    every other key it returns the empty value, whatever Get returns. *)
Theorem GetWithHint_low_hint sz ops s k h ks :
  sz <= MaxUint32 -> Forall keySizeFits (keys_of ops) ->
  build sz ops = Ok s -> forward s = Ok ks ->
  (forall h0, h = Some h0 ->
     h_height h0 < s_height s /\
     length (h_prev h0) = 21%nat /\ length (h_next h0) = 21%nat) ->
  exists v h',
    GetWithHint s k h = Ok (v, h') /\
    (k ∈ ks -> Get s k = Ok v) /\
    (k ∉ ks -> v = emptyValue).
Proof.
  intros Hsz Hfit Hb Hf Hh. destruct (build_Inv sz ops s Hsz Hfit Hb) as (a & L & INV).
  rewrite (forward_wf s a _ (Inv_wf _ _ _ INV)), (Inv_levels0 _ _ _ INV) in Hf.
  injection Hf as <-.
  destruct (GetWithHint_low s a L k h INV Hh) as (n & h' & -> & [[Hn Hnk] | [-> Hno]]).
  - destruct (Get_present s a L k n INV Hn Hnk) as [HG _].
    assert (Hnz : n <> 0).
    { replace L with ([] ++ L) in INV, Hn by done. by apply (Inv_nonzero s a [] L INV). }
    destruct (inv_tall _ _ _ INV n Hn) as [Ht _]. apply tall_node in Ht as [nd Hnd].
    rewrite (valueOf_node s a k n nd (inv_arena _ _ _ INV) Hnz Hnd).
    rewrite Hnk. assert (SameUserKey k k = true) as -> by (by apply SameUserKey_eq).
    cbn [bind]. eexists _, _. split; [done|]. split; [done|].
    intros Hk. exfalso. apply Hk. rewrite <- Hnk. by apply list_elem_of_fmap_2.
  - cbn [valueOf Z.eqb bind]. eexists _, _. split; [done|]. split; [|done].
    intros Hk. apply list_elem_of_fmap in Hk as (y & Hy1 & Hy2). by destruct (Hno y Hy2).
Qed.

Lemma GetWithHint_low_hint_witness :
  4096 <= MaxUint32 /\ Forall keySizeFits (keys_of ex_ops) /\ build 4096 ex_ops = Ok ex_s /\
  forward ex_s = Ok [ukey "a" 1; ukey "c" 1; ukey "e" 1] /\
  (forall h0, Some newHint = Some h0 ->
     h_height h0 < s_height ex_s /\
     length (h_prev h0) = 21%nat /\ length (h_next h0) = 21%nat) /\
  exists v h',
    GetWithHint ex_s (ukey "c" 1) (Some newHint) = Ok (v, h') /\
    (ukey "c" 1 ∈ [ukey "a" 1; ukey "c" 1; ukey "e" 1] -> Get ex_s (ukey "c" 1) = Ok v) /\
    (ukey "c" 1 ∉ [ukey "a" 1; ukey "c" 1; ukey "e" 1] -> v = emptyValue).
Proof.
  assert (H1 : 4096 <= MaxUint32) by (vm_compute; intro; discriminate).
  assert (H2 : build 4096 ex_ops = Ok ex_s) by (vm_compute; reflexivity).
  assert (H3 : forward ex_s = Ok [ukey "a" 1; ukey "c" 1; ukey "e" 1])
    by (vm_compute; reflexivity).
  assert (H4 : forall h0, Some newHint = Some h0 ->
     h_height h0 < s_height ex_s /\
     length (h_prev h0) = 21%nat /\ length (h_next h0) = 21%nat).
  { intros h0 E. injection E as <-. vm_compute. repeat split; reflexivity. }
  assert (Hfit : Forall keySizeFits (keys_of ex_ops)) by (repeat constructor).
  split; [exact H1|]. split; [exact Hfit|]. split; [exact H2|]. split; [exact H3|].
  split; [exact H4|].
  exact (GetWithHint_low_hint 4096 ex_ops ex_s (ukey "c" 1) (Some newHint) _ H1 Hfit H2 H3 H4).
Defined.

(** * Puts through a hint of a lower height *)

(** A put through a hint whose height is below that of the list searches
    every level again; it keeps the invariant, and overwrites or inserts. *)
Lemma PutWithHint_low_Inv s a L k v h rnd s' h' :
  Inv s a L -> keySizeFits k ->
  (forall h0, h = Some h0 ->
     h_height h0 < s_height s /\
     length (h_prev h0) = 21%nat /\ length (h_next h0) = 21%nat) ->
  PutWithHint s k v h rnd = Ok (s', h') ->
  exists a' L', Inv s' a' L' /\ put_effect a L k v a' L'.
Proof.
  intros INV0 Hfk Hh HPut.
  pose proof (randomHeight_range rnd) as HH. set (H := randomHeight rnd) in *.
  pose proof (inv_height _ _ _ INV0) as Hh0.
  set (lh := Z.max (s_height s) H).
  set (s1 := mkSkiplist lh (s_head s) (s_arena s)).
  assert (INV : Inv s1 a L) by (apply Inv_raise; [done | lia]).
  assert (Hlh : 1 <= lh <= maxHeight) by lia.
  set (h1 := match h with Some h0 => h0 | None => newHint end).
  assert (Hh1 : h_height h1 < lh /\
                length (h_prev h1) = 21%nat /\ length (h_next h1) = 21%nat).
  { subst h1. destruct h as [h0|].
    - destruct (Hh h0 eq_refl) as (? & ? & ?). split; [lia | done].
    - cbn. split; [lia | done]. }
  destruct Hh1 as (Hlow & Hp & Hn).
  set (b0 := match h with Some _ => true | None => false end).
  set (give := fun hh : hint => match h with Some _ => Some hh | None => None end).
  assert (HPut1 : PutWithHint s k v h rnd =
    let* (recomputeHeight, hh) := calculateRecomputeHeight s1 k h1 lh in
    let* (s, hh, returned) :=
      if recomputeHeight >? 0
      then putSearch (Z.to_nat recomputeHeight) s1 k v hh
      else Ok (s1, hh, false) in
    if returned : bool then Ok (s, give hh)
    else
      let* a := the_arena s in
      let* (x, a) := newNode a k v H in
      let s := set_arena s a in
      let* (s, hh, spliceIsValid) := insertLevels (Z.to_nat H) s k x 0 hh b0 in
      if spliceIsValid : bool then
        let* hh := refreshHint (Z.to_nat H) s x 0 hh in Ok (s, give hh)
      else Ok (s, give (mkHint 0 (h_hitHeight hh) (h_prev hh) (h_next hh)))).
  { unfold PutWithHint, getHeight. fold H. fold h1. fold b0.
    destruct (Z.gtb_spec H (s_height s)) as [Hgt|Hle].
    - subst s1 lh. rewrite Z.max_r by lia. done.
    - subst s1 lh. rewrite Z.max_l by lia. by destruct s. }
  rewrite HPut1 in HPut. clear HPut1.
  rewrite (calculateRecomputeHeight_low s1 k h1 lh Hlh Hlow Hp Hn) in HPut.
  cbn [bind] in HPut. change (s_head s1) with (s_head s) in HPut.
  replace (lh >? 0) with true in HPut by (symmetry; apply Z.gtb_lt; lia).
  destruct (ascending_split a k L (inv_sorted _ _ _ INV)) as (A & B & Hsp).
  pose proof Hsp as (HL & HA & HB).
  pose proof (hint_ok_low s1 a L A B h1 INV HL Hp Hn) as Hok.
  change (s_head s1) with (s_head s) in Hok. change (s_height s1) with lh in Hok.
  rewrite HL in INV.
  destruct (near_split_signs a k L A B Hsp (inv_sorted _ _ _ INV0)) as (SA & SB & SB').
  rewrite HL in Hsp.
  assert (Hcase : (exists e B', B = e :: B' /\ Compare k (nkey a e) = 0) \/
                  (forall q, q ∈ B -> Compare k (nkey a q) < 0)).
  { destruct B as [|e B']; [right; intros q Hq; by apply elem_of_nil in Hq|].
    destruct (Z.eq_dec (Compare k (nkey a e)) 0) as [E|E]; [left; by exists e, B'|].
    right. intros q Hq. apply elem_of_cons in Hq as [->|Hq].
    - specialize (SB e ltac:(by left)). lia.
    - by apply (SB' e B'). }
  destruct Hcase as [(e & B' & EB & Hke) | Hno].
  - (* the key is there: its value is overwritten *)
    destruct (putSearch_match s1 a k A B INV Hsp v e B' (Z.to_nat lh) _ (Z.to_nat lh) EB Hke Hok)
      as [hh Hs]; [lia | lia |].
    rewrite Hs in HPut.
    destruct (setValue a e v) as [a'|] eqn:Hset; cbn [bind] in HPut; [|done].
    injection HPut as <- _.
    destruct (setValue_spec a e v a' Hset (inv_alloc _ _ _ INV0)) as (Hnx & Hk & Hv & Hvo & Hdom & Hal).
    exists a', L. split; [| left].
    + rewrite <- HL in INV. eapply Inv_transfer; [exact INV | done | done | done | | | done].
      * intros l y _. apply Hnx.
      * intros y _. apply Hk.
    + exists e. split_and!; try done.
      * rewrite HL, EB. apply elem_of_app. right. by left.
      * symmetry. by apply Compare_eq.
  - (* the key is new: a node is linked *)
    assert (Hno' : forall q, q ∈ B -> Compare k (nkey a q) <> 0).
    { intros q Hq. specialize (Hno q Hq). lia. }
    destruct (putSearch_nomatch s1 a k A B INV Hsp v (Z.to_nat lh) _ (Z.to_nat lh) Hno' Hok)
      as (hh & Hs & Hok'); [lia | lia |].
    rewrite Hs in HPut. cbn [bind] in HPut.
    unfold the_arena in HPut. rewrite (inv_arena _ _ _ INV) in HPut. cbn [bind] in HPut.
    destruct (newNode a k v H) as [[x a1]|] eqn:Hnew; cbn [bind] in HPut; [|done].
    assert (HB' : Forall (fun y => klt k (nkey a y)) B).
    { apply Forall_forall. intros q Hq. by apply Hno. }
    destruct (PInv_start s1 a k v A B H x a1 INV HA HB' Hnew)
      as (P0 & Htx & Htold & HxL & Hkx & Hvx & Hold); [cbn; lia | done |].
    destruct (insertLevels_spec k A B x b0 (Z.to_nat lh) (Z.to_nat H) 0%nat
                (set_arena s1 a1) a1 hh P0) as (a' & Hins & P' & R).
    + intros l Hl. apply Htx. lia.
    + lia.
    + destruct Hok' as (H1 & H2 & H3). split_and!; [done | done |].
      intros j Hj. destruct (H3 j Hj) as [E1 E2]. cbn [set_arena s_head].
      unfold splice_prev, splice_next in *.
      rewrite (filter_ext_in (tall a1 j) (tall a j) A), (filter_ext_in (tall a1 j) (tall a j) B).
      * done.
      * intros y Hy. apply Htold. right. apply elem_of_app. by right.
      * intros y Hy. apply Htold. right. apply elem_of_app. by left.
    + lia.
    + change (Z.of_nat 0) with 0 in Hins. rewrite Hins in HPut. cbn [bind] in HPut.
      assert (Hs' : s' = set_arena (set_arena s1 a1) a').
      { destruct b0.
        - destruct (refreshHint _ _ _ _ _) as [hh'|]; cbn [bind] in HPut; [|done].
          by injection HPut as <- _.
        - by injection HPut as <- _. }
      subst s'.
      exists a', (A ++ x :: B). split; [| right].
      * apply (PInv_end A B x _ a' (0 + Z.to_nat H)); [done|].
        intros l. rewrite (relinked_tall a1 a' l x R). rewrite Htx. lia.
      * split.
        -- intros y Hy Hyk. rewrite HL in Hy. apply elem_of_app in Hy as [Hy|Hy].
           ++ specialize (SA y Hy). rewrite Hyk, Compare_refl in SA. lia.
           ++ specialize (Hno y Hy). rewrite Hyk, Compare_refl in Hno. lia.
        -- exists A, B, x. rewrite HL. split_and!; try done.
           ++ by rewrite (relinked_nkey a1 a').
           ++ by rewrite (relinked_nval a1 a').
           ++ intros y Hy. rewrite (relinked_nkey a1 a'), (relinked_nval a1 a') by done.
              by apply Hold.
Qed.

(** X15: on a skiplist built by puts of keys whose size fits the 16-bit
    keySize field, a put of such a key through a new hint, or through any
    hint whose height is below that of the list (the arrays of a hint have
    the maxHeight + 1 slots of the Go type), either fails because the
    arena is full, or returns and does what a put with no hint does:
    afterwards Get of the key returns the Meta, UserMeta, ExpiresAt and
    Value of the value put with the Version of the key as its Version
    field, and the forward iteration is strictly ascending and visits the
    key put and the keys put before, each once. *)
Theorem PutWithHint_low_hint sz ops s k v h rnd :
  sz <= MaxUint32 -> Forall keySizeFits (keys_of ops) -> keySizeFits k ->
  build sz ops = Ok s ->
  (forall h0, h = Some h0 ->
     h_height h0 < s_height s /\
     length (h_prev h0) = 21%nat /\ length (h_next h0) = 21%nat) ->
  PutWithHint s k v h rnd = Err OutOfArena \/
  exists s' h',
    PutWithHint s k v h rnd = Ok (s', h') /\
    Get s' k = Ok (mkValue (Meta v) (UserMeta v) (ExpiresAt v) (Value v) (Version k)) /\
    exists ks, forward s' = Ok ks /\ StronglySorted klt ks /\
      forall k', k' ∈ ks <-> k' = k \/ k' ∈ keys_of ops.
Proof.
  intros Hsz Hfit Hfk Hb Hh.
  destruct (build_SInv sz ops s Hsz Hb) as (a0 & Ls & SI).
  destruct (PutWithHint_struct s a0 Ls k v h rnd SI Hh) as [(s' & h' & _ & _ & Hp & _) | E];
    [right | by left].
  exists s', h'. split; [done|].
  destruct (build_keys sz ops s Hsz Hfit Hb) as (a & L & INV & _ & Hks).
  destruct (PutWithHint_low_Inv s a L k v h rnd s' h' INV Hfk Hh Hp) as (a' & L' & INV' & Heff).
  split.
  - assert (He : exists e, e ∈ L' /\ nkey a' e = k /\ nval a' e = v).
    { destruct Heff as [(e & He & Hek & -> & Hv & _ & Hk & _) | (_ & A & B & x & _ & -> & _ & Hxk & Hxv & _)].
      - exists e. by rewrite Hk.
      - exists x. split; [|done]. apply elem_of_app. right. by left. }
    destruct He as (e & He & Hek & Hev).
    destruct (Get_present s' a' L' k e INV' He Hek) as [HG _]. by rewrite HG, Hev.
  - exists (map (nkey a') L'). split_and!.
    + rewrite (forward_wf s' a' _ (Inv_wf _ _ _ INV')). by rewrite (Inv_levels0 _ _ _ INV').
    + apply ascending_keys, (inv_sorted _ _ _ INV').
    + intros k'. rewrite (put_effect_keys _ _ _ _ _ _ Heff k'). by rewrite Hks.
Qed.

Lemma PutWithHint_low_hint_witness :
  4096 <= MaxUint32 /\ Forall keySizeFits (keys_of ex_ops) /\ keySizeFits (ukey "b" 1) /\
  build 4096 ex_ops = Ok ex_s /\
  (forall h0, Some newHint = Some h0 ->
     h_height h0 < s_height ex_s /\
     length (h_prev h0) = 21%nat /\ length (h_next h0) = 21%nat) /\
  (PutWithHint ex_s (ukey "b" 1) (payload "4") (Some newHint) draws2 = Err OutOfArena \/
   exists s' h',
     PutWithHint ex_s (ukey "b" 1) (payload "4") (Some newHint) draws2 = Ok (s', h') /\
     Get s' (ukey "b" 1) =
       Ok (mkValue (Meta (payload "4")) (UserMeta (payload "4")) (ExpiresAt (payload "4"))
                   (Value (payload "4")) (Version (ukey "b" 1))) /\
     exists ks, forward s' = Ok ks /\ StronglySorted klt ks /\
       forall k', k' ∈ ks <-> k' = ukey "b" 1 \/ k' ∈ keys_of ex_ops).
Proof.
  assert (H1 : 4096 <= MaxUint32) by (vm_compute; intro; discriminate).
  assert (Hf : Forall keySizeFits (keys_of ex_ops)) by (repeat constructor).
  assert (Hk : keySizeFits (ukey "b" 1)) by reflexivity.
  assert (H2 : build 4096 ex_ops = Ok ex_s) by (vm_compute; reflexivity).
  assert (H3 : forall h0, Some newHint = Some h0 ->
     h_height h0 < s_height ex_s /\
     length (h_prev h0) = 21%nat /\ length (h_next h0) = 21%nat).
  { intros h0 E. injection E as <-. vm_compute. repeat split; reflexivity. }
  split; [exact H1|]. split; [exact Hf|]. split; [exact Hk|]. split; [exact H2|].
  split; [exact H3|].
  exact (PutWithHint_low_hint 4096 ex_ops ex_s (ukey "b" 1) (payload "4")
           (Some newHint) draws2 H1 Hf Hk H2 H3).
Defined.

(** * Node words, heights and the torn-down skiplist *)

(** X12: the value word of a node keeps both halves: decodeValue gives
    back the offset and the size encodeValue packed, for all 32-bit
    arguments. *)
Theorem decodeValue_encodeValue off size :
  0 <= off < 2 ^ 32 -> 0 <= size < 2 ^ 32 ->
  decodeValue (encodeValue off size) = (off, size).
Proof.
  intros Hoff Hsize. unfold decodeValue, encodeValue. f_equal.
  - rewrite <- (Z.land_ones _ 32) by lia.
    rewrite Z.land_lor_distr_l.
    rewrite (Z.land_ones (Z.shiftl size 32)) by lia.
    rewrite Z.shiftl_mul_pow2 by lia. rewrite Z.mod_mul by lia.
    rewrite Z.lor_0_l. rewrite Z.land_ones by lia. apply Z.mod_small. lia.
  - rewrite Z.shiftr_lor, Z.shiftr_shiftl_l by lia. rewrite Z.sub_diag, Z.shiftl_0_r.
    rewrite (Z.shiftr_div_pow2 off) by lia. rewrite (Z.div_small off) by lia.
    rewrite Z.lor_0_r. apply Z.mod_small. lia.
Qed.

Lemma decodeValue_encodeValue_witness :
  0 <= 4000000000 < 2 ^ 32 /\ 0 <= 70000 < 2 ^ 32 /\
  decodeValue (encodeValue 4000000000 70000) = (4000000000, 70000).
Proof.
  assert (H1 : 0 <= 4000000000 < 2 ^ 32) by lia.
  assert (H2 : 0 <= 70000 < 2 ^ 32) by lia.
  split; [exact H1|]. split; [exact H2|].
  exact (decodeValue_encodeValue 4000000000 70000 H1 H2).
Defined.

Lemma randomHeight_loop_draws rnd : forall m fuel i h,
  (forall j, (j < m)%nat -> rnd (i + j)%nat <= heightIncrease) ->
  h + Z.of_nat m <= maxHeight ->
  (h + Z.of_nat m < maxHeight -> heightIncrease < rnd (i + m)%nat) ->
  (m < fuel)%nat ->
  randomHeight_loop fuel rnd i h = h + Z.of_nat m.
Proof.
  induction m as [|m IH]; intros fuel i h Hsmall Hcap Hstop Hfuel;
    (destruct fuel as [|fuel]; [lia|]); cbn [randomHeight_loop].
  - rewrite Nat.add_0_r in Hstop.
    destruct (Z.ltb_spec h maxHeight) as [Hlt|Hge]; cbn [andb]; [|lia].
    destruct (Z.leb_spec (rnd i) heightIncrease) as [Hle|Hgt]; [lia | lia].
  - destruct (Z.ltb_spec h maxHeight) as [Hlt|Hge]; cbn [andb]; [|lia].
    pose proof (Hsmall 0%nat ltac:(lia)) as H0. rewrite Nat.add_0_r in H0.
    destruct (Z.leb_spec (rnd i) heightIncrease) as [Hle|Hgt]; [|lia].
    rewrite (IH fuel (S i) (h + 1)); [lia | | lia | | lia].
    + intros j Hj. replace (S i + j)%nat with (i + S j)%nat by lia. apply Hsmall. lia.
    + intros Hlt'. replace (S i + m)%nat with (i + S m)%nat by lia. apply Hstop. lia.
Qed.

(** X13: randomHeight is one more than the number of leading draws of the
    generator that are at most heightIncrease, and maxHeight when the
    first maxHeight - 1 draws are all that small: it stops at the first
    larger draw and never draws past the cap. *)
Theorem randomHeight_draws rnd n :
  (n <= 19)%nat ->
  (forall j, (j < n)%nat -> rnd j <= heightIncrease) ->
  ((n < 19)%nat -> heightIncrease < rnd n) ->
  randomHeight rnd = 1 + Z.of_nat n.
Proof.
  intros Hn Hsmall Hstop. unfold randomHeight.
  apply randomHeight_loop_draws.
  - intros j Hj. by apply Hsmall.
  - unfold maxHeight. lia.
  - unfold maxHeight. intros H. apply Hstop. lia.
  - unfold maxHeight. change (Z.to_nat 20) with 20%nat. lia.
Qed.

Lemma randomHeight_draws_witness :
  (1 <= 19)%nat /\
  (forall j, (j < 1)%nat -> draws2 j <= heightIncrease) /\
  ((1 < 19)%nat -> heightIncrease < draws2 1%nat) /\
  randomHeight draws2 = 1 + Z.of_nat 1.
Proof.
  assert (H1 : (1 <= 19)%nat) by lia.
  assert (H2 : forall j, (j < 1)%nat -> draws2 j <= heightIncrease).
  { intros j Hj. assert (j = 0%nat) as -> by lia. vm_compute. intro H. discriminate H. }
  assert (H3 : (1 < 19)%nat -> heightIncrease < draws2 1%nat).
  { intros _. vm_compute. reflexivity. }
  split; [exact H1|]. split; [exact H2|]. split; [exact H3|].
  exact (randomHeight_draws draws2 1 H1 H2 H3).
Defined.

(** X14: once Delete has returned, the skiplist is not valid, and every
    read and every put on it fails on the nil arena: none returns a value
    or a node of the arena that was reset. *)
Theorem use_after_Delete s s' k :
  valid s = true -> 1 <= s_height s <= maxHeight -> Delete s = Ok s' ->
  valid s' = false /\
  Get s' k = Err NilDeref /\
  (forall less allowEqual, findNear s' k less allowEqual = Err NilDeref) /\
  Empty s' = Err NilDeref /\
  SeekToFirst s' = Err NilDeref /\
  SeekToLast s' = Err NilDeref /\
  GetWithHint s' k None = Err NilDeref /\
  (forall v rnd, Put s' k v rnd = Err NilDeref).
Proof.
  unfold valid, Delete, the_arena. destruct (s_arena s) as [a|] eqn:Ha; [|done].
  intros _ Hh [= <-]. cbn [bind].
  split_and!; try done.
  - unfold GetWithHint, getHeight. cbn [s_height].
    rewrite (calculateRecomputeHeight_fresh _ k _ Hh). cbn [bind].
    replace (s_height s >? 0) with true by (symmetry; apply Z.gtb_lt; lia).
    destruct (Z.to_nat (s_height s)) as [|i] eqn:E; [lia|].
    cbn [getSearch h_prev]. replace (Z.of_nat i + 1) with (Z.of_nat (S i)) by lia.
    rewrite (arr_get_Ok _ (S i) 0); [done|]. rewrite <- E.
    apply list_lookup_insert_eq. unfold newHint, maxHeight in *. cbn [h_prev].
    rewrite length_replicate. lia.
  - intros v rnd. unfold Put, PutWithHint, getHeight. cbn [s_height s_head s_arena].
    pose proof (randomHeight_range rnd) as HH. set (H := randomHeight rnd) in *.
    set (s1 := if H >? s_height s then _ else _).
    set (lh := if H >? s_height s then _ else _).
    assert (Hlh : 1 <= lh <= maxHeight) by (subst lh; case_match; lia).
    assert (Hs1 : s_arena s1 = None /\ s_head s1 = 0) by (subst s1; by case_match).
    destruct Hs1 as [Ha1 Hhd1].
    rewrite (calculateRecomputeHeight_fresh s1 k lh Hlh). cbn [bind].
    replace (lh >? 0) with true by (symmetry; apply Z.gtb_lt; lia).
    destruct (Z.to_nat lh) as [|i] eqn:E; [lia|].
    cbn [putSearch h_prev]. replace (Z.of_nat i + 1) with (Z.of_nat (S i)) by lia.
    rewrite (arr_get_Ok _ (S i) (s_head s1)).
    + cbn [bind]. unfold findSpliceForLevel, fuel_of. rewrite Ha1.
      cbn [findSpliceForLevel_loop]. unfold getNext, the_arena. by rewrite Ha1.
    + rewrite <- E. apply list_lookup_insert_eq. unfold newHint, maxHeight in *.
      cbn [h_prev]. rewrite length_replicate. lia.
Qed.

Lemma use_after_Delete_witness :
  valid ex_s = true /\ 1 <= s_height ex_s <= maxHeight /\
  Delete ex_s = Ok (mkSkiplist (s_height ex_s) 0 None) /\
  Get (mkSkiplist (s_height ex_s) 0 None) (ukey "a" 1) = Err NilDeref.
Proof.
  assert (H1 : valid ex_s = true) by (vm_compute; reflexivity).
  assert (H2 : 1 <= s_height ex_s <= maxHeight)
    by (vm_compute; split; intro H; discriminate H).
  assert (H3 : Delete ex_s = Ok (mkSkiplist (s_height ex_s) 0 None))
    by (vm_compute; reflexivity).
  split; [exact H1|]. split; [exact H2|]. split; [exact H3|].
  exact (proj1 (proj2 (use_after_Delete ex_s _ (ukey "a" 1) H1 H2 H3))).
Defined.

